(** * Agent Control Panel: similarity selector, message validator,
      command transport and run orchestrator

    A shallow embedding of the protocol core of the Agent Control Panel:

    - [Similarity]: [shared/similarity.ts] ([tokenize], [jaccardSimilarity],
      [isTooSimilar], [pickNextPost]);
    - [Schema]: [shared/schema.ts] ([isObject], [hasKeys], [validateMessage]);
    - [Transport]: the controller's [ACPTransport] ([send], [sendCommand],
      [dispatchWithRetry], [handleIncoming], [extractRequestId]);
    - [Agent]: the userscript [userscript/agent.user.js], version 1.1.0
      ([withTimeout], [retryWithBackoff], [sendStatus], [sendLog],
      [sendRowResult], [runWorkflow], [waitForStepSignal], [handleMessage]).

    Conventions.  A JavaScript [number] that the code computes by division
    is an exact rational, [Infinity] or [NaN]; row and step indices and
    millisecond counts are integers.  A [Set] is a [gset], a [Map] and an
    object used as a record are [gmap]s.  Asynchronous code is cut at its
    [await]s and timers: what runs between two of them is one function
    on the state, and the event loop is a [step] function over events. *)

From Stdlib Require Import ZArith QArith Qcanon String Ascii.
From stdpp Require Import numbers strings gmap fin_maps list.

Set Warnings "-register-all".
Open Scope string_scope.

(** ** Similarity selector ([shared/similarity.ts]) *)

Module Similarity.

(** Characters are UTF-16 code units below 256.  On those,
    [toLowerCase] changes the letters [A]-[Z] only as far as the
    class [[a-z0-9\s]] can see, and [\s] is the set below. *)
Definition is_upper (c : ascii) : bool :=
  (65 <=? nat_of_ascii c)%nat && (nat_of_ascii c <=? 90)%nat.
Definition is_lower (c : ascii) : bool :=
  (97 <=? nat_of_ascii c)%nat && (nat_of_ascii c <=? 122)%nat.
Definition is_digit (c : ascii) : bool :=
  (48 <=? nat_of_ascii c)%nat && (nat_of_ascii c <=? 57)%nat.
Definition is_space (c : ascii) : bool :=
  let n := nat_of_ascii c in
  ((9 <=? n)%nat && (n <=? 13)%nat) || (n =? 32)%nat || (n =? 160)%nat.

Definition lower_char (c : ascii) : ascii :=
  if is_upper c then ascii_of_nat (nat_of_ascii c + 32) else c.

Fixpoint map_chars (f : ascii → ascii) (s : string) : string :=
  match s with
  | EmptyString => EmptyString
  | String c s' => String (f c) (map_chars f s')
  end.

(** [text.toLowerCase()] *)
Definition toLowerCase (text : string) : string := map_chars lower_char text.

(** [.replace(/[^a-z0-9\s]/g, " ")] *)
Definition replace_other (text : string) : string :=
  map_chars (λ c, if is_lower c || is_digit c || is_space c then c else " "%char)
            text.

(** [.split(/\s+/)]: the pieces between maximal runs of white space; a
    leading or trailing run leaves an empty piece, and the empty string
    splits into one empty piece.  [in_run] says that the previous
    character was white space, [cur] is the piece read so far. *)
Fixpoint split_ws (in_run : bool) (cur : string) (s : string) : list string :=
  match s with
  | EmptyString => [cur]
  | String c s' =>
      if is_space c then
        if in_run then split_ws true cur s'
        else cur :: split_ws true EmptyString s'
      else split_ws false (cur +:+ String c EmptyString) s'
  end.

(** [export const tokenize] *)
Definition tokenize (text : string) : list string :=
  filter (λ piece, piece ≠ EmptyString)
         (split_ws false EmptyString (replace_other (toLowerCase text))).

(** The value of a JavaScript division of two counts. *)
Inductive number :=
| Num (q : Qc)
| Infinity
| NaN.

Definition js_div (n d : nat) : number :=
  match d, n with
  | O, O => NaN
  | O, S _ => Infinity
  | S _, _ => Num (Q2Qc (Z.of_nat n # Pos.of_nat d))
  end.

(** [x >= threshold] for a finite threshold. *)
Definition js_ge (x : number) (threshold : Qc) : bool :=
  match x with
  | Num q => bool_decide (threshold ≤ q)%Qc
  | Infinity => true
  | NaN => false
  end.

Definition tokenSet (text : string) : gset string := list_to_set (tokenize text).

Definition intersection (tokensA tokensB : gset string) : list string :=
  filter (λ token, token ∈ tokensB) (elements tokensA).

Definition union (tokensA tokensB : gset string) : gset string :=
  list_to_set (elements tokensA ++ elements tokensB).

(** [export const jaccardSimilarity] *)
Definition jaccardSimilarity (a b : string) : number :=
  let tokensA := tokenSet a in
  let tokensB := tokenSet b in
  if (size tokensA =? 0)%nat && (size tokensB =? 0)%nat then Num 1
  else js_div (length (intersection tokensA tokensB)) (size (union tokensA tokensB)).

(** [export const isTooSimilar] *)
Definition isTooSimilar (candidate : string) (recent : list string)
    (threshold : Qc) : bool :=
  existsb (λ item, js_ge (jaccardSimilarity candidate item) threshold) recent.

Record Pick := { value : string; reason : string }.

Definition fallback_reason : string :=
  "fallback: no unique candidates under similarity threshold".

(** The [for (const candidate of pool)] loop of [pickNextPost]; [pool]
    is the whole pool, [rest] what the loop still has to visit. *)
Fixpoint pickLoop (pool recent : list string) (threshold : Qc)
    (rest : list string) : Pick :=
  match rest with
  | [] => {| value := default EmptyString (head pool); reason := fallback_reason |}
  | candidate :: rest' =>
      if bool_decide (head recent = Some candidate) then
        pickLoop pool recent threshold rest'
      else if isTooSimilar candidate recent threshold then
        pickLoop pool recent threshold rest'
      else {| value := candidate; reason := "selected" |}
  end.

(** [export const pickNextPost] *)
Definition pickNextPost (pool recent : list string) (threshold : Qc) : Pick :=
  pickLoop pool recent threshold pool.

(** The default [threshold = 0.8]. *)
Definition defaultThreshold : Qc := Q2Qc (8 # 10).

(** What the loop of [pickNextPost] skips. *)
Definition skipped (recent : list string) (threshold : Qc) (candidate : string) : Prop :=
  head recent = Some candidate
  ∨ ∃ item q, item ∈ recent ∧ jaccardSimilarity candidate item = Num q
              ∧ (threshold ≤ q)%Qc.

End Similarity.

(** ** Message validator ([shared/schema.ts]) *)

Module Schema.

(** A JavaScript value as the transport receives it ([message: unknown]).
    An object is the map of the properties that [in] and a property read
    see on it; an array is the object of its indices. *)
Inductive unknown :=
| Undefined
| Null
| Boolean (b : bool)
| Number (n : Z)
| Str (s : string)
| Object (props : gmap string unknown).

(** A JavaScript evaluation either completes or throws. *)
Inductive completion (A : Type) :=
| Normal (a : A)
| Throw (error : string).
Arguments Normal {A} a.
Arguments Throw {A} error.

#[export] Instance completion_ret : MRet completion := λ A a, Normal a.
#[export] Instance completion_bind : MBind completion := λ A B f m,
  match m with
  | Normal a => f a
  | Throw e => Throw e
  end.

(** [typeof value] *)
Definition typeof (value : unknown) : string :=
  match value with
  | Undefined => "undefined"
  | Null => "object"
  | Boolean _ => "boolean"
  | Number _ => "number"
  | Str _ => "string"
  | Object _ => "object"
  end.

Definition is_null (value : unknown) : bool :=
  match value with Null => true | _ => false end.

(** [value.key]: reading a property of [undefined] or [null] throws; a
    property that is not there reads as [undefined]. *)
Definition get (value : unknown) (key : string) : completion unknown :=
  match value with
  | Undefined | Null => Throw "TypeError: cannot read properties of undefined or null"
  | Object props => Normal (default Undefined (props !! key))
  | _ => Normal Undefined
  end.

(** [key in value]: throws unless [value] is an object. *)
Definition js_in (key : string) (value : unknown) : completion bool :=
  match value with
  | Object props => Normal (bool_decide (is_Some (props !! key)))
  | _ => Throw "TypeError: cannot use 'in' operator on a non-object"
  end.

(** [const isObject] *)
Definition isObject (value : unknown) : bool :=
  bool_decide (typeof value = "object") && negb (is_null value).

(** [const hasKeys]: [keys.every((key) => key in value)] *)
Fixpoint hasKeys (value : unknown) (keys : list string) : completion bool :=
  match keys with
  | [] => Normal true
  | key :: keys' =>
      present ← js_in key value;
      if present : bool then hasKeys value keys' else Normal false
  end.

Section Validator.

(** [schema.types] of [message-schema.json]: each known message type with
    the keys of its payload schema, [Object.keys(schema.types[type])]. *)
Variable types : gmap string (list string).

(** [const baseTypeKeys = Object.keys(schema.types)] *)
Definition baseTypeKeys : list string := (map_to_list types).*1.

(** [Object.keys(schema.types[type])]; [Object.keys(undefined)] throws. *)
Definition requiredKeysOf (type : string) : completion (list string) :=
  match types !! type with
  | Some keys => Normal keys
  | None => Throw "TypeError: cannot convert undefined or null to object"
  end.

(** [export const validateMessage] *)
Definition validateMessage (message : unknown) : completion bool :=
  if negb (isObject message) then Normal false
  else
    type ← get message "type";
    match type with
    | Str type =>
        if negb (bool_decide (type ∈ baseTypeKeys)) then Normal false
        else
          hasPayload ← js_in "payload" message;
          if negb hasPayload then Normal false
          else
            payload ← get message "payload";
            if negb (isObject payload) then Normal false
            else
              requiredKeys ← requiredKeysOf type;
              hasKeys payload requiredKeys
    | _ => Normal false
    end.

End Validator.

(** What the specification calls a valid message for the table [types]. *)
Definition valid (types : gmap string (list string)) (message : unknown) : Prop :=
  ∃ props type payload requiredKeys,
    message = Object props
    ∧ props !! "type" = Some (Str type)
    ∧ types !! type = Some requiredKeys
    ∧ props !! "payload" = Some (Object payload)
    ∧ ∀ key, key ∈ requiredKeys → is_Some (payload !! key).

(** Sample messages: a ping with a [requestId], the message of the test
    suite ([tests/schema.test.ts]), which has none, an acknowledgment,
    and a table of message types that knows the three. *)
Definition PING (requestId : string) : unknown :=
  Object {[ "type" := Str "CONTROL_PING";
            "payload" := Object {[ "requestId" := Str requestId ]} ]}.

Definition PAUSE_WITHOUT_ID : unknown :=
  Object {[ "type" := Str "CONTROL_PAUSE_RUN";
            "payload" := Object {[ "runId" := Str "run-123" ]} ]}.

Definition ACK (requestId : string) : unknown :=
  Object {[ "type" := Str "AGENT_ACK";
            "payload" := Object {[ "requestId" := Str requestId;
                                   "commandType" := Str "CONTROL_PING";
                                   "ok" := Boolean true;
                                   "error" := Str EmptyString ]} ]}.

Definition SAMPLE_TYPES : gmap string (list string) :=
  {[ "CONTROL_PING" := ["requestId"];
     "CONTROL_PAUSE_RUN" := ["runId"];
     "AGENT_ACK" := ["requestId"; "commandType"; "ok"; "error"] ]}.

End Schema.

(** ** Command transport (the controller's [ACPTransport]) *)

Module Transport.
Import Schema.
Local Open Scope Z_scope.
Local Open Scope list_scope.

(** An entry of [this.pending].  [resolve] and [reject] are the two
    functions of one promise, named here by its number. *)
Record PendingEntry := {
  promise : nat;
  retriesLeft : Z;
  message : unknown;
  timeoutMs : Z;
}.

(** How a promise created by [sendCommand] was settled. *)
Inductive settlement :=
| Resolved (payload : unknown)
| RejectedWith (error : string).

(** What [sendCommand] returns: [Promise.reject(new Error(..))], or the
    new promise whose [resolve] and [reject] went into [this.pending]. *)
Inductive returned :=
| PromiseReject (error : string)
| NewPromise (id : nat).

(** The transport object together with the part of the browser it
    drives: the [window.setTimeout] callbacks that have not run yet (each
    with the time it is due and the [requestId] its closure holds), the
    clock, the promises settled so far and when, a log of the [send]
    calls (when, for which pending [requestId] if [dispatchWithRetry]
    made the call, and what), and the messages handed to the listeners. *)
Record ACPTransport := {
  pending : gmap string PendingEntry;
  timers : list (Z * string);
  now : Z;
  nextPromise : nat;
  settled : gmap nat (Z * settlement);
  sent : list (Z * option string * unknown);
  heard : list unknown;
}.

Definition EMPTY_TRANSPORT : ACPTransport :=
  {| pending := ∅; timers := []; now := 0; nextPromise := 0; settled := ∅;
     sent := []; heard := [] |}.

Definition set_pending (p : gmap string PendingEntry) (t : ACPTransport) :=
  {| pending := p; timers := timers t; now := now t; nextPromise := nextPromise t;
     settled := settled t; sent := sent t; heard := heard t |}.

Definition NO_REQUEST_ID : string := "Command messages must include a requestId.".
Definition IN_FLIGHT : string := "Another command is already in flight.".
Definition NO_ACK : string := "No ACK received from agent.".

(** [send(message)]: one broadcast, over the channel or over
    [window.postMessage] and [localStorage].  [cause] is for the log. *)
Definition send (cause : option string) (message : unknown) (t : ACPTransport)
    : ACPTransport :=
  {| pending := pending t; timers := timers t; now := now t;
     nextPromise := nextPromise t; settled := settled t;
     sent := sent t ++ [(now t, cause, message)]; heard := heard t |}.

(** [window.setTimeout(callback, ms)] for the callback of
    [dispatchWithRetry] that holds [requestId]; a negative delay counts
    as zero. *)
Definition setTimeout (requestId : string) (ms : Z) (t : ACPTransport) : ACPTransport :=
  {| pending := pending t; timers := timers t ++ [(now t + Z.max 0 ms, requestId)];
     now := now t; nextPromise := nextPromise t; settled := settled t;
     sent := sent t; heard := heard t |}.

(** Calling [resolve] or [reject] of promise [id]; a promise settles once. *)
Definition settle (id : nat) (s : settlement) (t : ACPTransport) : ACPTransport :=
  match settled t !! id with
  | Some _ => t
  | None =>
      {| pending := pending t; timers := timers t; now := now t;
         nextPromise := nextPromise t; settled := <[id := (now t, s)]> (settled t);
         sent := sent t; heard := heard t |}
  end.

(** [private extractRequestId]; [payload.requestId] is typed
    [string | undefined], and [?? null] turns a missing one into [null]. *)
Definition extractRequestId (message : unknown) : option string :=
  match message with
  | Object props =>
      match props !! "payload" with
      | Some (Object payload) =>
          match payload !! "requestId" with
          | Some (Str requestId) => Some requestId
          | _ => None
          end
      | _ => None
      end
  | _ => None
  end.

(** [private dispatchWithRetry], up to the [setTimeout] call. *)
Definition dispatchWithRetry (requestId : string) (t : ACPTransport) : ACPTransport :=
  match pending t !! requestId with
  | None => t
  | Some entry =>
      setTimeout requestId (timeoutMs entry) (send (Some requestId) (message entry) t)
  end.

(** The callback that [dispatchWithRetry] hands to [setTimeout]. *)
Definition onTimeout (requestId : string) (t : ACPTransport) : ACPTransport :=
  match pending t !! requestId with
  | None => t
  | Some current =>
      if (retriesLeft current <=? 0)%Z then
        settle (promise current) (RejectedWith NO_ACK)
               (set_pending (delete requestId (pending t)) t)
      else
        dispatchWithRetry requestId
          (set_pending
             (<[requestId := {| promise := promise current;
                                retriesLeft := retriesLeft current - 1;
                                message := message current;
                                timeoutMs := timeoutMs current |}]> (pending t))
             t)
  end.

(** [sendCommand(message, timeoutMs = 4000, retries = 2)] *)
Definition sendCommand (message : unknown) (timeoutMs retries : Z)
    (t : ACPTransport) : ACPTransport * returned :=
  match extractRequestId message with
  | None => (t, PromiseReject NO_REQUEST_ID)
  | Some requestId =>
      if bool_decide (requestId = EmptyString) then (t, PromiseReject NO_REQUEST_ID)
      else if (1 <=? size (pending t))%nat then (t, PromiseReject IN_FLIGHT)
      else
        let id := nextPromise t in
        let entry := {| promise := id; retriesLeft := retries;
                        message := message; timeoutMs := timeoutMs |} in
        (dispatchWithRetry requestId
           {| pending := <[requestId := entry]> (pending t); timers := timers t;
              now := now t; nextPromise := S id; settled := settled t;
              sent := sent t; heard := heard t |},
         NewPromise id)
  end.

Definition DEFAULT_TIMEOUT_MS : Z := 4000.
Definition DEFAULT_RETRIES : Z := 2.

Section Incoming.

Variable types : gmap string (list string).

(** The [requestId] that [this.pending.get(message.payload.requestId)]
    looks up; the keys of [this.pending] are strings. *)
Definition ackRequestId (message : unknown) : option string :=
  match get message "payload" ≫= (λ payload, get payload "requestId") with
  | Normal (Str requestId) => Some requestId
  | _ => None
  end.

Definition is_ack (message : unknown) : bool :=
  match get message "type" with
  | Normal (Str type) => bool_decide (type = "AGENT_ACK")
  | _ => false
  end.

(** [private handleIncoming] *)
Definition handleIncoming (message : unknown) (t : ACPTransport) : ACPTransport :=
  match validateMessage types message with
  | Normal true =>
      let t1 :=
        if is_ack message then
          match ackRequestId message with
          | Some requestId =>
              match pending t !! requestId with
              | Some entry =>
                  settle (promise entry)
                         (Resolved (default Undefined
                                      (match message with
                                       | Object props => props !! "payload"
                                       | _ => None
                                       end)))
                         (set_pending (delete requestId (pending t)) t)
              | None => t
              end
          | None => t
          end
        else t in
      {| pending := pending t1; timers := timers t1; now := now t1;
         nextPromise := nextPromise t1; settled := settled t1; sent := sent t1;
         heard := heard t1 ++ [message] |}
  | _ => t
  end.

(** The timer that is due first, the older one among equals. *)
Fixpoint earliest (ts : list (Z * string)) : option (Z * string) :=
  match ts with
  | [] => None
  | timer :: ts' =>
      match earliest ts' with
      | Some other => if (other.1 <? timer.1)%Z then Some other else Some timer
      | None => Some timer
      end
  end.

Fixpoint remove_first (timer : Z * string) (ts : list (Z * string)) : list (Z * string) :=
  match ts with
  | [] => []
  | other :: ts' =>
      if bool_decide (other = timer) then ts' else other :: remove_first timer ts'
  end.

(** What happens to a transport: the next timer fires, a message comes
    in, or the application calls [sendCommand] or [send]. *)
Inductive event :=
| Tick
| Incoming (message : unknown)
| SendCommand (message : unknown) (timeoutMs retries : Z)
| Send (message : unknown).

Definition tick (t : ACPTransport) : ACPTransport :=
  match earliest (timers t) with
  | None => t
  | Some (due, requestId) =>
      onTimeout requestId
        {| pending := pending t; timers := remove_first (due, requestId) (timers t);
           now := Z.max (now t) due; nextPromise := nextPromise t;
           settled := settled t; sent := sent t; heard := heard t |}
  end.

Definition step (t : ACPTransport) (e : event) : ACPTransport :=
  match e with
  | Tick => tick t
  | Incoming message => handleIncoming message t
  | SendCommand message timeoutMs retries => (sendCommand message timeoutMs retries t).1
  | Send message => send None message t
  end.

Definition run (t : ACPTransport) (events : list event) : ACPTransport :=
  foldl step t events.

(** A valid acknowledgment that names [requestId]. *)
Definition acknowledges (requestId : string) (e : event) : Prop :=
  match e with
  | Incoming message =>
      validateMessage types message = Normal true
      ∧ is_ack message = true
      ∧ ackRequestId message = Some requestId
  | _ => False
  end.

End Incoming.

(** The part of the log of [send] calls that [dispatchWithRetry] made
    for [requestId]. *)
Definition sentFor (requestId : string) (l : list (Z * option string * unknown))
    : list (Z * unknown) :=
  omap (λ entry, if bool_decide (entry.1.2 = Some requestId)
                 then Some (entry.1.1, entry.2) else None) l.

(** [message] sent [count] times, first at [start] and then every
    [period]. *)
Fixpoint transmissions (message : unknown) (start period : Z) (count : nat)
    : list (Z * unknown) :=
  match count with
  | O => []
  | S count' => (start, message) :: transmissions message (start + period) period count'
  end.

Definition carriesRequestId (message : unknown) : bool :=
  match extractRequestId message with
  | Some requestId => negb (bool_decide (requestId = EmptyString))
  | None => false
  end.

(** The timers whose callback holds [requestId]. *)
Definition timersFor (requestId : string) (ts : list (Z * string)) : list (Z * string) :=
  filter (λ timer, timer.2 = requestId) ts.

(** What holds of a transport whatever happens to it: no timer is
    overdue, the promises not yet created are not settled, and at most
    one command is pending, whose promise is not settled. *)
Record sound (t : ACPTransport) : Prop := {
  sound_timers : Forall (λ timer, now t ≤ timer.1) (timers t);
  sound_fresh : ∀ id, (nextPromise t ≤ id)%nat → settled t !! id = None;
  sound_single :
    pending t = ∅
    ∨ ∃ key entry, pending t = {[key := entry]}
                   ∧ (promise entry < nextPromise t)%nat
                   ∧ settled t !! promise entry = None;
}.

(** As long as no acknowledgment for [requestId] has come in, its entry
    in [this.pending] has exactly one timer, and there is no timer for
    it when it has no entry. *)
Definition oneTimer (requestId : string) (t : ACPTransport) : Prop :=
  length (timersFor requestId (timers t))
  = if bool_decide (is_Some (pending t !! requestId)) then 1%nat else 0%nat.

Section Command.

(** A command [command] with [requestId], sent at [start] with
    [sendCommand(command, wait, retries)], which returned promise [id];
    [earlier] is what the log had for [requestId] before. *)
Variables (requestId : string) (command : unknown) (wait retries : Z).
Variables (id : nat) (start : Z) (earlier : list (Z * unknown)).

Definition entryAfter (k : nat) : PendingEntry :=
  {| promise := id; retriesLeft := retries - Z.of_nat k; message := command;
     timeoutMs := wait |}.

(** The command is pending after [k] expired timers: [k + 1] sends, one
    every [wait], the promise open, the next timer set. *)
Definition waiting (k : nat) (t : ACPTransport) : Prop :=
  sound t
  ∧ pending t = {[requestId := entryAfter k]}
  ∧ settled t !! id = None
  ∧ (id < nextPromise t)%nat
  ∧ sentFor requestId (sent t) = earlier ++ transmissions command start wait (S k)
  ∧ timersFor requestId (timers t) = [(start + (Z.of_nat k + 1) * wait, requestId)].

(** The command was rejected: at [start + (retries + 1) * wait], with
    "No ACK received from agent.", after [retries + 1] sends; no entry
    of [this.pending] belongs to it, and whatever was sent for
    [requestId] since then was sent later. *)
Definition rejected (t : ACPTransport) : Prop :=
  settled t !! id = Some (start + (retries + 1) * wait, RejectedWith NO_ACK)
  ∧ (∀ key entry, pending t !! key = Some entry → promise entry ≠ id)
  ∧ (id < nextPromise t)%nat
  ∧ start + (retries + 1) * wait ≤ now t
  ∧ ∃ later,
      sentFor requestId (sent t)
      = earlier ++ transmissions command start wait (S (Z.to_nat retries)) ++ later
      ∧ Forall (λ entry, start + (retries + 1) * wait ≤ entry.1) later.

End Command.

End Transport.

(** ** Run orchestrator ([userscript/agent.user.js], version 1.1.0) *)

Module Agent.
Local Open Scope Z_scope.
Local Open Scope list_scope.

(** A step of a workflow, as far as [runWorkflow] reads it; [selector],
    [value] and [notes] are read by [executeStep] only. *)
Record WorkflowStep := {
  step_type : string;
  step_retries : option nat;
  step_timeoutMs : option Z;
}.

Record RunSettings := {
  timeoutMs : Z;
  delayMinMs : Z;
  delayMaxMs : Z;
  bestEffort : bool;
  dryRun : bool;
  stepThrough : bool;
}.

(** The payload of [CONTROL_START_RUN], destructured by [runWorkflow]. *)
Record Payload := {
  runId : string;
  workflow : list WorkflowStep;
  rows : list (gmap string string);
  settings : RunSettings;
  resumeFrom : Z;
}.

(** The shared object [storageState]. *)
Record StorageState := {
  status : string;
  storedRunId : option string;
  storedRowIndex : Z;
  paused : bool;
  stopped : bool;
  killSwitchEnabled : bool;
  stepSignal : option (string * Z * Z);
}.

(** [const storageState = { status: "idle", ... }] *)
Definition INITIAL_STORAGE : StorageState :=
  {| status := "idle"; storedRunId := None; storedRowIndex := -1; paused := false;
     stopped := false; killSwitchEnabled := false; stepSignal := None |}.

(** The object [state] of one call of [runWorkflow]. *)
Record RunState := {
  currentRowIndex : Z;
  successCount : Z;
  failureCount : Z;
}.

(** What the agent broadcasts.  Time stamps, artifacts and the fields of
    [AGENT_HELLO] and [AGENT_PONG] that describe the page are left out.
    The counts of a status are missing when [sendStatus] is given
    [storageState], which has none. *)
Inductive AgentMessage :=
| AGENT_STATUS (runId status : string) (currentRowIndex : Z) (message : string)
               (successCount failureCount : option Z)
| AGENT_ACK (requestId commandType : string) (ok : bool) (error : string)
| AGENT_LOG (runId : string) (rowIndex stepIndex : Z) (level message : string)
| AGENT_ROW_RESULT (runId : string) (rowIndex : Z) (status : string)
                   (error : option string)
| AGENT_HELLO (requestId : string)
| AGENT_PONG (requestId : string).

(** What a piece of the agent does to the outside: a [broadcast], a call
    [delay(ms)], or a call [applyDelay(min, max)], whose length is drawn
    from [Math.random]. *)
Inductive effect :=
| Broadcast (message : AgentMessage)
| Delay (ms : Z)
| ApplyDelay (min max : Z).

(** [sendStatus(runId, status, state, message)] for the [state] of a run *)
Definition sendStatus (runId status : string) (state : RunState) (message : string)
    : effect :=
  Broadcast (AGENT_STATUS runId status (currentRowIndex state) message
                          (Some (successCount state)) (Some (failureCount state))).

(** [sendStatus(runId, status, storageState, message)] *)
Definition sendStatusOfStorage (runId status : string) (storageState : StorageState)
    (message : string) : effect :=
  Broadcast (AGENT_STATUS runId status (storedRowIndex storageState) message None None).

Definition sendAck (requestId commandType : string) (ok : bool) (error : string) : effect :=
  Broadcast (AGENT_ACK requestId commandType ok error).

Definition sendLog (runId : string) (rowIndex stepIndex : Z) (level message : string)
    : effect :=
  Broadcast (AGENT_LOG runId rowIndex stepIndex level message).

Definition sendRowResult (runId : string) (rowIndex : Z) (status : string)
    (error : option string) : effect :=
  Broadcast (AGENT_ROW_RESULT runId rowIndex status error).

(** What an attempt of a step throws. *)
Inductive thrown :=
| ErrorWith (message : string)
| NotAnError.

#[global] Instance thrown_eq_dec : EqDecision thrown.
Proof. solve_decision. Defined.

(** [new Error(timeoutMessage)] of [withTimeout], for the message that
    [retryWithBackoff] gives it. *)
Definition STEP_TIMEOUT : thrown := ErrorWith "Step timeout exceeded".

(** How [withTimeout(fn(), timeoutMs, ..)] settles for one attempt: the
    Action Executor and the timeout race are the environment's.  When
    the timer wins the race, the attempt is rejected with
    [STEP_TIMEOUT]; [withTimeout] only stops waiting, and [fn()] goes
    on running (see [Orphan]). *)
Inductive attempt :=
| Fulfilled
| Rejected (error : thrown).

Definition MAX_BACKOFF_MS : Z := 8000.

(** [Math.min(500 * 2 ** attempt, MAX_BACKOFF_MS)] *)
Definition backoff (n : nat) : Z := Z.min (500 * 2 ^ Z.of_nat n) MAX_BACKOFF_MS.

(** The [while (true)] loop of [retryWithBackoff]. [fn] gives, for each
    attempt, how it settles and what it broadcasts; [left] is
    [retries - attempt], so that [attempt >= retries] reads [left = 0].
    The result is the error thrown, if any, and the effects in order. *)
Fixpoint retryLoop (fn : nat → attempt * list effect) (left n : nat)
    : option thrown * list effect :=
  match fn n with
  | (Fulfilled, effects) => (None, effects)
  | (Rejected error, effects) =>
      match left with
      | O => (Some error, effects)
      | S left' =>
          let '(result, later) := retryLoop fn left' (S n) in
          (result, effects ++ Delay (backoff n) :: later)
      end
  end.

(** [const retryWithBackoff = async (fn, retries = 0, timeoutMs = 0)] *)
Definition retryWithBackoff (fn : nat → attempt * list effect) (retries : nat)
    : option thrown * list effect :=
  retryLoop fn retries 0.

(** Where a call of [runWorkflow] is suspended: at [await delay(500)] of
    the pause loop, at [await waitForStepSignal(..)], at
    [await retryWithBackoff(..)], at [await applyDelay(..)], or nowhere
    any more.  The arguments are the local variables that are live. *)
Inductive point :=
| PauseDelay (rowIndex : Z)
| StepSignal (rowIndex : Z) (stepIndex : nat) (step : WorkflowStep)
             (rowFailed : bool) (rowErrorMessage : string)
| StepRunning (rowIndex : Z) (stepIndex : nat) (step : WorkflowStep)
              (rowFailed : bool) (rowErrorMessage : string)
| InterStepDelay (rowIndex : Z) (stepIndex : nat)
                 (rowFailed : bool) (rowErrorMessage : string)
| Returned.

(** What a piece of [runWorkflow] reads and writes: the shared
    [storageState], its own [state], and the effects it has had. *)
Record Exec := {
  storage : StorageState;
  state : RunState;
  out : list effect;
}.

Definition emit (e : effect) (c : Exec) : Exec :=
  {| storage := storage c; state := state c; out := out c ++ [e] |}.

Definition emits (es : list effect) (c : Exec) : Exec :=
  {| storage := storage c; state := state c; out := out c ++ es |}.

Definition set_storage (s : StorageState) (c : Exec) : Exec :=
  {| storage := s; state := state c; out := out c |}.

Definition set_state (s : RunState) (c : Exec) : Exec :=
  {| storage := storage c; state := s; out := out c |}.

Definition set_stopped (b : bool) (s : StorageState) : StorageState :=
  {| status := status s; storedRunId := storedRunId s;
     storedRowIndex := storedRowIndex s; paused := paused s; stopped := b;
     killSwitchEnabled := killSwitchEnabled s; stepSignal := stepSignal s |}.

Definition set_paused (b : bool) (s : StorageState) : StorageState :=
  {| status := status s; storedRunId := storedRunId s;
     storedRowIndex := storedRowIndex s; paused := b; stopped := stopped s;
     killSwitchEnabled := killSwitchEnabled s; stepSignal := stepSignal s |}.

Definition set_killSwitchEnabled (b : bool) (s : StorageState) : StorageState :=
  {| status := status s; storedRunId := storedRunId s;
     storedRowIndex := storedRowIndex s; paused := paused s; stopped := stopped s;
     killSwitchEnabled := b; stepSignal := stepSignal s |}.

Definition set_stepSignal (sig : option (string * Z * Z)) (s : StorageState)
    : StorageState :=
  {| status := status s; storedRunId := storedRunId s;
     storedRowIndex := storedRowIndex s; paused := paused s; stopped := stopped s;
     killSwitchEnabled := killSwitchEnabled s; stepSignal := sig |}.

Section RunWorkflow.

Variable payload : Payload.

(** [if (rowFailed) { .. } else { .. }] after the step loop; the boolean
    says whether [runWorkflow] returns there. *)
Definition rowCompletion (rowIndex : Z) (rowFailed : bool) (rowErrorMessage : string)
    (c : Exec) : Exec * bool :=
  if rowFailed then
    let c1 := set_state {| currentRowIndex := currentRowIndex (state c);
                           successCount := successCount (state c);
                           failureCount := failureCount (state c) + 1 |} c in
    let c2 := emit (sendRowResult (runId payload) rowIndex "failed"
                      (Some (if bool_decide (rowErrorMessage = EmptyString)
                             then "Row failed during execution"
                             else rowErrorMessage))) c1 in
    if negb (bestEffort (settings payload)) then
      (emit (sendStatus (runId payload) "error" (state c2) "Row failed") c2, true)
    else (c2, false)
  else
    let c1 := set_state {| currentRowIndex := currentRowIndex (state c);
                           successCount := successCount (state c) + 1;
                           failureCount := failureCount (state c) |} c in
    (emit (sendRowResult (runId payload) rowIndex "success" None) c1, false).

(** From the end of the step loop to the next iteration of the row
    loop, which is [next]. *)
Definition afterSteps (next : Exec → Exec * point) (rowIndex : Z) (rowFailed : bool)
    (rowErrorMessage : string) (c : Exec) : Exec * point :=
  let '(c1, returns) := rowCompletion rowIndex rowFailed rowErrorMessage c in
  if returns : bool then (c1, Returned) else next c1.

(** The head of the step loop, [stepIndex < workflow.steps.length] with
    [const step = workflow.steps[stepIndex]], up to the first [await]. *)
Definition stepLoop (next : Exec → Exec * point) (rowIndex : Z) (stepIndex : nat)
    (rowFailed : bool) (rowErrorMessage : string) (c : Exec) : Exec * point :=
  match workflow payload !! stepIndex with
  | Some step =>
      if stepThrough (settings payload) then
        (c, StepSignal rowIndex stepIndex step rowFailed rowErrorMessage)
      else (c, StepRunning rowIndex stepIndex step rowFailed rowErrorMessage)
  | None => afterSteps next rowIndex rowFailed rowErrorMessage c
  end.

(** After the pause loop: the second kill-switch check and the start of
    the row. *)
Definition afterPause (next : Exec → Exec * point) (rowIndex : Z) (c : Exec)
    : Exec * point :=
  if killSwitchEnabled (storage c) then
    let c1 := set_storage (set_stopped true (storage c)) c in
    (emit (sendStatus (runId payload) "stopped" (state c1) "Kill switch enabled") c1,
     Returned)
  else
    let c1 := set_state {| currentRowIndex := rowIndex;
                           successCount := successCount (state c);
                           failureCount := failureCount (state c) |} c in
    let c2 := emit (sendStatus (runId payload) "running" (state c1) "Processing row") c1 in
    stepLoop next rowIndex 0 false EmptyString c2.

(** [while (storageState.paused) { sendStatus(..); await delay(500); }] *)
Definition pauseLoop (next : Exec → Exec * point) (rowIndex : Z) (c : Exec)
    : Exec * point :=
  if paused (storage c) then
    (emit (Delay 500)
       (emit (sendStatus (runId payload) "paused" (state c) "Run paused") c),
     PauseDelay rowIndex)
  else afterPause next rowIndex c.

(** After the row loop. *)
Definition complete (c : Exec) : Exec * point :=
  let c1 := set_storage
              {| status := "complete"; storedRunId := None;
                 storedRowIndex := storedRowIndex (storage c);
                 paused := paused (storage c); stopped := stopped (storage c);
                 killSwitchEnabled := killSwitchEnabled (storage c);
                 stepSignal := stepSignal (storage c) |} c in
  (emit (sendStatus (runId payload) "complete" (state c1) "Run complete") c1, Returned).

(** The row loop, [for (let rowIndex = ..; rowIndex < rows.length;
    rowIndex += 1)], from its test up to the first [await].  [left] is
    [rows.length - rowIndex], so that the test reads [left > 0]. *)
Fixpoint rowLoop (left : nat) (rowIndex : Z) (c : Exec) : Exec * point :=
  match left with
  | O => complete c
  | S left' =>
      let c1 := if killSwitchEnabled (storage c)
                then set_storage (set_stopped true (storage c)) c else c in
      if stopped (storage c1) then
        (emit (sendStatus (runId payload) "stopped" (state c1) "Run stopped") c1, Returned)
      else pauseLoop (rowLoop left' (rowIndex + 1)) rowIndex c1
  end.

Definition rowsLeft (rowIndex : Z) : nat :=
  Z.to_nat (Z.of_nat (length (rows payload)) - rowIndex).

Definition rowLoopFrom (rowIndex : Z) (c : Exec) : Exec * point :=
  rowLoop (rowsLeft rowIndex) rowIndex c.

(** [const runWorkflow = async (payload) => ..], up to its first [await]. *)
Definition runWorkflow (storageState : StorageState) : Exec * point :=
  let c := {| storage := storageState;
              state := {| currentRowIndex := resumeFrom payload;
                          successCount := 0; failureCount := 0 |};
              out := [] |} in
  if killSwitchEnabled storageState then
    (emit (sendLog (runId payload) 0 0 "error" "Run blocked by kill switch")
       (emit (sendStatusOfStorage (runId payload) "stopped" storageState
                "Kill switch enabled") c),
     Returned)
  else
    let c1 := set_storage
                {| status := "running"; storedRunId := Some (runId payload);
                   storedRowIndex := resumeFrom payload; paused := false;
                   stopped := false;
                   killSwitchEnabled := killSwitchEnabled storageState;
                   stepSignal := stepSignal storageState |} c in
    rowLoopFrom (resumeFrom payload)
      (emit (sendStatus (runId payload) "running" (state c1) "Run started") c1).

(** What resumes a suspended call: a timer has fired ([delay], the
    interval of [waitForStepSignal], [applyDelay]), or the attempts of
    the step have settled as [attempts] says. *)
Inductive signal :=
| Elapsed
| Settled (attempts : nat → attempt).

(** [error instanceof Error ? error.message : "Unknown error"] *)
Definition errorMessageOf (error : thrown) : string :=
  match error with
  | ErrorWith message => message
  | NotAnError => "Unknown error"
  end.

(** [sendLog(runId, rowIndex, stepIndex, "info", `Step ${step.type}
    completed`)], the end of the function given to [retryWithBackoff]. *)
Definition completedLog (rowIndex : Z) (stepIndex : nat) (step : WorkflowStep) : effect :=
  sendLog (runId payload) rowIndex (Z.of_nat stepIndex) "info"
          ("Step " +:+ step_type step +:+ " completed").

(** The function given to [retryWithBackoff], [executeStep] and then
    the log of the completed step, as [withTimeout] sees it: an attempt
    that is fulfilled has sent its log; one that is rejected has sent
    nothing so far.  When it was the timer that rejected it, it may
    send its log later: [timerWins], [leftRunning] and [finish]. *)
Definition attemptStep (rowIndex : Z) (stepIndex : nat) (step : WorkflowStep)
    (attempts : nat → attempt) (n : nat) : attempt * list effect :=
  match attempts n with
  | Fulfilled => (Fulfilled, [completedLog rowIndex stepIndex step])
  | Rejected error => (Rejected error, [])
  end.

(** [const timeoutMs = step.timeoutMs ?? settings.timeoutMs] *)
Definition timeoutOf (step : WorkflowStep) : Z :=
  default (timeoutMs (settings payload)) (step_timeoutMs step).

(** The body of the step loop from [await retryWithBackoff(..)] on. *)
Definition afterStep (rowIndex : Z) (stepIndex : nat) (step : WorkflowStep)
    (rowFailed : bool) (rowErrorMessage : string) (attempts : nat → attempt)
    (c : Exec) : Exec * point :=
  let retries := default 0%nat (step_retries step) in
  let '(result, effects) :=
    retryWithBackoff (attemptStep rowIndex stepIndex step attempts) retries in
  let c1 := emits effects c in
  let delayed :=
    ApplyDelay (delayMinMs (settings payload)) (delayMaxMs (settings payload)) in
  match result with
  | None => (emit delayed c1, InterStepDelay rowIndex stepIndex rowFailed rowErrorMessage)
  | Some error =>
      let errorMessage := errorMessageOf error in
      let c2 := emit (sendLog (runId payload) rowIndex (Z.of_nat stepIndex) "error"
                        errorMessage) c1 in
      if negb (bestEffort (settings payload)) then
        afterSteps (rowLoopFrom (rowIndex + 1)) rowIndex true errorMessage c2
      else (emit delayed c2, InterStepDelay rowIndex stepIndex true errorMessage)
  end.

(** One tick of the interval of [waitForStepSignal]. *)
Definition stepSignalTick (rowIndex : Z) (stepIndex : nat) (step : WorkflowStep)
    (rowFailed : bool) (rowErrorMessage : string) (c : Exec) : Exec * point :=
  if bool_decide (stepSignal (storage c)
                  = Some (runId payload, rowIndex, Z.of_nat stepIndex)) then
    (set_storage (set_stepSignal None (storage c)) c,
     StepRunning rowIndex stepIndex step rowFailed rowErrorMessage)
  else (c, StepSignal rowIndex stepIndex step rowFailed rowErrorMessage).

(** The continuation of [runWorkflow] at [at_], resumed by [s]. *)
Definition resume (at_ : point) (s : signal) (c : Exec) : Exec * point :=
  match at_, s with
  | PauseDelay rowIndex, Elapsed =>
      pauseLoop (rowLoopFrom (rowIndex + 1)) rowIndex c
  | StepSignal rowIndex stepIndex step rowFailed rowErrorMessage, Elapsed =>
      stepSignalTick rowIndex stepIndex step rowFailed rowErrorMessage c
  | StepRunning rowIndex stepIndex step rowFailed rowErrorMessage, Settled attempts =>
      afterStep rowIndex stepIndex step rowFailed rowErrorMessage attempts c
  | InterStepDelay rowIndex stepIndex rowFailed rowErrorMessage, Elapsed =>
      stepLoop (rowLoopFrom (rowIndex + 1)) rowIndex (S stepIndex)
               rowFailed rowErrorMessage c
  | _, _ => (c, at_)
  end.

End RunWorkflow.

(** An attempt of a step that [withTimeout] has stopped waiting for:
    the timer has won the race, [retryWithBackoff] and [runWorkflow]
    have gone on, and [fn()] is still running.  It belongs to call
    [orphan_run] of [runWorkflow], and has closed over [rowIndex],
    [stepIndex] and [step]. *)
Record Orphan := {
  orphan_run : nat;
  orphan_rowIndex : Z;
  orphan_stepIndex : nat;
  orphan_step : WorkflowStep;
}.

(** The attempt that call [i], resumed at [at_] by [s], leaves
    running: with a timer ([if (!timeoutMs) return promise]), the last
    attempt of its step when [retryWithBackoff] has thrown the error of
    the timer.  (An [executeStep] that throws an error with this very
    message ends its attempt in the same way; such an orphan never
    finishes.) *)
Definition leftRunning (p : Payload) (i : nat) (at_ : point) (s : signal) : list Orphan :=
  match at_, s with
  | StepRunning rowIndex stepIndex step _ _, Settled attempts =>
      if bool_decide
           (timeoutOf p step ≠ 0
            ∧ (retryWithBackoff (attemptStep p rowIndex stepIndex step attempts)
                                (default 0%nat (step_retries step))).1
              = Some STEP_TIMEOUT)
      then [{| orphan_run := i; orphan_rowIndex := rowIndex;
               orphan_stepIndex := stepIndex; orphan_step := step |}]
      else []
  | _, _ => []
  end.

(** What the agent receives.  [OTHER] is any message of another type,
    such as the agent's own broadcasts coming back. *)
Inductive ControlMessage :=
| CONTROL_HELLO (requestId : string)
| CONTROL_PING (requestId : string)
| CONTROL_START_RUN (requestId : string) (payload : Payload)
| CONTROL_PAUSE_RUN (requestId runId : string)
| CONTROL_RESUME_RUN (requestId runId : string)
| CONTROL_STOP_RUN (requestId runId : string)
| CONTROL_KILL_SWITCH (requestId : string) (enabled : bool)
| CONTROL_STEP_NEXT (requestId runId : string) (rowIndex stepIndex : Z)
| OTHER (type : string).

(** One call of [runWorkflow]: its argument, its [state], and where it
    is suspended. *)
Record Run := {
  payload : Payload;
  run_state : RunState;
  at_ : point;
}.

(** Who had an effect: the message handler, or the call of
    [runWorkflow] with that number. *)
Inductive origin :=
| Handler
| FromRun (i : nat).

(** The userscript: the shared [storageState], the calls of
    [runWorkflow] made so far, everything that was broadcast or slept,
    in order, and the attempts that are still running though nothing
    waits for them.  The effects of a call enter the log when the call
    has reached its next [await]; [await retryWithBackoff(..)] is one
    [await]. *)
Record Agent := {
  storageState : StorageState;
  runs : list Run;
  log : list (origin * effect);
  orphans : list Orphan;
}.

Definition INITIAL_AGENT : Agent :=
  {| storageState := INITIAL_STORAGE; runs := []; log := []; orphans := [] |}.

Definition by_handler (effects : list effect) (storageState' : StorageState) (a : Agent)
    : Agent :=
  {| storageState := storageState'; runs := runs a;
     log := log a ++ map (pair Handler) effects; orphans := orphans a |}.

(** [runWorkflow(message.payload)] called by the handler: a new call,
    run up to its first [await]. *)
Definition spawn (p : Payload) (a : Agent) : Agent :=
  let '(c, at') := runWorkflow p (storageState a) in
  {| storageState := storage c;
     runs := runs a ++ [{| payload := p; run_state := state c; at_ := at' |}];
     log := log a ++ map (pair (FromRun (length (runs a)))) (out c);
     orphans := orphans a |}.

(** [const handleMessage = (message) => { switch (message.type) .. }] *)
Definition handleMessage (message : ControlMessage) (a : Agent) : Agent :=
  let s := storageState a in
  match message with
  | CONTROL_HELLO requestId =>
      by_handler [sendAck requestId "CONTROL_HELLO" true EmptyString;
                  Broadcast (AGENT_HELLO requestId)] s a
  | CONTROL_PING requestId =>
      by_handler [Broadcast (AGENT_PONG requestId)] s a
  | CONTROL_START_RUN requestId p =>
      if killSwitchEnabled s then
        by_handler [sendStatusOfStorage (runId p) "stopped" s "Kill switch enabled";
                    sendLog (runId p) 0 0 "error" "Run blocked by kill switch";
                    sendAck requestId "CONTROL_START_RUN" false "Kill switch enabled"]
                   s a
      else if bool_decide (status s = "running") then
        by_handler [sendAck requestId "CONTROL_START_RUN" false "Run already in progress"]
                   s a
      else
        spawn p (by_handler [sendAck requestId "CONTROL_START_RUN" true EmptyString] s a)
  | CONTROL_PAUSE_RUN requestId _ =>
      by_handler [sendAck requestId "CONTROL_PAUSE_RUN" true EmptyString] (set_paused true s) a
  | CONTROL_RESUME_RUN requestId _ =>
      by_handler [sendAck requestId "CONTROL_RESUME_RUN" true EmptyString] (set_paused false s) a
  | CONTROL_STOP_RUN requestId _ =>
      by_handler [sendAck requestId "CONTROL_STOP_RUN" true EmptyString] (set_stopped true s) a
  | CONTROL_KILL_SWITCH requestId enabled =>
      let s1 := set_killSwitchEnabled enabled s in
      let s2 := if killSwitchEnabled s1
                then set_paused false (set_stopped true s1) else s1 in
      by_handler [sendAck requestId "CONTROL_KILL_SWITCH" true EmptyString] s2 a
  | CONTROL_STEP_NEXT requestId runId rowIndex stepIndex =>
      by_handler [sendAck requestId "CONTROL_STEP_NEXT" true EmptyString]
                 (set_stepSignal (Some (runId, rowIndex, stepIndex)) s) a
  | OTHER _ => a
  end.

(** Call [i] of [runWorkflow] goes on after its [await].  What it has
    done up to its next [await] enters the log, and the last attempt
    of its step, if it has left it running, is an orphan from now
    on. *)
Definition wake (i : nat) (s : signal) (a : Agent) : Agent :=
  match runs a !! i with
  | None => a
  | Some r =>
      let '(c, at') :=
        resume (payload r) (at_ r) s
               {| storage := storageState a; state := run_state r; out := [] |} in
      {| storageState := storage c;
         runs := <[i := {| payload := payload r; run_state := state c; at_ := at' |}]>
                   (runs a);
         log := log a ++ map (pair (FromRun i)) (out c);
         orphans := orphans a ++ leftRunning (payload r) i (at_ r) s |}
  end.

(** While call [i] waits for [retryWithBackoff], the timer of
    [withTimeout] wins the race for an attempt that is not the last:
    [retryWithBackoff] waits and tries again, and [fn()] of the
    attempt is left running.  This takes a timer and [retries] above
    zero.  (How the attempts of the step go is told when the call goes
    on, by [Settled]; that the orphans entered here are no more than
    the attempts that are said to have timed out then is not
    checked.) *)
Definition timerWins (i : nat) (a : Agent) : Agent :=
  match runs a !! i with
  | Some r =>
      match at_ r with
      | StepRunning rowIndex stepIndex step _ _ =>
          if bool_decide (timeoutOf (payload r) step ≠ 0
                          ∧ default 0%nat (step_retries step) ≠ 0%nat)
          then {| storageState := storageState a; runs := runs a; log := log a;
                  orphans := orphans a
                             ++ [{| orphan_run := i; orphan_rowIndex := rowIndex;
                                    orphan_stepIndex := stepIndex;
                                    orphan_step := step |}] |}
          else a
      | _ => a
      end
  | None => a
  end.

(** What the rest of [fn()] does when the [executeStep] of an orphan
    is fulfilled after all: the step is logged as completed, for the
    [runId] of the call that the orphan belongs to. *)
Definition lateLog (runs : list Run) (o : Orphan) : option (origin * effect) :=
  match runs !! orphan_run o with
  | Some r =>
      Some (FromRun (orphan_run o),
            completedLog (payload r) (orphan_rowIndex o) (orphan_stepIndex o)
                         (orphan_step o))
  | None => None
  end.

(** Orphan [k] finishes, whatever its call of [runWorkflow] has done
    since, and be it over. *)
Definition finish (k : nat) (a : Agent) : Agent :=
  match orphans a !! k with
  | None => a
  | Some o =>
      match lateLog (runs a) o with
      | None => a
      | Some entry =>
          {| storageState := storageState a; runs := runs a;
             log := log a ++ [entry]; orphans := delete k (orphans a) |}
      end
  end.

(** The event loop of the page: a message is delivered to the handler,
    the promise that call [i] awaits settles, the timer wins against
    an attempt of the step that call [i] waits for, or an attempt that
    was left running finishes. *)
Inductive event :=
| Deliver (message : ControlMessage)
| Wake (i : nat) (s : signal)
| TimerWins (i : nat)
| Finish (k : nat).

Definition step (a : Agent) (e : event) : Agent :=
  match e with
  | Deliver message => handleMessage message a
  | Wake i s => wake i s a
  | TimerWins i => timerWins i a
  | Finish k => finish k a
  end.

Definition run (a : Agent) (events : list event) : Agent := foldl step a events.

(** The effects of call [i], in order. *)
Definition effectsOf (i : nat) (l : list (origin * effect)) : list effect :=
  omap (λ entry, match entry.1 with
                 | FromRun j => if bool_decide (j = i) then Some entry.2 else None
                 | Handler => None
                 end) l.

(** The row indices of the [AGENT_ROW_RESULT]s among some effects. *)
Definition rowResults (effects : list effect) : list Z :=
  omap (λ e, match e with
             | Broadcast (AGENT_ROW_RESULT _ rowIndex _ _) => Some rowIndex
             | _ => None
             end) effects.

(** The row indices of the [AGENT_ROW_RESULT]s with a given status. *)
Definition rowResultsWith (status : string) (effects : list effect) : list Z :=
  omap (λ e, match e with
             | Broadcast (AGENT_ROW_RESULT _ rowIndex status' _) =>
                 if bool_decide (status' = status) then Some rowIndex else None
             | _ => None
             end) effects.

Definition is_applyDelay (e : effect) : bool :=
  match e with ApplyDelay _ _ => true | _ => false end.

Definition is_status (status : string) (e : effect) : bool :=
  match e with
  | Broadcast (AGENT_STATUS _ status' _ _ _ _) => bool_decide (status' = status)
  | _ => false
  end.

(** An effect that is neither a row result nor a status with counts. *)
Definition plain (e : effect) : Prop :=
  match e with
  | Broadcast (AGENT_STATUS _ _ _ _ (Some _) (Some _)) => False
  | Broadcast (AGENT_ROW_RESULT _ _ _ _) => False
  | _ => True
  end.

(** The books of one call of [runWorkflow] that started at row [first],
    has the counters [st] and has had the effects [es]: the counters
    count its row results, which are for the rows [first], [first + 1],
    .. in this order, and every status it sent carries the counts of
    the row results sent before it. *)
Record accounted (first : Z) (st : RunState) (es : list effect) : Prop := {
  accounted_success :
    successCount st = Z.of_nat (length (rowResultsWith "success" es));
  accounted_failure :
    failureCount st = Z.of_nat (length (rowResultsWith "failed" es));
  accounted_total :
    length (rowResults es)
    = (length (rowResultsWith "success" es) + length (rowResultsWith "failed" es))%nat;
  accounted_rows :
    rowResults es = seqZ first (Z.of_nat (length (rowResults es)));
  accounted_statuses :
    ∀ before runId status row message s f after,
      es = before ++ Broadcast (AGENT_STATUS runId status row message (Some s) (Some f))
                  :: after →
      s = Z.of_nat (length (rowResultsWith "success" before))
      ∧ f = Z.of_nat (length (rowResultsWith "failed" before));
}.

(** The row that a suspended call is working on. *)
Definition rowOf (at' : point) : option Z :=
  match at' with
  | PauseDelay rowIndex => Some rowIndex
  | StepSignal rowIndex _ _ _ _ => Some rowIndex
  | StepRunning rowIndex _ _ _ _ => Some rowIndex
  | InterStepDelay rowIndex _ _ _ => Some rowIndex
  | Returned => None
  end.

(** A suspended call works on the first row it has not reported. *)
Definition placed (first : Z) (at' : point) (es : list effect) : Prop :=
  ∀ rowIndex, rowOf at' = Some rowIndex →
              rowIndex = first + Z.of_nat (length (rowResults es)).

(** The rows that a call has taken up: each iteration of the row loop
    that goes into its step loop says so before, with the status
    [Processing row] for its [rowIndex]. *)
Definition rowsTakenUp (es : list effect) : list Z :=
  omap (λ e, match e with
             | Broadcast (AGENT_STATUS _ _ rowIndex message _ _) =>
                 if bool_decide (message = "Processing row") then Some rowIndex else None
             | _ => None
             end) es.

(** The row whose step loop a suspended call is in. *)
Definition inStepLoop (at' : point) : option Z :=
  match at' with
  | StepSignal rowIndex _ _ _ _ => Some rowIndex
  | StepRunning rowIndex _ _ _ _ => Some rowIndex
  | InterStepDelay rowIndex _ _ _ => Some rowIndex
  | PauseDelay _ => None
  | Returned => None
  end.

(** The rows taken up are the rows reported, in this order, and after
    them the row whose step loop the call is in: an iteration that has
    left its step loop has sent its row result, one, and one that has
    not has sent none. *)
Definition reported (at' : point) (es : list effect) : Prop :=
  rowsTakenUp es
  = rowResults es ++ match inStepLoop at' with
                     | Some rowIndex => [rowIndex]
                     | None => []
                     end.

(** Every call has reported the rows whose step loop it has left. *)
Definition allReported (a : Agent) : Prop :=
  ∀ i r, runs a !! i = Some r → reported (at_ r) (effectsOf i (log a)).

(** The books of every call are in order, and no effect is booked to a
    call that was not made. *)
Definition books (a : Agent) : Prop :=
  (∀ i r, runs a !! i = Some r →
          accounted (resumeFrom (payload r)) (run_state r) (effectsOf i (log a))
          ∧ placed (resumeFrom (payload r)) (at_ r) (effectsOf i (log a)))
  ∧ ∀ i, (length (runs a) ≤ i)%nat → effectsOf i (log a) = [].

(** The sample run: one [wait_time] step, two rows, default settings. *)
Definition SAMPLE_STEP : WorkflowStep :=
  {| step_type := "wait_time"; step_retries := None; step_timeoutMs := None |}.

Definition DEFAULT_SETTINGS : RunSettings :=
  {| timeoutMs := 15000; delayMinMs := 300; delayMaxMs := 900; bestEffort := false;
     dryRun := false; stepThrough := false |}.

Definition SAMPLE_PAYLOAD : Payload :=
  {| runId := "run-1"; workflow := [SAMPLE_STEP]; rows := [∅; ∅];
     settings := DEFAULT_SETTINGS; resumeFrom := 0 |}.

(** The same run restarted after its first row, [resumeFrom = 0 + 1]. *)
Definition RESUMED_PAYLOAD : Payload :=
  {| runId := "run-1"; workflow := [SAMPLE_STEP]; rows := [∅; ∅];
     settings := DEFAULT_SETTINGS; resumeFrom := 1 |}.

Definition SUCCEEDS : signal := Settled (λ _, Fulfilled).
Definition FAILS : signal := Settled (λ _, Rejected (ErrorWith "boom")).
Definition TIMES_OUT : signal := Settled (λ _, Rejected STEP_TIMEOUT).

(** The sample run is started, paused during the step of row 0, and
    stopped while it waits in the pause loop before row 1. *)
Definition PAUSED_THEN_STOPPED : list event :=
  [Deliver (CONTROL_START_RUN "q1" SAMPLE_PAYLOAD);
   Deliver (CONTROL_PAUSE_RUN "q2" "run-1");
   Wake 0 SUCCEEDS;
   Wake 0 Elapsed;
   Deliver (CONTROL_STOP_RUN "q3" "run-1")].

(** Later it is resumed, and row 1 runs to its end. *)
Definition RESUMED_LATER : list event :=
  [Deliver (CONTROL_RESUME_RUN "q4" "run-1");
   Wake 0 Elapsed;
   Wake 0 SUCCEEDS;
   Wake 0 Elapsed].

(** What [n] rounds of the pause loop of call [i] leave in the log. *)
Definition pausePolls (i : nat) (runId : string) (st : RunState) (n : nat)
    : list (origin * effect) :=
  mjoin (replicate n [(FromRun i, sendStatus runId "paused" st "Run paused");
                      (FromRun i, Delay 500)]).

End Agent.

(** * Further parts of the code

    - [Text]: the string methods the code below calls ([trim], [split],
      [join], [includes]);
    - [App]: [prepareRowsForRun] of the controller ([App.tsx]);
    - [Csv]: [shared/csv.ts] ([parseCsv], [serializeCsv], [parseCsvLine],
      [escapeCsvValue]);
    - [TransportTrace], [Segments]: what the transport and the calls of
      [runWorkflow] keep, as predicates on their states;
    - [Controller]: the controller's [handleMessage] with
      [updateRunStatus], [appendRunLog] and [appendRowResult], and the
      ways on which the agent's [broadcast] reaches it;
    - [Editor]: [moveStep] of the workflow editor;
    - [Helpers]: [captureConsole], [applyDelay] and the fallback of
      [uuidv4]. *)

(** ** JavaScript string methods used by the controller and the agent *)

Module Text.

(** White space as [trim] and [\s] see it, for code units below 256. *)
Definition is_space (c : ascii) : bool := Similarity.is_space c.

(** [s.length === 0], that is [!s] for a string. *)
Definition is_empty (s : string) : bool :=
  match s with EmptyString => true | String _ _ => false end.

(** [s.trimStart()] *)
Fixpoint trimStart (s : string) : string :=
  match s with
  | EmptyString => EmptyString
  | String c s' => if is_space c then trimStart s' else s
  end.

(** [s.trimEnd()] *)
Fixpoint trimEnd (s : string) : string :=
  match s with
  | EmptyString => EmptyString
  | String c s' =>
      let rest := trimEnd s' in
      if is_space c && is_empty rest then EmptyString else String c rest
  end.

(** [s.trim()] *)
Definition trim (s : string) : string := trimEnd (trimStart s).

(** [s.split(sep)] for a separator of one character: the pieces between
    the separators, at least one. *)
Fixpoint split (sep : ascii) (s : string) : list string :=
  match s with
  | EmptyString => [EmptyString]
  | String c s' =>
      if bool_decide (c = sep) then EmptyString :: split sep s'
      else match split sep s' with
           | piece :: pieces => String c piece :: pieces
           | [] => [String c EmptyString]
           end
  end.

(** [pieces.join(sep)] *)
Fixpoint join (sep : string) (pieces : list string) : string :=
  match pieces with
  | [] => EmptyString
  | [piece] => piece
  | piece :: pieces' => piece +:+ sep +:+ join sep pieces'
  end.

(** [s.includes(c)] for one character. *)
Fixpoint includes (c : ascii) (s : string) : bool :=
  match s with
  | EmptyString => false
  | String c' s' => bool_decide (c' = c) || includes c s'
  end.

(** All characters of [s] satisfy [P]. *)
Fixpoint all_chars (P : ascii → bool) (s : string) : bool :=
  match s with
  | EmptyString => true
  | String c s' => P c && all_chars P s'
  end.

End Text.

(** ** The controller's preparation of rows ([app/src/App.tsx]) *)

Module App.
Local Open Scope list_scope.

(** [row.post_options ? row.post_options.split("|").map((value) =>
    value.trim()).filter(Boolean) : row.post ? [row.post] : []] *)
Definition postOptions (row : gmap string string) : list string :=
  match row !! "post_options" with
  | Some (String c s) =>
      filter (λ value, value ≠ EmptyString)
             (map Text.trim (Text.split "|" (String c s)))
  | _ =>
      match row !! "post" with
      | Some (String c s) => [String c s]
      | _ => []
      end
  end.

(** The body of [rows.forEach((row) => ..)] in [prepareRowsForRun], on
    the two arrays [processed] and [recentPosts]. *)
Definition prepareRow (state : list (gmap string string) * list string)
    (row : gmap string string) : list (gmap string string) * list string :=
  let '(processed, recentPosts) := state in
  let options := postOptions row in
  if (0 <? length options)%nat then
    let selection :=
      Similarity.pickNextPost options recentPosts Similarity.defaultThreshold in
    let nextRow := <["post_reason" := Similarity.reason selection]>
                     (<["post" := Similarity.value selection]> row) in
    let recentPosts1 := Similarity.value selection :: recentPosts in
    (processed ++ [nextRow],
     if (5 <? length recentPosts1)%nat
     then take (length recentPosts1 - 1) recentPosts1 else recentPosts1)
  else (processed ++ [row], recentPosts).

Definition prepareLoop (rows : list (gmap string string))
    : list (gmap string string) * list string :=
  foldl prepareRow ([], []) rows.

(** [const prepareRowsForRun] *)
Definition prepareRowsForRun (rows : list (gmap string string))
    : list (gmap string string) :=
  (prepareLoop rows).1.

End App.

(** ** Tabular text ([shared/csv.ts]) *)

Module Csv.
Import Schema.
Local Open Scope list_scope.

(** A row ([Record<string, string>]) is the map of the properties the
    row object has of its own.  It is an ordinary object, so a read of
    [row[key]] that finds no own property sees what [Object.prototype]
    has under these names instead, a function or an object: *)
Definition OBJECT_PROTOTYPE : list string :=
  ["constructor"; "__defineGetter__"; "__defineSetter__"; "hasOwnProperty";
   "__lookupGetter__"; "__lookupSetter__"; "isPrototypeOf"; "propertyIsEnumerable";
   "toString"; "valueOf"; "__proto__"; "toLocaleString"].

(** [row[key] = value] for a string [value]: [__proto__] is a setter of
    [Object.prototype], which ignores a string and leaves the row as it
    is; under every other name the row gets a property of its own. *)
Definition assign (key value : string) (row : gmap string string) : gmap string string :=
  if bool_decide (key = "__proto__") then row else <[key := value]> row.

(** [escapeCsvValue(row[header] ?? EmptyString)] up to the call: the field, the
    empty string for a missing one; what is inherited is no string, and
    [value.includes] of it is no function. *)
Definition field (row : gmap string string) (header : string) : completion string :=
  match row !! header with
  | Some value => Normal value
  | None =>
      if bool_decide (header ∈ OBJECT_PROTOTYPE)
      then Throw "TypeError: value.includes is not a function"
      else Normal EmptyString
  end.

Definition QUOTE : ascii := ascii_of_nat 34.
Definition COMMA : ascii := ascii_of_nat 44.
Definition LF : ascii := ascii_of_nat 10.
Definition CR : ascii := ascii_of_nat 13.

(** [value.replace(/\r\n/g, "\n")] *)
Fixpoint crlf_to_lf (value : string) : string :=
  match value with
  | EmptyString => EmptyString
  | String c rest =>
      match rest with
      | String c' rest' =>
          if bool_decide (c = CR) && bool_decide (c' = LF)
          then String LF (crlf_to_lf rest')
          else String c (crlf_to_lf rest)
      | EmptyString => String c EmptyString
      end
  end.

(** [value.replace(/\r/g, "\n")] *)
Definition cr_to_lf (value : string) : string :=
  Similarity.map_chars (λ c, if bool_decide (c = CR) then LF else c) value.

(** [const normalizeLine] *)
Definition normalizeLine (value : string) : string := cr_to_lf (crlf_to_lf value).

(** The [for] loop of [parseCsvLine] from index [i] on, [line] being
    what is left of the line from there; [line[i + 1]] is the character
    after the first one.  At the end, [values.push(current)]. *)
Fixpoint parseCsvLoop (values : list string) (current : string) (inQuotes : bool)
    (line : string) : list string :=
  match line with
  | EmptyString => values ++ [current]
  | String char rest =>
      if bool_decide (char = QUOTE) then
        match rest with
        | String next rest' =>
            if inQuotes && bool_decide (next = QUOTE)
            then parseCsvLoop values (current +:+ String QUOTE EmptyString) inQuotes rest'
            else parseCsvLoop values current (negb inQuotes) rest
        | EmptyString => parseCsvLoop values current (negb inQuotes) rest
        end
      else if bool_decide (char = COMMA) && negb inQuotes then
        parseCsvLoop (values ++ [current]) EmptyString inQuotes rest
      else parseCsvLoop values (current +:+ String char EmptyString) inQuotes rest
  end.

(** [const parseCsvLine] *)
Definition parseCsvLine (line : string) : list string :=
  parseCsvLoop [] EmptyString false line.

(** [headers.forEach((header, index) => { row[header] = values[index]
    ?? the empty string })] from [index] on. *)
Fixpoint fillRow (index : nat) (headers values : list string)
    (row : gmap string string) : gmap string string :=
  match headers with
  | [] => row
  | header :: headers' =>
      fillRow (S index) headers' values
              (assign header (default EmptyString (values !! index)) row)
  end.

Record CsvParseResult := {
  headers : list string;
  rows : list (gmap string string);
}.

(** [export const parseCsv] *)
Definition parseCsv (input : string) : CsvParseResult :=
  let normalized := Text.trim (normalizeLine input) in
  if Text.is_empty normalized then {| headers := []; rows := [] |}
  else
    let lines := Text.split LF normalized in
    let headers := parseCsvLine (default EmptyString (head lines)) in
    {| headers := headers;
       rows := map (λ line, fillRow 0 headers (parseCsvLine line) ∅) (tail lines) |}.

(** [value.replace] of every double quote by two double quotes. *)
Fixpoint doubleQuotes (value : string) : string :=
  match value with
  | EmptyString => EmptyString
  | String c rest =>
      if bool_decide (c = QUOTE) then String QUOTE (String QUOTE (doubleQuotes rest))
      else String c (doubleQuotes rest)
  end.

(** [const escapeCsvValue] *)
Definition escapeCsvValue (value : string) : string :=
  if Text.includes COMMA value || Text.includes QUOTE value || Text.includes LF value
  then String QUOTE (doubleQuotes value +:+ String QUOTE EmptyString)
  else value.

(** One line of [serializeCsv]: [values.map(escapeCsvValue).join(",")] *)
Definition serializeLine (values : list string) : string :=
  Text.join (String COMMA EmptyString) (map escapeCsvValue values).

(** [headers.map((header) => escapeCsvValue(row[header] ?? EmptyString)).join(",")] *)
Definition serializeRow (headers : list string) (row : gmap string string)
    : completion string :=
  values ← mapM (field row) headers;
  mret (serializeLine values).

(** [export const serializeCsv] *)
Definition serializeCsv (headers : list string) (rows : list (gmap string string))
    : completion string :=
  let first := serializeLine headers in
  lines ← mapM (serializeRow headers) rows;
  mret (Text.join (String LF EmptyString) (first :: lines)).

(** A row cut down to the headers, a missing field being empty: what
    [serializeCsv] writes of it. *)
Definition restrict (headers : list string) (row : gmap string string)
    : gmap string string :=
  list_to_map (map (λ header, (header, default EmptyString (row !! header))) headers).

(** What follows a value in a serialized line: nothing, or a comma
    and the next values. *)
Definition after_value (tail : string) : Prop :=
  match tail with EmptyString => True | String c _ => c ≠ QUOTE end.

(** No line break (line feed or carriage return) in [value]. *)
Definition single_line (value : string) : bool :=
  negb (Text.includes LF value) && negb (Text.includes CR value).

End Csv.

(** ** What a run of the transport shows from outside *)

Module TransportTrace.
Import Schema Transport.

(** The messages among [events] that come in and that [validateMessage]
    accepts, in their order. *)
Definition validIncoming (types : gmap string (list string)) (events : list event)
    : list unknown :=
  omap (λ e, match e with
             | Incoming message =>
                 match validateMessage types message with
                 | Normal true => Some message
                 | _ => None
                 end
             | _ => None
             end) events.

(** [sendCommand] is not called for [requestId] by [e]. *)
Definition otherCommand (requestId : string) (e : event) : Prop :=
  match e with
  | SendCommand message _ _ => extractRequestId message ≠ Some requestId
  | _ => True
  end.

(** Nothing is pending for [requestId], and [log] is what
    [dispatchWithRetry] has sent for it. *)
Definition silent (requestId : string) (log : list (Z * unknown)) (t : ACPTransport)
    : Prop :=
  pending t !! requestId = None ∧ sentFor requestId (sent t) = log.

End TransportTrace.

(** ** What a piece of [runWorkflow] leaves of the shared state *)

Module Segments.
Import Agent.
Local Open Scope list_scope.

(** No [AGENT_STATUS] with status [running]: the run neither starts
    nor goes on to a row. *)
Definition notRunning (e : effect) : Prop := is_status "running" e = false.

Section Segment.

(** The state in which a call of [runWorkflow] goes on after an
    [await], whether the kill switch or the stop flag is to end it
    ([halting]), and what is expected of its effects ([quiet]). *)
Variable c0 : Exec.
Variable halting : bool.
Variable quiet : effect → Prop.

(** A call of [runWorkflow] only reads [paused] and
    [killSwitchEnabled], and it never clears [stopped]. *)
Record sameFlags (c : Exec) : Prop := {
  same_kill : killSwitchEnabled (storage c) = killSwitchEnabled (storage c0);
  same_paused : paused (storage c) = paused (storage c0);
  same_stopped : stopped (storage c0) = true → stopped (storage c) = true;
}.

Record sameRun (c : Exec) : Prop := {
  same_status : status (storage c) = status (storage c0);
  same_runId : storedRunId (storage c) = storedRunId (storage c0);
}.

(** What was there before is still there, and what was added is
    [quiet]. *)
Definition quietOut (c : Exec) : Prop :=
  ∃ new, out c = out c0 ++ new ∧ Forall quiet new.

Definition pre (c : Exec) : Prop := sameFlags c ∧ sameRun c ∧ quietOut c.

(** Where the call is at its next [await], or at its end: [status]
    and [runId] are written at the end only. *)
Definition post_pause (r : Exec * point) : Prop :=
  sameFlags r.1 ∧ (r.2 ≠ Returned → sameRun r.1) ∧ quietOut r.1.

(** The same for a call that is not in the pause loop: when halting,
    it does not get there. *)
Definition post_row (r : Exec * point) : Prop :=
  post_pause r ∧ (halting = true → ∀ rowIndex, r.2 ≠ PauseDelay rowIndex).

End Segment.

(** [quiet] allows what a call of [runWorkflow] for [p] does, but for
    a [running] status when the call is halting. *)
Record allows (p : Payload) (halting : bool) (quiet : effect → Prop) : Prop := {
  allows_status :
    ∀ status st message,
      status ≠ "running" → quiet (sendStatus (runId p) status st message);
  allows_running :
    halting = false → ∀ st message, quiet (sendStatus (runId p) "running" st message);
  allows_result :
    ∀ rowIndex status error, quiet (sendRowResult (runId p) rowIndex status error);
  allows_log :
    ∀ rowIndex stepIndex level message,
      quiet (sendLog (runId p) rowIndex stepIndex level message);
  allows_delay : ∀ ms, quiet (Delay ms);
  allows_applyDelay : ∀ min max, quiet (ApplyDelay min max);
}.

(** A halting call does not report [running]. *)
Definition haltingQuiet (halting : bool) (e : effect) : Prop :=
  halting = true → notRunning e.

(** A broadcast about a run is about the run [runId]. *)
Definition mentions (runId : string) (e : effect) : Prop :=
  match e with
  | Broadcast (AGENT_STATUS runId' _ _ _ _ _) => runId' = runId
  | Broadcast (AGENT_LOG runId' _ _ _ _) => runId' = runId
  | Broadcast (AGENT_ROW_RESULT runId' _ _ _) => runId' = runId
  | _ => True
  end.

(** Every call of [runWorkflow] but [i] has returned. *)
Definition othersReturned (i : nat) (a : Agent) : Prop :=
  ∀ j r, runs a !! j = Some r → j ≠ i → at_ r = Returned.

(** At most one call of [runWorkflow] has not returned, and while
    there is one, [storageState] says so. *)
Definition oneRun (a : Agent) : Prop :=
  ∀ i r, runs a !! i = Some r → at_ r ≠ Returned →
         status (storageState a) = "running"
         ∧ storedRunId (storageState a) = Some (runId (payload r))
         ∧ othersReturned i a.

(** Call [i] of [runWorkflow] has returned, or it is under way outside
    the pause loop with the stop flag set. *)
Definition stopping (i : nat) (a : Agent) : Prop :=
  ∃ r, runs a !! i = Some r
       ∧ (at_ r = Returned
          ∨ ((∀ rowIndex, at_ r ≠ PauseDelay rowIndex)
             ∧ stopped (storageState a) = true
             ∧ status (storageState a) = "running"
             ∧ othersReturned i a)).

(** What [retryWithBackoff] does when the attempts from [n] on fail
    but the one [count] later: the effects of each attempt, and the
    [delay(backoff)] between two of them. *)
Fixpoint attemptsThrough (fn : nat → attempt * list effect) (n count : nat)
    : list effect :=
  match count with
  | O => (fn n).2
  | S count' => (fn n).2 ++ Delay (backoff n) :: attemptsThrough fn (S n) count'
  end.

Definition is_rejected (outcome : attempt) : Prop :=
  match outcome with Rejected _ => True | Fulfilled => False end.

(** An entry of the log that no call of [runWorkflow] has made: the
    message handler's, or the log of its step as completed that an
    attempt sends which was left running, one of [orphans], and
    finishes. *)
Definition late (runs : list Run) (orphans : list Orphan) (entry : origin * effect)
    : Prop :=
  entry.1 = Handler ∨ ∃ o, o ∈ orphans ∧ lateLog runs o = Some entry.

(** The kill switch is not released by [e]. *)
Definition keepsKillSwitch (e : event) : Prop :=
  match e with
  | Deliver (CONTROL_KILL_SWITCH _ enabled) => enabled = true
  | _ => True
  end.

End Segments.

(** ** The controller's books of a run ([App.tsx], [state.ts]) *)

Module Controller.
Import Agent.
Local Open Scope Z_scope.
Local Open Scope list_scope.

(** An entry of [run.logs]; its [id] and [timestamp] are left out. *)
Record RunLog := {
  log_runId : string;
  log_rowIndex : Z;
  log_stepIndex : Z;
  log_level : string;
  log_message : string;
}.

(** An entry of [run.rowResults], without artifacts and duration. *)
Record RowResult := {
  result_runId : string;
  result_rowIndex : Z;
  result_status : string;
  result_error : option string;
}.

(** A [Run] of the controller.  [jobId], [settings] and [createdAt]
    are never written and [updatedAt] is a time stamp; they are left
    out.  The counts are what the last [AGENT_STATUS] carried, and a
    status that carries none leaves them [undefined]. *)
Record Run := {
  id : string;
  status : string;
  currentRowIndex : Z;
  currentStepIndex : Z;
  lastCompletedRow : Z;
  successCount : option Z;
  failureCount : option Z;
  logs : list RunLog;
  rowResults : list RowResult;
}.

(** [export const createRun], for the [id] that [uuidv4()] gives. *)
Definition createRun (id : string) : Run :=
  {| id := id; status := "idle"; currentRowIndex := 0; currentStepIndex := 0;
     lastCompletedRow := -1; successCount := Some 0; failureCount := Some 0;
     logs := []; rowResults := [] |}.

(** [const updateRunStatus]: [state.runs.map(..)] *)
Definition updateRunStatus (runs : list Run) (runId status' : string)
    (currentRowIndex' : Z) (successCount' failureCount' : option Z) : list Run :=
  map (λ run,
         if bool_decide (id run ≠ runId) then run
         else
           let rowChanged := bool_decide (currentRowIndex run ≠ currentRowIndex') in
           {| id := id run; status := status'; currentRowIndex := currentRowIndex';
              currentStepIndex := if rowChanged then 0 else currentStepIndex run;
              lastCompletedRow := lastCompletedRow run;
              successCount := successCount'; failureCount := failureCount';
              logs := logs run; rowResults := rowResults run |})
      runs.

(** [const appendRunLog] *)
Definition appendRunLog (runs : list Run) (runId : string) (rowIndex stepIndex : Z)
    (level message : string) : list Run :=
  map (λ run,
         if bool_decide (id run ≠ runId) then run
         else
           let logEntry := {| log_runId := runId; log_rowIndex := rowIndex;
                              log_stepIndex := stepIndex; log_level := level;
                              log_message := message |} in
           {| id := id run; status := status run;
              currentRowIndex := currentRowIndex run;
              currentStepIndex := stepIndex + 1;
              lastCompletedRow := lastCompletedRow run;
              successCount := successCount run; failureCount := failureCount run;
              logs := logEntry :: logs run; rowResults := rowResults run |})
      runs.

(** [const appendRowResult] *)
Definition appendRowResult (runs : list Run) (runId : string) (rowIndex : Z)
    (status' : string) (error : option string) : list Run :=
  map (λ run,
         if bool_decide (id run ≠ runId) then run
         else
           let rowResult := {| result_runId := runId; result_rowIndex := rowIndex;
                               result_status := status'; result_error := error |} in
           {| id := id run; status := status run;
              currentRowIndex := currentRowIndex run;
              currentStepIndex := currentStepIndex run;
              lastCompletedRow := Z.max (lastCompletedRow run) rowIndex;
              successCount := successCount run; failureCount := failureCount run;
              logs := logs run; rowResults := rowResult :: rowResults run |})
      runs.

(** [const handleMessage], as far as [state.runs] goes: the rest of
    the state is handed on as it is, and [AGENT_HELLO] and [AGENT_PONG]
    only set the connection. *)
Definition handleMessage (runs : list Run) (message : AgentMessage) : list Run :=
  match message with
  | AGENT_STATUS runId status' currentRowIndex' _ successCount' failureCount' =>
      updateRunStatus runs runId status' currentRowIndex' successCount' failureCount'
  | AGENT_LOG runId rowIndex stepIndex level message' =>
      appendRunLog runs runId rowIndex stepIndex level message'
  | AGENT_ROW_RESULT runId rowIndex status' error =>
      appendRowResult runs runId rowIndex status' error
  | _ => runs
  end.

(** The messages that the agent has broadcast, in order. *)
Definition broadcasts (l : list (origin * effect)) : list AgentMessage :=
  omap (λ entry, match entry.2 with
                 | Broadcast message => Some message
                 | _ => None
                 end) l.

(** The rows of the [AGENT_ROW_RESULT]s for [runId] among [messages]. *)
Definition resultsFor (runId : string) (messages : list AgentMessage) : list Z :=
  omap (λ message, match message with
                   | AGENT_ROW_RESULT runId' rowIndex _ _ =>
                       if bool_decide (runId' = runId) then Some rowIndex else None
                   | _ => None
                   end) messages.

(** How what the agent broadcasts reaches the controller.  [broadcast]
    posts every message in three ways, on a [BroadcastChannel], with
    [window.postMessage] and through [localStorage], and the
    controller's transport listens to all three.  A way that reaches
    the controller hands on what was posted in the order in which it
    was posted; what comes over one way and what comes over another
    are in no order.  [merged streams l]: the messages [l] arrive when
    the ways carry [streams]. *)
Inductive merged {A : Type} : list (list A) → list A → Prop :=
| merged_nil streams :
    Forall (λ stream, stream = []) streams → merged streams []
| merged_cons streams k x stream l :
    streams !! k = Some (x :: stream) →
    merged (<[k := stream]> streams) l →
    merged streams (x :: l).

(** What [handleMessage] is handed of [messages]: for each way that
    reaches the controller, what [validateMessage] accepts of the
    messages as they come over it ([handleIncoming] drops the rest). *)
Definition arrives (ways : list (AgentMessage → bool)) (messages arrived : list AgentMessage)
    : Prop :=
  merged ((λ valid, filter (λ message, valid message = true) messages) <$> ways) arrived.

Definition isResultFor (runId : string) (message : AgentMessage) : bool :=
  match message with
  | AGENT_ROW_RESULT runId' _ _ _ => bool_decide (runId' = runId)
  | _ => false
  end.

(** Every effect in the log is that of a call of [runWorkflow] and
    about the run of that call, or the handler's and no row result. *)
Definition attributed (a : Agent) : Prop :=
  Forall (λ entry,
            match entry.1 with
            | FromRun j =>
                ∃ r, Agent.runs a !! j = Some r
                     ∧ Segments.mentions (runId (payload r)) entry.2
            | Handler => Agent.rowResults [entry.2] = []
            end) (log a).

End Controller.

(** ** The workflow editor's step order ([App.tsx], [WorkflowEditor]) *)

Module Editor.
Local Open Scope list_scope.

Section Steps.

(** A step of the workflow being edited, with its [id]. *)
Context {Step : Type} (id : Step → string).

(** [steps.findIndex((step) => step.id === stepId)], with the step
    found; [None] for [-1]. *)
Fixpoint findIndex (steps : list Step) (stepId : string) : option (nat * Step) :=
  match steps with
  | [] => None
  | step :: steps' =>
      if bool_decide (id step = stepId) then Some (0%nat, step)
      else match findIndex steps' stepId with
           | Some (index, found) => Some (S index, found)
           | None => None
           end
  end.

(** [steps.splice(index, 0, item)] for [index] up to the length. *)
Definition spliceIn (index : nat) (item : Step) (steps : list Step) : list Step :=
  take index steps ++ item :: drop index steps.

(** [const moveStep]: the new order of the steps handed to
    [updateWorkflow], or [None] where it returns without an update. *)
Definition moveStep (steps : list Step) (stepId : string) (direction : Z)
    : option (list Step) :=
  match findIndex steps stepId with
  | None => None
  | Some (index, removed) =>
      let nextIndex := (Z.of_nat index + direction)%Z in
      if (nextIndex <? 0)%Z || (Z.of_nat (length steps) <=? nextIndex)%Z then None
      else Some (spliceIn (Z.to_nat nextIndex) removed (delete index steps))
  end.

End Steps.

End Editor.

(** ** Small helpers of the agent and of the controller *)

Module Helpers.
Local Open Scope list_scope.

(** [const captureConsole], for the entry it formats: pushed, and the
    oldest entry shifted out beyond 50. *)
Definition captureConsole (consoleBuffer : list string) (entry : string) : list string :=
  let pushed := consoleBuffer ++ [entry] in
  if (50 <? length pushed)%nat then drop 1 pushed else pushed.

(** [Math.floor] of an exact number. *)
Definition floor (q : Q) : Z := (Qnum q / Z.pos (Qden q))%Z.

(** [const applyDelay = async (min, max)], for what [Math.random()]
    returns: the [delay] it awaits, if any.  The bounds are whole
    numbers of milliseconds, and the arithmetic is taken as exact. *)
Definition applyDelay (min max : Z) (random : Q) : list Agent.effect :=
  let delayMs := floor (inject_Z min + random * inject_Z (max - min)) in
  if (0 <? delayMs)%Z then [Agent.Delay delayMs] else [].

(** [value.toString(16)] for a value from 0 to 15. *)
Definition hexDigit (value : nat) : ascii :=
  match value with
  | 0 => "0" | 1 => "1" | 2 => "2" | 3 => "3" | 4 => "4" | 5 => "5" | 6 => "6"
  | 7 => "7" | 8 => "8" | 9 => "9" | 10 => "a" | 11 => "b" | 12 => "c" | 13 => "d"
  | 14 => "e" | _ => "f"
  end%char%nat.

(** The fallback of [uuidv4], taken where [crypto.randomUUID] is
    missing: [template.replace(/[xy]/g, ..)], the [k]th replacement
    drawing [rand k] for [(Math.random() * 16) | 0]. *)
Fixpoint fillTemplate (template : string) (rand : nat → nat) (k : nat) : string :=
  match template with
  | EmptyString => EmptyString
  | String char template' =>
      if bool_decide (char = "x"%char) then
        String (hexDigit (rand k)) (fillTemplate template' rand (S k))
      else if bool_decide (char = "y"%char) then
        String (hexDigit (Nat.lor (Nat.land (rand k) 3) 8))
               (fillTemplate template' rand (S k))
      else String char (fillTemplate template' rand k)
  end.

Definition UUID_TEMPLATE : string := "xxxxxxxx-xxxx-4xxx-yxxx-xxxxxxxxxxxx".

Definition uuidv4 (rand : nat → nat) : string := fillTemplate UUID_TEMPLATE rand 0.

Definition is_hex (c : ascii) : bool :=
  Similarity.is_digit c
  || ((97 <=? nat_of_ascii c)%nat && (nat_of_ascii c <=? 102)%nat).

(** The variant digit of a version 4 UUID. *)
Definition is_variant (c : ascii) : bool := bool_decide (c ∈ ["8"; "9"; "a"; "b"]%char).

(** [s] is [template] with a hexadecimal digit for every [x] and a
    variant digit for every [y]. *)
Fixpoint shaped (template s : string) : bool :=
  match template, s with
  | EmptyString, EmptyString => true
  | String t template', String c s' =>
      (if bool_decide (t = "x"%char) then is_hex c
       else if bool_decide (t = "y"%char) then is_variant c
       else bool_decide (c = t))
      && shaped template' s'
  | _, _ => false
  end.

(** [s[n]] *)
Fixpoint nth_char (n : nat) (s : string) {struct s} : option ascii :=
  match s with
  | EmptyString => None
  | String c s' => match n with O => Some c | S n' => nth_char n' s' end
  end.

End Helpers.

(** * Properties *)

(** ** The similarity selector *)

Section SimilarityFacts.
Import Similarity.

Lemma intersection_length (A B : gset string) :
  length (intersection A B) = size (A ∩ B).
Proof.
  unfold intersection, size, set_size. simpl.
  apply Permutation_length, NoDup_Permutation.
  - apply NoDup_filter, NoDup_elements.
  - apply NoDup_elements.
  - intros x. rewrite list_elem_of_filter, !elem_of_elements, elem_of_intersection.
    tauto.
Qed.

Lemma union_is_union (A B : gset string) : union A B = A ∪ B.
Proof.
  unfold union. rewrite list_to_set_app_L, !list_to_set_elements_L. done.
Qed.

Lemma size_zero_iff (A : gset string) : (size A =? 0)%nat = true ↔ A = ∅.
Proof.
  rewrite Nat.eqb_eq. split.
  - intros H. by apply leibniz_equiv, size_empty_inv.
  - intros ->. apply size_empty.
Qed.

Lemma ratio_self (n : nat) : (0 < n)%nat → Q2Qc (Z.of_nat n # Pos.of_nat n) = 1%Qc.
Proof.
  intros Hn. apply Qc_is_canon. simpl. rewrite Qred_correct.
  unfold Qeq. simpl. lia.
Qed.

Lemma ratio_bounds (i u : nat) :
  (0 < u)%nat → (i ≤ u)%nat →
  (0 ≤ Q2Qc (Z.of_nat i # Pos.of_nat u))%Qc ∧ (Q2Qc (Z.of_nat i # Pos.of_nat u) ≤ 1)%Qc.
Proof.
  intros Hu Hi. unfold Qcle. simpl. rewrite !Qred_correct.
  unfold Qle. simpl. lia.
Qed.

Lemma js_div_pos (i u : nat) :
  (0 < u)%nat → js_div i u = Num (Q2Qc (Z.of_nat i # Pos.of_nat u)).
Proof. destruct u; [lia | done]. Qed.

Lemma jaccardSimilarity_unfold (a b : string) :
  jaccardSimilarity a b =
    if bool_decide (tokenSet a = ∅ ∧ tokenSet b = ∅) then Num 1
    else js_div (size (tokenSet a ∩ tokenSet b)) (size (tokenSet a ∪ tokenSet b)).
Proof.
  unfold jaccardSimilarity. cbv zeta.
  rewrite intersection_length, union_is_union.
  destruct (size (tokenSet a) =? 0)%nat eqn:Ha, (size (tokenSet b) =? 0)%nat eqn:Hb;
    simpl; case_bool_decide as H; try done.
  - exfalso. apply H. by rewrite <- !size_zero_iff.
  - destruct H as [_ H]. apply size_zero_iff in H. congruence.
  - destruct H as [H _]. apply size_zero_iff in H. congruence.
  - destruct H as [H _]. apply size_zero_iff in H. congruence.
Qed.

(** Claim C9.  The similarity of two strings does not depend on their
    order, and every string, the empty one included, has similarity 1
    with itself. *)
Theorem jaccardSimilarity_symmetric (a b : string) :
  jaccardSimilarity a b = jaccardSimilarity b a
  ∧ jaccardSimilarity a a = Num 1
  ∧ jaccardSimilarity EmptyString EmptyString = Num 1.
Proof.
  assert (Hself : ∀ s, jaccardSimilarity s s = Num 1).
  { intros s. rewrite jaccardSimilarity_unfold. case_bool_decide as H; [done|].
    rewrite (idemp_L (∩)), (idemp_L (∪)).
    assert (0 < size (tokenSet s))%nat as Hpos.
    { destruct (size (tokenSet s)) eqn:E; [|lia].
      apply size_empty_inv in E. apply leibniz_equiv in E. tauto. }
    rewrite js_div_pos by done. f_equal. by apply ratio_self. }
  split; [|split; apply Hself].
  rewrite !jaccardSimilarity_unfold.
  rewrite (comm_L (∩) (tokenSet a)), (comm_L (∪) (tokenSet a)).
  repeat case_bool_decide; try done; tauto.
Qed.

(** Claim C10.  [jaccardSimilarity] always yields a number between 0
    and 1, never [NaN] or [Infinity]: either both token sets are empty
    and the result is the 1 of the early return, or the union is not
    empty, the intersection is no larger than the union, and the result
    is their quotient. *)
Theorem jaccardSimilarity_unit_interval (a b : string) :
  ∃ q, jaccardSimilarity a b = Num q ∧ (0 ≤ q)%Qc ∧ (q ≤ 1)%Qc
       ∧ ((size (tokenSet a) = 0%nat ∧ size (tokenSet b) = 0%nat ∧ q = 1%Qc)
          ∨ ((0 < size (union (tokenSet a) (tokenSet b)))%nat
             ∧ (length (intersection (tokenSet a) (tokenSet b))
                ≤ size (union (tokenSet a) (tokenSet b)))%nat
             ∧ q = Q2Qc (Z.of_nat (length (intersection (tokenSet a) (tokenSet b)))
                         # Pos.of_nat (size (union (tokenSet a) (tokenSet b)))))).
Proof.
  rewrite jaccardSimilarity_unfold, intersection_length, union_is_union.
  case_bool_decide as H.
  - exists 1%Qc. destruct H as [-> ->]. repeat split; try done. left. by rewrite size_empty.
  - assert (0 < size (tokenSet a ∪ tokenSet b))%nat as Hpos.
    { destruct (size (tokenSet a ∪ tokenSet b)) eqn:E; [|lia].
      apply size_empty_inv in E. exfalso. apply H. set_solver. }
    assert (size (tokenSet a ∩ tokenSet b) ≤ size (tokenSet a ∪ tokenSet b))%nat as Hle.
    { apply subseteq_size. set_solver. }
    rewrite js_div_pos by done.
    destruct (ratio_bounds _ _ Hpos Hle) as [H0 H1].
    eexists. repeat split; try done. by right.
Qed.

Lemma isTooSimilar_spec (candidate : string) (recent : list string) (threshold : Qc) :
  isTooSimilar candidate recent threshold = true
  ↔ ∃ item q, item ∈ recent ∧ jaccardSimilarity candidate item = Num q
              ∧ (threshold ≤ q)%Qc.
Proof.
  unfold isTooSimilar. rewrite existsb_exists. split.
  - intros (item & Hin & Hge). apply list_elem_of_In in Hin.
    destruct (jaccardSimilarity_unit_interval candidate item) as (q & Hq & _).
    exists item, q. rewrite Hq in Hge. simpl in Hge.
    apply bool_decide_eq_true in Hge. done.
  - intros (item & q & Hin & Hq & Hle). exists item. split; [by apply list_elem_of_In|].
    rewrite Hq. simpl. by apply bool_decide_eq_true.
Qed.

Lemma skip_test_spec (candidate : string) (recent : list string) (threshold : Qc) :
  bool_decide (head recent = Some candidate) || isTooSimilar candidate recent threshold
  = true ↔ skipped recent threshold candidate.
Proof.
  unfold skipped. rewrite orb_true_iff, bool_decide_eq_true, isTooSimilar_spec. done.
Qed.

Lemma pickLoop_spec (pool recent : list string) (threshold : Qc) (rest : list string) :
  (∃ (before : list string) (candidate : string) (after : list string),
      rest = (before ++ candidate :: after)%list
      ∧ Forall (skipped recent threshold) before
      ∧ ¬ skipped recent threshold candidate
      ∧ pickLoop pool recent threshold rest
        = {| value := candidate; reason := "selected" |})
  ∨ (Forall (skipped recent threshold) rest
     ∧ pickLoop pool recent threshold rest
       = {| value := default EmptyString (head pool); reason := fallback_reason |}).
Proof.
  induction rest as [|c rest IH]; simpl.
  - right. split; [constructor | done].
  - destruct (bool_decide (head recent = Some c) || isTooSimilar c recent threshold)
      eqn:Hskip.
    + assert (skipped recent threshold c) as Hs by by apply skip_test_spec.
      assert (pickLoop pool recent threshold (c :: rest)
              = pickLoop pool recent threshold rest) as Heq.
      { simpl. apply orb_true_iff in Hskip as [-> | Hsim]; [done|].
        rewrite Hsim. by case_bool_decide. }
      simpl in Heq. rewrite Heq.
      destruct IH as [(before & cand & after & -> & Hb & Hn & Hr) | [Hall Hr]].
      * left. exists (c :: before), cand, after. repeat split; try done.
        by constructor.
      * right. split; [by constructor | done].
    + assert (¬ skipped recent threshold c) as Hs.
      { rewrite <- skip_test_spec. by rewrite Hskip. }
      apply orb_false_iff in Hskip as [-> ->].
      left. exists [], c, rest. repeat split; try done.
Qed.


End SimilarityFacts.

(** The examples of the test suite ([tests/similarity.test.ts]). *)
Example jaccardSimilarity_hello :
  Similarity.jaccardSimilarity "Hello world" "Hello world!!" = Similarity.Num 1.
Proof. vm_compute. f_equal. by apply Qc_is_canon. Qed.

Example pickNextPost_different_news :
  Similarity.pickNextPost ["A quick update"; "A quick update"; "Different news"]
    ["A quick update"] Similarity.defaultThreshold
  = {| Similarity.value := "Different news"; Similarity.reason := "selected" |}.
Proof. by vm_compute. Qed.

(** ** The message validator *)

Section SchemaFacts.
Import Schema.

Lemma baseTypeKeys_spec (types : gmap string (list string)) (type : string) :
  type ∈ baseTypeKeys types ↔ is_Some (types !! type).
Proof.
  unfold baseTypeKeys. rewrite list_elem_of_fmap. split.
  - intros ([k keys] & -> & Hin). apply elem_of_map_to_list in Hin. by exists keys.
  - intros [keys Hk]. exists (type, keys). split; [done|].
    by apply elem_of_map_to_list.
Qed.

Lemma hasKeys_object (payload : gmap string unknown) (keys : list string) :
  ∃ b, hasKeys (Object payload) keys = Normal b
       ∧ (b = true ↔ ∀ key, key ∈ keys → is_Some (payload !! key)).
Proof.
  induction keys as [|key keys (b & Hb & IH)]; simpl.
  - exists true. split; [done|]. split; [|done]. intros _ key Hin. by apply elem_of_nil in Hin.
  - unfold mbind, completion_bind. case_bool_decide as Hkey.
    + exists b. split; [done|]. rewrite IH. split.
      * intros Hall k Hin. apply elem_of_cons in Hin as [-> | Hin]; auto.
      * intros Hall k Hin. apply Hall. by right.
    + exists false. split; [done|]. split; [done|].
      intros Hall. exfalso. apply Hkey, Hall. by left.
Qed.

(** Claim C8.  [validateMessage] returns [true] exactly on the messages
    that are [valid]: an object whose [type] is a string of the table,
    whose [payload] is an object, and whose payload has every key the
    table requires for that type.  On every other value it returns
    [false]; it never throws. *)
Theorem validateMessage_iff_valid (types : gmap string (list string))
    (message : unknown) :
  (validateMessage types message = Normal true ↔ valid types message)
  ∧ (validateMessage types message = Normal true
     ∨ validateMessage types message = Normal false).
Proof.
  assert (Hno : ∀ P : Prop, ¬ P →
            (Normal false = Normal true ↔ P)
            ∧ (@Normal bool false = Normal true ∨ @Normal bool false = Normal false)).
  { intros P HP. split; [split; [done | tauto] | by right]. }
  unfold valid.
  destruct message as [| |b|n|s|props]; try (apply Hno; intros (?&?&?&?&?&?); done).
  unfold validateMessage. simpl.
  unfold mbind, completion_bind.
  destruct (props !! "type") as [type|] eqn:Htype; simpl;
    [|apply Hno; intros (?&?&?&?&?&?&?); congruence].
  destruct type as [| |b|n|type|o];
    try (apply Hno; intros (?&?&?&?&?&?&?); congruence).
  case_bool_decide as Hknown; simpl.
  2:{ apply Hno. intros (?&?&?&?&?&?&?&?&?). simplify_eq.
      apply Hknown, baseTypeKeys_spec. eauto. }
  apply baseTypeKeys_spec in Hknown as [requiredKeys Hreq].
  destruct (props !! "payload") as [payload|] eqn:Hpayload; simpl.
  2:{ apply Hno. intros (?&?&?&?&?&?&?&?&?). congruence. }
  destruct payload as [| |b|n|s|payload]; simpl;
    try (apply Hno; intros (?&?&?&?&?&?&?&?&?); congruence).
  unfold requiredKeysOf. rewrite Hreq.
  destruct (hasKeys_object payload requiredKeys) as (b & -> & Hb).
  split.
  - split.
    + intros [= ->]. exists props, type, payload, requiredKeys.
      repeat split; try done. by apply Hb.
    + intros (?&?&?&?&?&?&?&?&Hall). simplify_eq. f_equal. by apply Hb.
  - destruct b; auto.
Qed.

(** The two cases of the test suite ([tests/schema.test.ts]). *)
Example validateMessage_accepts :
  validateMessage SAMPLE_TYPES PAUSE_WITHOUT_ID = Normal true.
Proof. vm_compute. reflexivity. Qed.

Example validateMessage_rejects :
  validateMessage SAMPLE_TYPES
    (Object {[ "type" := Str "CONTROL_PAUSE_RUN"; "payload" := Object ∅ ]})
  = Normal false.
Proof. vm_compute. reflexivity. Qed.

End SchemaFacts.

(** ** The command transport *)

Section TransportFacts.
Import Schema Transport.
Local Open Scope Z_scope.
Local Open Scope list_scope.

Variable types : gmap string (list string).

Lemma pending_size_ge_1 (t : ACPTransport) :
  (1 <=? size (pending t))%nat = true ↔ pending t ≠ ∅.
Proof.
  rewrite Nat.leb_le, <- map_size_non_empty_iff. lia.
Qed.

Lemma sendCommand_busy (t : ACPTransport) (message : unknown) (timeoutMs retries : Z) :
  pending t ≠ ∅ → (sendCommand message timeoutMs retries t).1 = t.
Proof.
  intros Hpending. apply pending_size_ge_1 in Hpending. unfold sendCommand.
  destruct (extractRequestId message) as [requestId|]; [|done].
  case_bool_decide; [done|]. by rewrite Hpending.
Qed.

(** Claim C2, as amended.  While a command is pending, [sendCommand]
    returns a rejected promise and leaves the transport as it is: nothing
    is sent, no timer is set, nothing is queued, and [this.pending] is
    unchanged.  The error is the conflict error when the message carries
    a non-empty [requestId], and the missing-[requestId] error when it
    does not, since that check comes first. *)
Theorem sendCommand_while_pending (t : ACPTransport) (message : unknown)
    (timeoutMs retries : Z) :
  pending t ≠ ∅ →
  sendCommand message timeoutMs retries t
  = (t, PromiseReject (if carriesRequestId message then IN_FLIGHT else NO_REQUEST_ID)).
Proof.
  intros Hpending. apply pending_size_ge_1 in Hpending.
  unfold sendCommand, carriesRequestId.
  destruct (extractRequestId message) as [requestId|]; [|done].
  case_bool_decide; [done|]. by rewrite Hpending.
Qed.

Lemma sendCommand_while_pending_witness :
  let t := (sendCommand (PING "r1") 4000 2 EMPTY_TRANSPORT).1 in
  pending t ≠ ∅
  ∧ sendCommand (PING "r2") 4000 2 t = (t, PromiseReject IN_FLIGHT).
Proof.
  cbv zeta.
  assert (pending (sendCommand (PING "r1") 4000 2 EMPTY_TRANSPORT).1 ≠ ∅) as H.
  { apply pending_size_ge_1. vm_compute. reflexivity. }
  split; [exact H|].
  exact (sendCommand_while_pending _ (PING "r2") 4000 2 H).
Defined.

(** Claim C2 as stated fails: with a command pending, a message without
    a [requestId] is rejected with the missing-[requestId] error, not
    with the conflict error. *)
Lemma missing_requestId_checked_before_conflict :
  let t := (sendCommand (PING "r1") 4000 2 EMPTY_TRANSPORT).1 in
  pending t ≠ ∅
  ∧ (sendCommand PAUSE_WITHOUT_ID 4000 2 t).2 = PromiseReject NO_REQUEST_ID
  ∧ (sendCommand PAUSE_WITHOUT_ID 4000 2 t).2 ≠ PromiseReject IN_FLIGHT.
Proof.
  cbv zeta. split; [apply pending_size_ge_1; vm_compute; reflexivity|].
  assert ((sendCommand PAUSE_WITHOUT_ID 4000 2
             (sendCommand (PING "r1") 4000 2 EMPTY_TRANSPORT).1).2
          = PromiseReject NO_REQUEST_ID) as -> by (vm_compute; reflexivity).
  split; [done|]. intros [=].
Qed.

(** *** Timers *)

Lemma earliest_None (ts : list (Z * string)) : earliest ts = None → ts = [].
Proof.
  destruct ts as [|timer ts]; [done|]. simpl.
  destruct (earliest ts) as [other|]; [|done]. by case_match.
Qed.

Lemma earliest_Some (ts : list (Z * string)) (timer : Z * string) :
  earliest ts = Some timer → timer ∈ ts ∧ Forall (λ other, timer.1 ≤ other.1) ts.
Proof.
  revert timer. induction ts as [|first ts IH]; intros timer; [done|]. simpl.
  destruct (earliest ts) as [other|] eqn:Hother.
  - destruct (IH other eq_refl) as [Hin Hall].
    destruct (Z.ltb_spec other.1 first.1); intros [= <-].
    + split; [by right|]. constructor; [lia | done].
    + split; [by left|]. constructor; [lia|].
      rewrite Forall_forall in *. intros x Hx. specialize (Hall x Hx). lia.
  - intros [= <-]. apply earliest_None in Hother as ->.
    split; [by left|]. by repeat constructor.
Qed.

Lemma remove_first_Forall (P : Z * string → Prop) (timer : Z * string)
    (ts : list (Z * string)) :
  Forall P ts → Forall P (remove_first timer ts).
Proof.
  induction 1 as [|other ts Hother Hall IH]; simpl; [done|].
  case_bool_decide; [done | by constructor].
Qed.

Lemma remove_first_length (timer : Z * string) (ts : list (Z * string)) :
  timer ∈ ts → S (length (remove_first timer ts)) = length ts.
Proof.
  induction ts as [|other ts IH]; intros Hin; [by apply elem_of_nil in Hin|].
  simpl. case_bool_decide as Heq; [done|].
  apply elem_of_cons in Hin as [-> | Hin]; [done|]. simpl. by rewrite IH.
Qed.

Lemma timersFor_remove_first (requestId : string) (timer : Z * string)
    (ts : list (Z * string)) :
  timersFor requestId (remove_first timer ts)
  = if bool_decide (timer.2 = requestId)
    then remove_first timer (timersFor requestId ts)
    else timersFor requestId ts.
Proof.
  unfold timersFor. induction ts as [|other ts IH]; simpl; [by case_bool_decide|].
  destruct (decide (other = timer)) as [-> | Hne].
  - rewrite bool_decide_eq_true_2 by done. rewrite filter_cons.
    case_bool_decide as Hid.
    + rewrite decide_True by done. simpl. by rewrite bool_decide_eq_true_2.
    + by rewrite decide_False.
  - rewrite bool_decide_eq_false_2 by done. rewrite !filter_cons, IH.
    destruct (decide (other.2 = requestId)); case_bool_decide; try done.
    simpl. by rewrite bool_decide_eq_false_2.
Qed.

Lemma timersFor_app (requestId : string) (ts ts' : list (Z * string)) :
  timersFor requestId (ts ++ ts') = timersFor requestId ts ++ timersFor requestId ts'.
Proof. apply filter_app. Qed.

Lemma timersFor_elem (requestId : string) (due : Z) (ts : list (Z * string)) :
  (due, requestId) ∈ ts → (due, requestId) ∈ timersFor requestId ts.
Proof. intros Hin. by apply list_elem_of_filter. Qed.

(** *** What always holds *)

Lemma send_sound (cause : option string) (message : unknown) (t : ACPTransport) :
  sound t → sound (send cause message t).
Proof. intros [H1 H2 H3]. by constructor. Qed.

Lemma setTimeout_sound (requestId : string) (ms : Z) (t : ACPTransport) :
  sound t → sound (setTimeout requestId ms t).
Proof.
  intros [H1 H2 H3]. constructor; simpl; try done.
  apply Forall_app. split; [done|]. repeat constructor. simpl. lia.
Qed.

Lemma dispatchWithRetry_sound (requestId : string) (t : ACPTransport) :
  sound t → sound (dispatchWithRetry requestId t).
Proof.
  intros H. unfold dispatchWithRetry. destruct (pending t !! requestId); [|done].
  by apply setTimeout_sound, send_sound.
Qed.

Lemma onTimeout_sound (requestId : string) (t : ACPTransport) :
  sound t → sound (onTimeout requestId t).
Proof.
  intros H. unfold onTimeout.
  destruct (pending t !! requestId) as [current|] eqn:Hcurrent; [|done].
  destruct H as [H1 H2 [Hnone | (key & entry & Hp & Hlt & Hopen)]].
  { rewrite Hnone in Hcurrent. done. }
  rewrite Hp in Hcurrent. apply lookup_singleton_Some in Hcurrent as [<- <-].
  case_match.
  - unfold settle. simpl. rewrite Hopen. constructor; simpl; try done.
    + intros id Hid. rewrite lookup_insert_ne by lia. by apply H2.
    + left. rewrite Hp. apply delete_singleton_eq.
  - apply dispatchWithRetry_sound. constructor; simpl; try done.
    right. eexists key, _. rewrite Hp, insert_singleton_eq. done.
Qed.

Lemma tick_sound (t : ACPTransport) : sound t → sound (tick t).
Proof.
  intros H. unfold tick. destruct (earliest (timers t)) as [[due requestId]|] eqn:He;
    [|done].
  apply onTimeout_sound. apply earliest_Some in He as [Hin Hmin].
  destruct H as [H1 H2 H3]. constructor; simpl; try done.
  apply remove_first_Forall. rewrite Forall_forall in *.
  intros timer Htimer. specialize (H1 _ Htimer). specialize (Hmin _ Htimer).
  simpl in *. lia.
Qed.

Lemma handleIncoming_sound (message : unknown) (t : ACPTransport) :
  sound t → sound (handleIncoming types message t).
Proof.
  intros H. unfold handleIncoming.
  destruct (validateMessage types message) as [[|]|]; try done.
  assert (∀ t1, sound t1 →
            sound {| pending := pending t1; timers := timers t1; now := now t1;
                     nextPromise := nextPromise t1; settled := settled t1;
                     sent := sent t1; heard := heard t1 ++ [message] |}) as Hheard.
  { intros t1 [H1 H2 H3]. by constructor. }
  apply Hheard. destruct (is_ack message); [|done].
  destruct (ackRequestId message) as [requestId|]; [|done].
  destruct (pending t !! requestId) as [entry|] eqn:Hentry; [|done].
  destruct H as [H1 H2 [Hnone | (key & entry' & Hp & Hlt & Hopen)]].
  { rewrite Hnone in Hentry. done. }
  rewrite Hp in Hentry. apply lookup_singleton_Some in Hentry as [<- <-].
  unfold settle. simpl. rewrite Hopen. constructor; simpl; try done.
  - intros id Hid. rewrite lookup_insert_ne by lia. by apply H2.
  - left. rewrite Hp. apply delete_singleton_eq.
Qed.

Lemma sendCommand_sound (message : unknown) (timeoutMs retries : Z) (t : ACPTransport) :
  sound t → sound (sendCommand message timeoutMs retries t).1.
Proof.
  intros H. unfold sendCommand.
  destruct (extractRequestId message) as [requestId|]; [|done].
  case_bool_decide; [done|].
  destruct (1 <=? size (pending t))%nat eqn:Hsize; [done|]. simpl.
  assert (pending t = ∅) as Hempty.
  { apply map_size_empty_iff. apply Nat.leb_gt in Hsize. lia. }
  apply dispatchWithRetry_sound. destruct H as [H1 H2 H3].
  constructor; simpl; try done.
  - intros id Hid. apply H2. lia.
  - right. eexists requestId, _. rewrite Hempty, insert_empty. simpl.
    split; [done|]. simpl. split; [lia|]. by apply H2.
Qed.

Lemma step_sound (t : ACPTransport) (e : event) : sound t → sound (step types t e).
Proof.
  destruct e; simpl.
  - apply tick_sound.
  - apply handleIncoming_sound.
  - apply sendCommand_sound.
  - apply send_sound.
Qed.

Lemma run_sound (t : ACPTransport) (events : list event) :
  sound t → sound (run types t events).
Proof.
  revert t. induction events as [|e events IH]; intros t H; [done|].
  simpl. by apply IH, step_sound.
Qed.

Lemma EMPTY_TRANSPORT_sound : sound EMPTY_TRANSPORT.
Proof. constructor; simpl; [constructor | done | by left]. Qed.

Lemma advance_sound (t : ACPTransport) (due : Z) (requestId : string) :
  earliest (timers t) = Some (due, requestId) → sound t →
  sound {| pending := pending t;
           timers := remove_first (due, requestId) (timers t);
           now := Z.max (now t) due; nextPromise := nextPromise t;
           settled := settled t; sent := sent t; heard := heard t |}.
Proof.
  intros He [H1 H2 H3]. apply earliest_Some in He as [Hin Hmin].
  constructor; simpl; try done.
  apply remove_first_Forall. rewrite Forall_forall in *.
  intros timer Htimer. specialize (H1 _ Htimer). specialize (Hmin _ Htimer).
  simpl in *. lia.
Qed.

(** *** One timer for each pending command *)

Lemma step_oneTimer (requestId : string) (t : ACPTransport) (e : event) :
  ¬ acknowledges types requestId e → sound t →
  oneTimer requestId t → oneTimer requestId (step types t e).
Proof.
  intros Hack Hsound Hone. unfold oneTimer in *. destruct e as [|incoming|m T n|m]; simpl.
  - (* the next timer fires *)
    unfold tick. destruct (earliest (timers t)) as [[due key]|] eqn:He; [|done].
    pose proof (earliest_Some _ _ He) as [Hin _].
    unfold onTimeout. simpl.
    destruct (pending t !! key) as [current|] eqn:Hcurrent; simpl.
    + destruct Hsound as [_ _ [Hnone | (key' & entry & Hp & _ & Hopen)]].
      { rewrite Hnone in Hcurrent. done. }
      rewrite Hp in Hcurrent, Hone.
      apply lookup_singleton_Some in Hcurrent as [<- <-].
      assert (length (timersFor requestId (remove_first (due, key') (timers t)))
              = 0%nat) as Hlen.
      { rewrite timersFor_remove_first. simpl.
        destruct (decide (key' = requestId)) as [-> | Hkey].
        - rewrite bool_decide_eq_true_2 by done.
          rewrite lookup_singleton_eq in Hone. simpl in Hone.
          pose proof (remove_first_length (due, requestId)
                        (timersFor requestId (timers t))
                        (timersFor_elem _ _ _ Hin)). lia.
        - rewrite bool_decide_eq_false_2 by done.
          rewrite lookup_singleton_ne in Hone by done. done. }
      destruct (retriesLeft entry <=? 0) eqn:Hleft.
      * unfold settle. simpl. rewrite Hopen. simpl.
        rewrite Hp, delete_singleton_eq, lookup_empty. simpl. done.
      * unfold dispatchWithRetry. simpl.
        rewrite Hp, insert_singleton_eq, lookup_singleton_eq. simpl.
        rewrite timersFor_app, length_app, Hlen. unfold timersFor.
        rewrite filter_cons, filter_nil. simpl.
        destruct (decide (key' = requestId)) as [-> | Hne].
        -- by rewrite lookup_singleton_eq.
        -- by rewrite lookup_singleton_ne.
    + rewrite timersFor_remove_first. simpl.
      destruct (decide (key = requestId)) as [-> | Hkey];
        [|by rewrite bool_decide_eq_false_2].
      rewrite Hcurrent in Hone. simpl in Hone.
      pose proof (timersFor_elem _ _ _ Hin) as Hin'.
      destruct (timersFor requestId (timers t)); [by apply elem_of_nil in Hin' | done].
  - (* a message comes in *)
    unfold handleIncoming. simpl in Hack.
    destruct (validateMessage types incoming) as [[|]|]; try done. simpl.
    destruct (is_ack incoming); [|done].
    destruct (ackRequestId incoming) as [key|]; [|done].
    destruct (pending t !! key) as [entry|] eqn:Hentry; [|done].
    assert (key ≠ requestId) as Hne by (intros ->; tauto).
    unfold settle, set_pending. simpl.
    destruct (settled t !! promise entry); simpl; by rewrite lookup_delete_ne.
  - (* another command *)
    unfold sendCommand. destruct (extractRequestId m) as [key|]; [|done].
    destruct (bool_decide (key = EmptyString)); [done|].
    destruct (1 <=? size (pending t))%nat eqn:Hsize; [done|]. simpl.
    assert (pending t = ∅) as Hempty.
    { apply map_size_empty_iff. apply Nat.leb_gt in Hsize. lia. }
    rewrite Hempty, lookup_empty in Hone. simpl in Hone.
    unfold dispatchWithRetry. simpl. rewrite lookup_insert_eq. simpl.
    rewrite timersFor_app, length_app, Hone. unfold timersFor.
    rewrite filter_cons, filter_nil. simpl. rewrite Hempty, insert_empty.
    destruct (decide (key = requestId)) as [-> | Hne].
    + by rewrite lookup_singleton_eq.
    + by rewrite lookup_singleton_ne.
  - done.
Qed.

Lemma run_oneTimer (requestId : string) (t : ACPTransport) (events : list event) :
  Forall (λ e, ¬ acknowledges types requestId e) events → sound t →
  oneTimer requestId t → oneTimer requestId (run types t events).
Proof.
  revert t. induction events as [|e events IH]; intros t Hack Hsound Hone; [done|].
  apply Forall_cons in Hack as [He Hack]. simpl.
  apply IH; [done | by apply step_sound | by apply step_oneTimer].
Qed.

Lemma EMPTY_TRANSPORT_oneTimer (requestId : string) : oneTimer requestId EMPTY_TRANSPORT.
Proof. done. Qed.

(** *** One command without acknowledgment *)

Lemma sentFor_app (requestId : string) (l l' : list (Z * option string * unknown)) :
  sentFor requestId (l ++ l') = sentFor requestId l ++ sentFor requestId l'.
Proof. apply omap_app. Qed.

Lemma transmissions_snoc (message : unknown) (start period : Z) (count : nat) :
  transmissions message start period (S count)
  = transmissions message start period count
    ++ [(start + Z.of_nat count * period, message)].
Proof.
  revert start. induction count as [|count IH]; intros start.
  - simpl. do 2 f_equal. lia.
  - change (transmissions message start period (S (S count)))
      with ((start, message) :: transmissions message (start + period) period (S count)).
    rewrite IH.
    replace (start + period + Z.of_nat count * period)
      with (start + Z.of_nat (S count) * period) by lia.
    done.
Qed.

Section CommandFacts.

Local Arguments transmissions : simpl never.

Variables (requestId : string) (command : unknown) (wait retries : Z).
Variables (id : nat) (start : Z) (earlier : list (Z * unknown)).
Hypothesis wait_nonneg : 0 ≤ wait.

Abbreviation waiting := (waiting requestId command wait retries id start earlier).
Abbreviation rejected := (rejected requestId command wait retries id start earlier).

Lemma waiting_pending_lookup (k : nat) (t : ACPTransport) (key : string)
    (entry : PendingEntry) :
  waiting k t → pending t !! key = Some entry →
  key = requestId ∧ entry = entryAfter command wait retries id k.
Proof.
  intros (_ & Hp & _) Hkey. rewrite Hp in Hkey.
  by apply lookup_singleton_Some in Hkey as [<- <-].
Qed.

Lemma tick_waiting (k : nat) (t : ACPTransport) :
  Z.of_nat k ≤ retries → waiting k t →
  (waiting k (tick t) ∧ (length (timers (tick t)) < length (timers t))%nat)
  ∨ (Z.of_nat k < retries ∧ waiting (S k) (tick t))
  ∨ (Z.of_nat k = retries ∧ rejected (tick t)).
Proof.
  intros Hk Hw. pose proof Hw as (Hsound & Hp & Hopen & Hid & Hsent & Htimers).
  unfold tick. destruct (earliest (timers t)) as [[due key]|] eqn:He.
  2:{ apply earliest_None in He. rewrite He in Htimers. done. }
  pose proof (earliest_Some _ _ He) as [Hin _].
  pose proof (advance_sound _ _ _ He Hsound) as Hsound'.
  pose proof (onTimeout_sound key _ Hsound') as Hsound''.
  revert Hsound''. unfold onTimeout. simpl. rewrite Hp.
  destruct (decide (key = requestId)) as [-> | Hne].
  - (* the timer of the command *)
    assert (due = start + (Z.of_nat k + 1) * wait) as Hdue.
    { apply timersFor_elem in Hin. rewrite Htimers in Hin.
      apply list_elem_of_singleton in Hin. congruence. }
    assert (now t ≤ due) as Hnow.
    { destruct Hsound as [Hall _ _]. rewrite Forall_forall in Hall.
      apply (Hall _ Hin). }
    assert (timersFor requestId (remove_first (due, requestId) (timers t)) = [])
      as Hgone.
    { rewrite timersFor_remove_first, Htimers. simpl.
      rewrite bool_decide_eq_true_2 by done. simpl.
      rewrite bool_decide_eq_true_2 by congruence. done. }
    rewrite lookup_singleton_eq. simpl.
    destruct (retries - Z.of_nat k <=? 0) eqn:Hleft.
    + (* no retries left *)
      apply Z.leb_le in Hleft. assert (Z.of_nat k = retries) as Hkr by lia.
      rewrite Hkr in Hdue. intros Hsound''. right. right.
      split; [lia|]. revert Hsound''.
      unfold Transport.rejected, settle. simpl. rewrite Hopen. simpl. intros _.
      rewrite lookup_insert_eq, delete_singleton_eq.
      split; [do 2 f_equal; lia|]. split; [by intros ? ? ?|]. split; [done|].
      split; [lia|]. exists []. split; [|done].
      rewrite Hsent, app_nil_r. by replace (Z.to_nat retries) with k by lia.
    + (* one more attempt *)
      apply Z.leb_gt in Hleft. intros Hsound''. right. left.
      split; [lia|]. split; [done|]. revert Hsound''.
      unfold dispatchWithRetry. simpl. rewrite lookup_insert_eq. simpl. intros _.
      rewrite insert_singleton_eq. split.
      { f_equal. unfold entryAfter. f_equal. lia. }
      split; [done|]. split; [done|]. split.
      * rewrite sentFor_app, Hsent, (transmissions_snoc _ _ _ (S k)), <- app_assoc.
        do 2 f_equal. unfold sentFor. simpl.
        rewrite bool_decide_eq_true_2 by done. simpl. do 2 f_equal. lia.
      * rewrite timersFor_app, Hgone. unfold timersFor.
        rewrite filter_cons, filter_nil. simpl. rewrite decide_True by done.
        do 2 f_equal. lia.
  - (* a timer left over from another command *)
    rewrite lookup_singleton_ne by done. intros Hsound''. left. split.
    + split; [done|]. simpl. repeat split; try done.
      rewrite timersFor_remove_first. by rewrite bool_decide_eq_false_2.
    + simpl. pose proof (remove_first_length _ _ Hin). lia.
Qed.

Lemma step_waiting (k : nat) (t : ACPTransport) (e : event) :
  ¬ acknowledges types requestId e → Z.of_nat k ≤ retries → waiting k t →
  waiting k (step types t e)
  ∨ (Z.of_nat k < retries ∧ waiting (S k) (step types t e))
  ∨ (Z.of_nat k = retries ∧ rejected (step types t e)).
Proof.
  intros Hack Hk Hw. destruct e as [|incoming|m T n|m]; simpl.
  - destruct (tick_waiting k t Hk Hw) as [[? _] | H]; auto.
  - left. pose proof Hw as (Hsound & Hp & Hopen & Hid & Hsent & Htimers).
    pose proof (handleIncoming_sound incoming t Hsound) as Hsound'.
    revert Hsound'. unfold handleIncoming. simpl in Hack.
    destruct (validateMessage types incoming) as [[|]|]; try done.
    destruct (is_ack incoming).
    2:{ intros Hsound'. by split. }
    destruct (ackRequestId incoming) as [key|].
    2:{ intros Hsound'. by split. }
    destruct (pending t !! key) as [entry|] eqn:Hentry.
    2:{ intros Hsound'. by split. }
    destruct (waiting_pending_lookup _ _ _ _ Hw Hentry) as [-> _]. tauto.
  - left. rewrite sendCommand_busy; [done|].
    destruct Hw as (_ & Hp & _). rewrite Hp. apply insert_non_empty.
  - left. destruct Hw as (Hsound & Hp & Hopen & Hid & Hsent & Htimers).
    split; [by apply send_sound|]. simpl. repeat split; try done.
    rewrite sentFor_app, Hsent. simpl. by rewrite app_nil_r.
Qed.

Lemma send_rejected (cause : option string) (message : unknown) (t : ACPTransport) :
  rejected t → rejected (send cause message t).
Proof.
  intros (Hset & Hpend & Hid & Hnow & later & Hsent & Hlater).
  repeat split; try done. simpl.
  exists (later ++ sentFor requestId [(now t, cause, message)]). split.
  - rewrite sentFor_app, Hsent, <- !app_assoc. done.
  - apply Forall_app. split; [done|]. unfold sentFor. simpl.
    destruct (bool_decide (cause = Some requestId)); by repeat constructor.
Qed.

Lemma setTimeout_rejected (key : string) (ms : Z) (t : ACPTransport) :
  rejected t → rejected (setTimeout key ms t).
Proof. intros (Hset & Hpend & Hid & Hnow & Hlater). by repeat split. Qed.

Lemma dispatchWithRetry_rejected (key : string) (t : ACPTransport) :
  rejected t → rejected (dispatchWithRetry key t).
Proof.
  intros H. unfold dispatchWithRetry. destruct (pending t !! key); [|done].
  by apply setTimeout_rejected, send_rejected.
Qed.

Lemma settle_rejected (other : nat) (s : settlement) (t : ACPTransport) :
  other ≠ id → rejected t → rejected (settle other s t).
Proof.
  intros Hne (Hset & Hpend & Hid & Hnow & Hlater). unfold settle.
  destruct (settled t !! other); [by repeat split|].
  repeat split; try done. simpl. by rewrite lookup_insert_ne.
Qed.

Lemma set_pending_rejected (p : gmap string PendingEntry) (t : ACPTransport) :
  (∀ key entry, p !! key = Some entry → promise entry ≠ id) →
  rejected t → rejected (set_pending p t).
Proof. intros Hp (Hset & Hpend & Hid & Hnow & Hlater). by repeat split. Qed.

Lemma onTimeout_rejected (key : string) (t : ACPTransport) :
  rejected t → rejected (onTimeout key t).
Proof.
  intros H. pose proof H as (_ & Hpend & _). unfold onTimeout.
  destruct (pending t !! key) as [current|] eqn:Hcurrent; [|done].
  pose proof (Hpend _ _ Hcurrent) as Hne. case_match.
  - apply settle_rejected; [done|]. apply set_pending_rejected; [|done].
    intros key' entry Hentry. apply lookup_delete_Some in Hentry as [_ Hentry]. eauto.
  - apply dispatchWithRetry_rejected, set_pending_rejected; [|done].
    intros key' entry Hentry. apply lookup_insert_Some in Hentry as [[_ <-] | [_ Hentry]];
      [done | eauto].
Qed.

Lemma tick_rejected (t : ACPTransport) : rejected t → rejected (tick t).
Proof.
  intros H. unfold tick. destruct (earliest (timers t)) as [[due key]|]; [|done].
  apply onTimeout_rejected.
  destruct H as (Hset & Hpend & Hid & Hnow & Hlater). repeat split; try done.
  simpl. lia.
Qed.

Lemma handleIncoming_rejected (incoming : unknown) (t : ACPTransport) :
  rejected t → rejected (handleIncoming types incoming t).
Proof.
  intros H. unfold handleIncoming.
  destruct (validateMessage types incoming) as [[|]|]; try done.
  assert (∀ t1, rejected t1 →
            rejected {| pending := pending t1; timers := timers t1; now := now t1;
                        nextPromise := nextPromise t1; settled := settled t1;
                        sent := sent t1; heard := heard t1 ++ [incoming] |}) as Hheard.
  { intros t1 (Hset & Hpend & Hid & Hnow & Hlater). by repeat split. }
  apply Hheard. destruct (is_ack incoming); [|done].
  destruct (ackRequestId incoming) as [key|]; [|done].
  destruct (pending t !! key) as [entry|] eqn:Hentry; [|done].
  pose proof H as (_ & Hpend & _).
  apply settle_rejected; [by eapply Hpend|]. apply set_pending_rejected; [|done].
  intros key' entry' Hentry'. apply lookup_delete_Some in Hentry' as [_ Hentry']. eauto.
Qed.

Lemma sendCommand_rejected (m : unknown) (T n : Z) (t : ACPTransport) :
  rejected t → rejected (sendCommand m T n t).1.
Proof.
  intros H. unfold sendCommand. destruct (extractRequestId m) as [key|]; [|done].
  case_bool_decide; [done|]. case_match; [done|]. simpl.
  apply dispatchWithRetry_rejected.
  destruct H as (Hset & Hpend & Hid & Hnow & Hlater). repeat split; try done; simpl.
  - intros key' entry Hentry.
    apply lookup_insert_Some in Hentry as [[_ <-] | [_ Hentry]]; [simpl; lia | eauto].
  - lia.
Qed.

Lemma step_rejected (t : ACPTransport) (e : event) :
  rejected t → rejected (step types t e).
Proof.
  destruct e; simpl.
  - apply tick_rejected.
  - apply handleIncoming_rejected.
  - apply sendCommand_rejected.
  - apply send_rejected.
Qed.

Lemma run_rejected (t : ACPTransport) (events : list event) :
  rejected t → rejected (run types t events).
Proof.
  revert t. induction events as [|e events IH]; intros t H; [done|].
  simpl. by apply IH, step_rejected.
Qed.

Lemma run_waiting (k : nat) (t : ACPTransport) (events : list event) :
  Forall (λ e, ¬ acknowledges types requestId e) events →
  Z.of_nat k ≤ retries → waiting k t →
  (∃ k', Z.of_nat k' ≤ retries ∧ waiting k' (run types t events))
  ∨ rejected (run types t events).
Proof.
  revert k t. induction events as [|e events IH]; intros k t Hack Hk Hw.
  { left. by exists k. }
  apply Forall_cons in Hack as [He Hack]. simpl.
  destruct (step_waiting k t e He Hk Hw) as [Hw' | [[Hlt Hw'] | [_ Hr]]].
  - by apply (IH k).
  - apply (IH (S k)); [done | lia | done].
  - right. by apply run_rejected.
Qed.

Lemma run_ticks_app (t : ACPTransport) (a b : nat) :
  run types t (replicate (a + b) Tick)
  = run types (run types t (replicate a Tick)) (replicate b Tick).
Proof. unfold run. by rewrite replicate_add, foldl_app. Qed.

Lemma ticks_next_attempt (k : nat) (t : ACPTransport) :
  Z.of_nat k ≤ retries → waiting k t →
  ∃ ticks,
    (Z.of_nat k < retries ∧ waiting (S k) (run types t (replicate ticks Tick)))
    ∨ rejected (run types t (replicate ticks Tick)).
Proof.
  intros Hk. remember (length (timers t)) as size eqn:Hsize.
  revert t Hsize. induction (lt_wf size) as [size _ IH]. intros t -> Hw.
  destruct (tick_waiting k t Hk Hw) as [[Hw' Hlt] | [[Hlt Hw'] | [_ Hr]]].
  - destruct (IH _ Hlt (tick t) eq_refl Hw') as [ticks Hticks].
    exists (S ticks). done.
  - exists 1%nat. left. done.
  - exists 1%nat. right. done.
Qed.

Lemma ticks_rejected (k : nat) (t : ACPTransport) :
  Z.of_nat k ≤ retries → waiting k t →
  ∃ ticks, rejected (run types t (replicate ticks Tick)).
Proof.
  remember (Z.to_nat (retries - Z.of_nat k)) as left eqn:Hleft.
  revert k t Hleft. induction left as [|left IH]; intros k t Hleft Hk Hw.
  - destruct (ticks_next_attempt k t Hk Hw) as [ticks [[Hlt _] | Hr]]; [lia|].
    by exists ticks.
  - destruct (ticks_next_attempt k t Hk Hw) as [ticks [[Hlt Hw'] | Hr]];
      [|by exists ticks].
    destruct (IH (S k) _ ltac:(lia) ltac:(lia) Hw') as [more Hmore].
    exists (ticks + more)%nat. by rewrite run_ticks_app.
Qed.

End CommandFacts.

Lemma sendCommand_waiting (requestId : string) (command : unknown) (wait retries : Z)
    (t : ACPTransport) :
  0 ≤ wait → extractRequestId command = Some requestId → requestId ≠ EmptyString →
  sound t → oneTimer requestId t → pending t = ∅ →
  (sendCommand command wait retries t).2 = NewPromise (nextPromise t)
  ∧ waiting requestId command wait retries (nextPromise t) (now t)
            (sentFor requestId (sent t)) 0 (sendCommand command wait retries t).1.
Proof.
  intros Hwait Hid Hne Hsound Hone Hempty.
  pose proof (sendCommand_sound command wait retries t Hsound) as Hsound'.
  revert Hsound'. unfold sendCommand. rewrite Hid.
  rewrite bool_decide_eq_false_2 by done.
  rewrite Hempty, map_size_empty. simpl.
  unfold dispatchWithRetry. simpl. rewrite lookup_insert_eq. simpl.
  intros Hsound'. split; [done|]. split; [done|]. simpl.
  unfold oneTimer in Hone. rewrite Hempty, lookup_empty in Hone. simpl in Hone.
  apply nil_length_inv in Hone.
  split; [by rewrite insert_empty; unfold entryAfter; rewrite Z.sub_0_r|].
  split; [by apply Hsound; lia|]. split; [lia|]. split.
  - rewrite sentFor_app. unfold sentFor at 2. simpl.
    by rewrite bool_decide_eq_true_2.
  - rewrite timersFor_app, Hone. unfold timersFor.
    rewrite filter_cons, filter_nil. simpl. rewrite decide_True by done.
    do 2 f_equal. lia.
Qed.

(** Claim C1.  A command with a non-empty [requestId] is sent with
    [sendCommand(command, timeoutMs, retries)] on a transport with
    nothing pending, and no acknowledgment for that [requestId] comes in,
    before or after; anything else may happen.  Then the call returns a
    new promise, and from then on the command is either [waiting] or
    [rejected]: as long as the promise is open, timer [k] of at most
    [retries] has expired, the same message has been sent [k + 1] times,
    once every [timeoutMs], and the next timer is set; the promise is
    never settled but by the rejection "No ACK received from agent.",
    which comes at [(retries + 1) * timeoutMs] after the call, after
    exactly [retries + 1] sends, and removes the pending entry.  Letting
    the timers fire does lead to the rejection. *)
Theorem sendCommand_without_ack (before after : list event) (command : unknown)
    (requestId : string) (timeoutMs retries : Z) :
  extractRequestId command = Some requestId → requestId ≠ EmptyString →
  0 ≤ retries → 0 ≤ timeoutMs →
  Forall (λ e, ¬ acknowledges types requestId e) (before ++ after) →
  pending (run types EMPTY_TRANSPORT before) = ∅ →
  let t0 := run types EMPTY_TRANSPORT before in
  let id := nextPromise t0 in
  let t := run types (sendCommand command timeoutMs retries t0).1 after in
  (sendCommand command timeoutMs retries t0).2 = NewPromise id
  ∧ ((∃ k : nat,
        Z.of_nat k ≤ retries
        ∧ waiting requestId command timeoutMs retries id (now t0)
                  (sentFor requestId (sent t0)) k t)
     ∨ rejected requestId command timeoutMs retries id (now t0)
                (sentFor requestId (sent t0)) t)
  ∧ ∃ ticks : nat,
      rejected requestId command timeoutMs retries id (now t0)
               (sentFor requestId (sent t0)) (run types t (replicate ticks Tick)).
Proof.
  intros Hid Hne Hretries Hwait Hack Hempty t0 id t.
  apply Forall_app in Hack as [Hbefore Hafter].
  assert (sound t0) as Hsound by apply run_sound, EMPTY_TRANSPORT_sound.
  assert (oneTimer requestId t0) as Hone.
  { apply run_oneTimer; [done | apply EMPTY_TRANSPORT_sound | done]. }
  destruct (sendCommand_waiting requestId command timeoutMs retries t0
              Hwait Hid Hne Hsound Hone Hempty) as [Hreturned Hw].
  split; [done|].
  destruct (run_waiting requestId command timeoutMs retries id (now t0)
              (sentFor requestId (sent t0)) Hwait 0 _ after Hafter ltac:(lia) Hw)
    as [(k & Hk & Hw') | Hr].
  - split; [left; by exists k|].
    by apply (ticks_rejected requestId command timeoutMs retries id (now t0)
                (sentFor requestId (sent t0)) Hwait k).
  - split; [by right|]. by exists 0%nat.
Qed.

End TransportFacts.

Import Schema.

Lemma sendCommand_without_ack_witness :
  let before := [Transport.Send (PING "r0")] in
  let after := [Transport.Tick; Transport.Incoming (ACK "r0"); Transport.Tick] in
  (Transport.extractRequestId (PING "r1") = Some "r1" ∧ "r1" ≠ EmptyString
   ∧ (0 ≤ 2)%Z ∧ (0 ≤ 4000)%Z
   ∧ Forall (λ e, ¬ Transport.acknowledges SAMPLE_TYPES "r1" e) (before ++ after)
   ∧ Transport.pending (Transport.run SAMPLE_TYPES Transport.EMPTY_TRANSPORT before) = ∅)
  ∧ ∃ ticks : nat,
      Transport.rejected "r1" (PING "r1") 4000 2 0 0 []
        (Transport.run SAMPLE_TYPES
           (Transport.run SAMPLE_TYPES
              (Transport.sendCommand (PING "r1") 4000 2
                 (Transport.run SAMPLE_TYPES Transport.EMPTY_TRANSPORT before)).1
              after)
           (replicate ticks Transport.Tick)).
Proof.
  cbv zeta.
  assert (Forall (λ e, ¬ Transport.acknowledges SAMPLE_TYPES "r1" e)
            ([Transport.Send (PING "r0")]
             ++ [Transport.Tick; Transport.Incoming (ACK "r0"); Transport.Tick]))
    as Hack.
  { repeat constructor; simpl; try tauto. intros (_ & _ & H). vm_compute in H.
    discriminate H. }
  assert ("r1" ≠ EmptyString) as Hne by discriminate.
  assert (Transport.pending
            (Transport.run SAMPLE_TYPES Transport.EMPTY_TRANSPORT
               [Transport.Send (PING "r0")]) = ∅) as Hempty by reflexivity.
  split; [repeat split; solve [reflexivity | lia | assumption]|].
  exact (proj2 (proj2 (sendCommand_without_ack SAMPLE_TYPES
                         [Transport.Send (PING "r0")]
                         [Transport.Tick; Transport.Incoming (ACK "r0"); Transport.Tick]
                         (PING "r1") "r1" 4000 2 eq_refl Hne
                         ltac:(lia) ltac:(lia) Hack Hempty))).
Defined.

(** The default call, [sendCommand(message)], on a fresh transport that
    hears nothing: three sends, 4000 ms apart, and the rejection at
    12000 ms. *)
Example sendCommand_default_timeline :
  let t := Transport.run SAMPLE_TYPES
             (Transport.sendCommand (PING "r1") Transport.DEFAULT_TIMEOUT_MS
                Transport.DEFAULT_RETRIES Transport.EMPTY_TRANSPORT).1
             [Transport.Tick; Transport.Tick; Transport.Tick] in
  Transport.settled t !! 0%nat = Some (12000%Z, Transport.RejectedWith Transport.NO_ACK)
  ∧ Transport.sent t = [(0%Z, Some "r1", PING "r1"); (4000%Z, Some "r1", PING "r1");
                        (8000%Z, Some "r1", PING "r1")]
  ∧ Transport.pending t = ∅.
Proof. vm_compute. done. Qed.

(** ** The run orchestrator *)

Section AgentFacts.
Import Agent.
Local Open Scope Z_scope.
Local Open Scope list_scope.

(** *** The row loop unfolds as the source reads *)

Lemma rowLoopFrom_unfold (p : Payload) (rowIndex : Z) (c : Exec) :
  rowLoopFrom p rowIndex c
  = if rowIndex <? Z.of_nat (length (rows p)) then
      let c1 := if killSwitchEnabled (storage c)
                then set_storage (set_stopped true (storage c)) c else c in
      if stopped (storage c1) then
        (emit (sendStatus (runId p) "stopped" (state c1) "Run stopped") c1, Returned)
      else pauseLoop p (rowLoopFrom p (rowIndex + 1)) rowIndex c1
    else complete p c.
Proof.
  unfold rowLoopFrom, rowsLeft. destruct (Z.ltb_spec rowIndex (Z.of_nat (length (rows p)))).
  - replace (Z.to_nat (Z.of_nat (length (rows p)) - rowIndex))
      with (S (Z.to_nat (Z.of_nat (length (rows p)) - (rowIndex + 1)))) by lia.
    done.
  - by replace (Z.to_nat (Z.of_nat (length (rows p)) - rowIndex)) with 0%nat by lia.
Qed.

(** *** The books of a call *)

Lemma rowResults_app (es es' : list effect) :
  rowResults (es ++ es') = rowResults es ++ rowResults es'.
Proof. apply omap_app. Qed.

Lemma rowResultsWith_app (status : string) (es es' : list effect) :
  rowResultsWith status (es ++ es') = rowResultsWith status es ++ rowResultsWith status es'.
Proof. apply omap_app. Qed.

Lemma plain_rowResults (e : effect) : plain e → rowResults [e] = [].
Proof. by destruct e as [[]| |]. Qed.

Lemma plain_rowResultsWith (status : string) (e : effect) :
  plain e → rowResultsWith status [e] = [].
Proof. by destruct e as [[]| |]. Qed.

Lemma statuses_snoc (es : list effect) (e : effect)
    (P : list effect → Z → Z → Prop) :
  (∀ before runId status row message s f after,
     es = before ++ Broadcast (AGENT_STATUS runId status row message (Some s) (Some f))
                 :: after → P before s f) →
  (∀ runId status row message s f,
     e = Broadcast (AGENT_STATUS runId status row message (Some s) (Some f)) →
     P es s f) →
  ∀ before runId status row message s f after,
    es ++ [e] = before ++ Broadcast (AGENT_STATUS runId status row message (Some s) (Some f))
                       :: after → P before s f.
Proof.
  intros Hes He before runId status row message s f after.
  destruct after as [|last after _] using rev_ind.
  - intros [-> ->]%app_inj_tail. by eapply He.
  - rewrite app_comm_cons, app_assoc. intros [-> _]%app_inj_tail. by eapply Hes.
Qed.

Lemma accounted_plain (first : Z) (st : RunState) (es : list effect) (e : effect) :
  plain e → accounted first st es → accounted first st (es ++ [e]).
Proof.
  intros He [H1 H2 H3 H4 H5].
  constructor;
    rewrite ?rowResults_app, ?rowResultsWith_app, ?plain_rowResults,
      ?plain_rowResultsWith, ?app_nil_r by done; try done.
  apply statuses_snoc; [done|]. intros ? ? ? ? ? ? ->. done.
Qed.

Lemma accounted_plains (first : Z) (st : RunState) (es new : list effect) :
  Forall plain new → accounted first st es → accounted first st (es ++ new).
Proof.
  intros Hnew. revert es. induction Hnew as [|e new He _ IH]; intros es H.
  - by rewrite app_nil_r.
  - rewrite cons_middle, app_assoc. by apply IH, accounted_plain.
Qed.

Lemma accounted_counts (first : Z) (st st' : RunState) (es : list effect) :
  successCount st' = successCount st → failureCount st' = failureCount st →
  accounted first st es → accounted first st' es.
Proof. intros Hs Hf [H1 H2 H3 H4 H5]. constructor; try done; congruence. Qed.

Lemma accounted_status (first : Z) (st : RunState) (es : list effect)
    (runId status message : string) :
  accounted first st es →
  accounted first st (es ++ [sendStatus runId status st message]).
Proof.
  intros [H1 H2 H3 H4 H5].
  constructor; rewrite ?rowResults_app, ?rowResultsWith_app; simpl;
    rewrite ?app_nil_r; try done.
  apply statuses_snoc; [done|]. unfold sendStatus. intros ? ? ? ? ? ? [= _ _ _ _ <- <-]. done.
Qed.

Lemma accounted_result (first : Z) (st : RunState) (es : list effect)
    (runId : string) (rowIndex : Z) (failed : bool) (error : option string) :
  accounted first st es →
  rowIndex = first + Z.of_nat (length (rowResults es)) →
  accounted first
    {| currentRowIndex := currentRowIndex st;
       successCount := if failed then successCount st else successCount st + 1;
       failureCount := if failed then failureCount st + 1 else failureCount st |}
    (es ++ [sendRowResult runId rowIndex (if failed then "failed" else "success") error]).
Proof.
  intros [H1 H2 H3 H4 H5] ->.
  constructor; rewrite ?rowResults_app, ?rowResultsWith_app; simpl.
  - destruct failed; simpl; rewrite ?app_nil_r, ?length_app; simpl; lia.
  - destruct failed; simpl; rewrite ?app_nil_r, ?length_app; simpl; lia.
  - destruct failed; simpl; rewrite ?app_nil_r, ?length_app; simpl; lia.
  - rewrite length_app. simpl.
    replace (Z.of_nat (length (rowResults es) + 1))
      with (Z.of_nat (length (rowResults es)) + 1) by lia.
    rewrite seqZ_app by lia. rewrite <- H4. simpl. done.
  - apply statuses_snoc; [done|]. intros ? ? ? ? ? ? [=].
Qed.

(** *** Every piece of [runWorkflow] keeps the books *)

Section Pieces.

Variable p : Payload.
Variable base : list effect.

Abbreviation ok c := (accounted (resumeFrom p) (state c) (base ++ out c)).
Abbreviation here rowIndex c :=
  (rowIndex = resumeFrom p + Z.of_nat (length (rowResults (base ++ out c)))).
Abbreviation post r := (ok r.1 ∧ placed (resumeFrom p) r.2 (base ++ out r.1)).

Lemma ok_emit_plain (e : effect) (c : Exec) : plain e → ok c → ok (emit e c).
Proof. intros He H. simpl. rewrite app_assoc. by apply accounted_plain. Qed.

Lemma ok_emits_plain (es : list effect) (c : Exec) :
  Forall plain es → ok c → ok (emits es c).
Proof. intros He H. simpl. rewrite app_assoc. by apply accounted_plains. Qed.

Lemma ok_emit_status (runId status message : string) (c : Exec) :
  ok c → ok (emit (sendStatus runId status (state c) message) c).
Proof. intros H. simpl. rewrite app_assoc. by apply accounted_status. Qed.

Lemma ok_set_storage (s : StorageState) (c : Exec) : ok c → ok (set_storage s c).
Proof. done. Qed.

Lemma ok_set_row (rowIndex : Z) (c : Exec) :
  ok c →
  ok (set_state {| currentRowIndex := rowIndex; successCount := successCount (state c);
                   failureCount := failureCount (state c) |} c).
Proof. intros H. simpl. by eapply accounted_counts; [..|exact H]. Qed.

Lemma here_emit (e : effect) (rowIndex : Z) (c : Exec) :
  rowResults [e] = [] → here rowIndex c → here rowIndex (emit e c).
Proof.
  intros He H. simpl. by rewrite app_assoc, rowResults_app, He, app_nil_r.
Qed.

Lemma here_emits (es : list effect) (rowIndex : Z) (c : Exec) :
  Forall plain es → here rowIndex c → here rowIndex (emits es c).
Proof.
  intros He H. simpl. rewrite app_assoc, rowResults_app.
  replace (rowResults es) with (@nil Z); [by rewrite app_nil_r|].
  clear H. induction He as [|e es He _ IH]; [done|].
  change (e :: es) with ([e] ++ es).
  by rewrite rowResults_app, plain_rowResults, <- IH.
Qed.

Lemma here_result (runId : string) (rowIndex : Z) (status : string)
    (error : option string) (st : RunState) (c : Exec) :
  here rowIndex c →
  here (rowIndex + 1) (emit (sendRowResult runId rowIndex status error) (set_state st c)).
Proof.
  intros H. simpl. rewrite app_assoc, rowResults_app, length_app. simpl. lia.
Qed.

Lemma rowCompletion_post (rowIndex : Z) (rowFailed : bool) (rowErrorMessage : string)
    (c : Exec) :
  ok c → here rowIndex c →
  ok (rowCompletion p rowIndex rowFailed rowErrorMessage c).1
  ∧ here (rowIndex + 1) (rowCompletion p rowIndex rowFailed rowErrorMessage c).1.
Proof.
  intros Hok Hhere. unfold rowCompletion.
  pose proof (accounted_result _ _ _ (runId p) rowIndex rowFailed
                (if rowFailed
                 then Some (if bool_decide (rowErrorMessage = EmptyString)
                            then "Row failed during execution"
                            else rowErrorMessage)
                 else None) Hok Hhere) as Hres.
  rewrite <- app_assoc in Hres.
  destruct rowFailed; [destruct (bestEffort (settings p))|]; cbn [negb fst].
  - split; [exact Hres | by apply here_result].
  - split.
    + apply (ok_emit_status _ _ _ (emit _ (set_state _ c))). exact Hres.
    + apply here_emit; [done|]. by apply here_result.
  - split; [exact Hres | by apply here_result].
Qed.

Lemma afterSteps_post (next : Exec → Exec * point) (rowIndex : Z) (rowFailed : bool)
    (rowErrorMessage : string) (c : Exec) :
  (∀ c', ok c' → here (rowIndex + 1) c' → post (next c')) →
  ok c → here rowIndex c →
  post (afterSteps p next rowIndex rowFailed rowErrorMessage c).
Proof.
  intros Hnext Hok Hhere. unfold afterSteps.
  pose proof (rowCompletion_post rowIndex rowFailed rowErrorMessage c Hok Hhere)
    as [Hok' Hhere'].
  destruct (rowCompletion p rowIndex rowFailed rowErrorMessage c) as [c1 [|]];
    simpl in *.
  - split; [done|]. by intros ? ?.
  - by apply Hnext.
Qed.

Lemma stepLoop_post (next : Exec → Exec * point) (rowIndex : Z) (stepIndex : nat)
    (rowFailed : bool) (rowErrorMessage : string) (c : Exec) :
  (∀ c', ok c' → here (rowIndex + 1) c' → post (next c')) →
  ok c → here rowIndex c →
  post (stepLoop p next rowIndex stepIndex rowFailed rowErrorMessage c).
Proof.
  intros Hnext Hok Hhere. unfold stepLoop.
  destruct (workflow p !! stepIndex) as [step|]; [|by apply afterSteps_post].
  destruct (stepThrough (settings p)); simpl; (split; [done|]);
    by intros ? [= <-].
Qed.

Lemma afterPause_post (next : Exec → Exec * point) (rowIndex : Z) (c : Exec) :
  (∀ c', ok c' → here (rowIndex + 1) c' → post (next c')) →
  ok c → here rowIndex c →
  post (afterPause p next rowIndex c).
Proof.
  intros Hnext Hok Hhere. unfold afterPause.
  destruct (killSwitchEnabled (storage c)).
  - split; [|by intros ? ?].
    apply (ok_emit_status _ _ _ (set_storage _ c)). done.
  - apply stepLoop_post; [done| |].
    + apply (ok_emit_status _ _ _ (set_state _ c)). by apply ok_set_row.
    + by apply (here_emit _ _ (set_state _ c)).
Qed.

Lemma pauseLoop_post (next : Exec → Exec * point) (rowIndex : Z) (c : Exec) :
  (∀ c', ok c' → here (rowIndex + 1) c' → post (next c')) →
  ok c → here rowIndex c →
  post (pauseLoop p next rowIndex c).
Proof.
  intros Hnext Hok Hhere. unfold pauseLoop.
  destruct (paused (storage c)); [|by apply afterPause_post].
  split.
  - apply ok_emit_plain; [done|]. by apply ok_emit_status.
  - intros ? [= <-]. apply here_emit; [done|]. by apply here_emit.
Qed.

Lemma complete_post (c : Exec) : ok c → post (complete p c).
Proof.
  intros Hok. unfold complete. split; [|by intros ? ?].
  apply (ok_emit_status _ _ _ (set_storage _ c)). done.
Qed.

Lemma rowLoop_post (left : nat) (rowIndex : Z) (c : Exec) :
  ok c → here rowIndex c → post (rowLoop p left rowIndex c).
Proof.
  revert rowIndex c. induction left as [|left IH]; intros rowIndex c Hok Hhere.
  { by apply complete_post. }
  simpl.
  set (c1 := if killSwitchEnabled (storage c)
             then set_storage (set_stopped true (storage c)) c else c).
  assert (ok c1 ∧ here rowIndex c1) as [Hok1 Hhere1].
  { unfold c1. by destruct (killSwitchEnabled (storage c)). }
  destruct (stopped (storage c1)).
  - split; [by apply ok_emit_status | by intros ? ?].
  - apply pauseLoop_post; [|done..]. intros c' Hok' Hhere'. by apply IH.
Qed.

Lemma rowLoopFrom_post (rowIndex : Z) (c : Exec) :
  ok c → here rowIndex c → post (rowLoopFrom p rowIndex c).
Proof. apply rowLoop_post. Qed.

Lemma retryLoop_plain (fn : nat → attempt * list effect) (left n : nat) :
  (∀ k, Forall plain (fn k).2) → Forall plain (retryLoop fn left n).2.
Proof.
  intros Hfn. revert n. induction left as [|left IH]; intros n; simpl.
  - specialize (Hfn n). by destruct (fn n) as [[|error] effects].
  - specialize (Hfn n). specialize (IH (S n)).
    destruct (fn n) as [[|error] effects]; [done|].
    destruct (retryLoop fn left (S n)) as [result later]. simpl in *.
    apply Forall_app. split; [done|]. by constructor.
Qed.

Lemma attemptStep_plain (rowIndex : Z) (stepIndex : nat) (step : WorkflowStep)
    (attempts : nat → attempt) (k : nat) :
  Forall plain (attemptStep p rowIndex stepIndex step attempts k).2.
Proof. unfold attemptStep. destruct (attempts k); by repeat constructor. Qed.

Lemma afterStep_post (rowIndex : Z) (stepIndex : nat) (step : WorkflowStep)
    (rowFailed : bool) (rowErrorMessage : string) (attempts : nat → attempt)
    (c : Exec) :
  ok c → here rowIndex c →
  post (afterStep p rowIndex stepIndex step rowFailed rowErrorMessage attempts c).
Proof.
  intros Hok Hhere. unfold afterStep, retryWithBackoff.
  pose proof (retryLoop_plain (attemptStep p rowIndex stepIndex step attempts)
                (default 0%nat (step_retries step)) 0
                (attemptStep_plain rowIndex stepIndex step attempts)) as Hplain.
  destruct (retryLoop _ _ _) as [result effects]. simpl in Hplain.
  pose proof (ok_emits_plain effects c Hplain Hok) as Hok1.
  pose proof (here_emits effects rowIndex c Hplain Hhere) as Hhere1.
  destruct result as [error|].
  - destruct (bestEffort (settings p)); simpl negb; cbv iota.
    + split.
      * apply ok_emit_plain; [done|]. by apply ok_emit_plain.
      * intros ? [= <-]. apply here_emit; [done|]. by apply here_emit.
    + apply afterSteps_post.
      * intros c' Hok' Hhere'. by apply rowLoopFrom_post.
      * by apply ok_emit_plain.
      * by apply here_emit.
  - split.
    + by apply ok_emit_plain.
    + intros ? [= <-]. by apply here_emit.
Qed.

Lemma resume_post (at' : point) (s : signal) (c : Exec) :
  ok c → placed (resumeFrom p) at' (base ++ out c) → post (resume p at' s c).
Proof.
  intros Hok Hplaced.
  assert (∀ rowIndex c', ok c' → here (rowIndex + 1) c' →
            post (rowLoopFrom p (rowIndex + 1) c')) as Hnext.
  { intros rowIndex c' Hok' Hhere'. by apply rowLoopFrom_post. }
  destruct at' as [rowIndex|rowIndex stepIndex step rowFailed rowErrorMessage
                  |rowIndex stepIndex step rowFailed rowErrorMessage
                  |rowIndex stepIndex rowFailed rowErrorMessage|];
    destruct s as [|attempts]; simpl; try (by split);
    pose proof (Hplaced rowIndex eq_refl) as Hhere.
  - apply pauseLoop_post; [apply Hnext | done..].
  - unfold stepSignalTick. case_bool_decide; simpl; (split; [done|]);
      by intros ? [= <-].
  - by apply afterStep_post.
  - apply stepLoop_post; [apply Hnext | done..].
Qed.

End Pieces.

Lemma runWorkflow_post (p : Payload) (storageState : StorageState) :
  accounted (resumeFrom p) (state (runWorkflow p storageState).1)
            (out (runWorkflow p storageState).1)
  ∧ placed (resumeFrom p) (runWorkflow p storageState).2
           (out (runWorkflow p storageState).1).
Proof.
  unfold runWorkflow.
  assert (accounted (resumeFrom p)
            {| currentRowIndex := resumeFrom p; successCount := 0; failureCount := 0 |}
            []) as Hempty.
  { constructor; try done. intros before ? ? ? ? ? ? after H.
    by destruct before. }
  destruct (killSwitchEnabled storageState).
  - split; [|by intros ? ?]. simpl.
    apply (accounted_plains _ _ [] [_; _]); [by repeat constructor | done].
  - apply (rowLoopFrom_post p []); simpl.
    + by apply (accounted_status _ _ []).
    + lia.
Qed.
(** *** Every piece of [runWorkflow] reports the row it leaves *)

Lemma rowsTakenUp_app (es es' : list effect) :
  rowsTakenUp (es ++ es') = rowsTakenUp es ++ rowsTakenUp es'.
Proof. apply omap_app. Qed.

Section Reports.

Variable p : Payload.
Variable base : list effect.

Abbreviation between c := (rowsTakenUp (base ++ out c) = rowResults (base ++ out c)).
Abbreviation within rowIndex c :=
  (rowsTakenUp (base ++ out c) = rowResults (base ++ out c) ++ [rowIndex]).
Abbreviation told r := (reported r.2 (base ++ out r.1)).
Abbreviation idle e := (rowsTakenUp [e] = [] ∧ rowResults [e] = []).

Lemma between_emit (e : effect) (c : Exec) : idle e → between c → between (emit e c).
Proof.
  intros [Hup Hres] H. cbn [emit out].
  by rewrite app_assoc, rowsTakenUp_app, rowResults_app, Hup, Hres, !app_nil_r.
Qed.

Lemma within_emit (e : effect) (rowIndex : Z) (c : Exec) :
  idle e → within rowIndex c → within rowIndex (emit e c).
Proof.
  intros [Hup Hres] H. cbn [emit out].
  by rewrite app_assoc, rowsTakenUp_app, rowResults_app, Hup, Hres, !app_nil_r.
Qed.

Lemma within_emits (es : list effect) (rowIndex : Z) (c : Exec) :
  Forall (λ e, idle e) es → within rowIndex c → within rowIndex (emits es c).
Proof.
  intros Hes. revert c. induction Hes as [|e es He _ IH]; intros c H.
  { cbn [emits out]. by rewrite app_nil_r. }
  specialize (IH (emit e c) (within_emit e rowIndex c He H)).
  cbn [emits emit out] in *. by rewrite <- app_assoc in IH.
Qed.

Lemma rowCompletion_reports (rowIndex : Z) (rowFailed : bool) (rowErrorMessage : string)
    (c : Exec) :
  within rowIndex c → between (rowCompletion p rowIndex rowFailed rowErrorMessage c).1.
Proof.
  intros H. unfold rowCompletion.
  assert (∀ status error st,
            between (emit (sendRowResult (runId p) rowIndex status error)
                          (set_state st c))) as Hresult.
  { intros status error st. cbn [emit set_state out].
    rewrite app_assoc, rowsTakenUp_app, rowResults_app, H. cbn. by rewrite app_nil_r. }
  destruct rowFailed; [destruct (bestEffort (settings p))|]; cbn [negb fst].
  - apply Hresult.
  - apply between_emit; [done|]. apply Hresult.
  - apply Hresult.
Qed.

Lemma afterSteps_reports (next : Exec → Exec * point) (rowIndex : Z) (rowFailed : bool)
    (rowErrorMessage : string) (c : Exec) :
  (∀ c', between c' → told (next c')) →
  within rowIndex c →
  told (afterSteps p next rowIndex rowFailed rowErrorMessage c).
Proof.
  intros Hnext H. unfold afterSteps.
  pose proof (rowCompletion_reports rowIndex rowFailed rowErrorMessage c H) as H'.
  destruct (rowCompletion p rowIndex rowFailed rowErrorMessage c) as [c1 [|]];
    cbn [fst snd] in *.
  - unfold reported. cbn [inStepLoop]. by rewrite app_nil_r.
  - by apply Hnext.
Qed.

Lemma stepLoop_reports (next : Exec → Exec * point) (rowIndex : Z) (stepIndex : nat)
    (rowFailed : bool) (rowErrorMessage : string) (c : Exec) :
  (∀ c', between c' → told (next c')) →
  within rowIndex c →
  told (stepLoop p next rowIndex stepIndex rowFailed rowErrorMessage c).
Proof.
  intros Hnext H. unfold stepLoop.
  destruct (workflow p !! stepIndex) as [step|]; [|by apply afterSteps_reports].
  by destruct (stepThrough (settings p)).
Qed.

Lemma afterPause_reports (next : Exec → Exec * point) (rowIndex : Z) (c : Exec) :
  (∀ c', between c' → told (next c')) →
  between c →
  told (afterPause p next rowIndex c).
Proof.
  intros Hnext H. unfold afterPause.
  destruct (killSwitchEnabled (storage c)).
  - cbn [fst snd]. unfold reported. cbn [inStepLoop]. rewrite app_nil_r.
    by apply (between_emit _ (set_storage _ c)).
  - apply stepLoop_reports; [done|]. cbn [emit set_state out state currentRowIndex].
    rewrite app_assoc, rowsTakenUp_app, rowResults_app, H. cbn.
    by rewrite app_nil_r.
Qed.

Lemma pauseLoop_reports (next : Exec → Exec * point) (rowIndex : Z) (c : Exec) :
  (∀ c', between c' → told (next c')) →
  between c →
  told (pauseLoop p next rowIndex c).
Proof.
  intros Hnext H. unfold pauseLoop.
  destruct (paused (storage c)); [|by apply afterPause_reports].
  cbn [fst snd]. unfold reported. cbn [inStepLoop]. rewrite app_nil_r.
  apply between_emit; [done|]. by apply between_emit.
Qed.

Lemma complete_reports (c : Exec) : between c → told (complete p c).
Proof.
  intros H. unfold complete. cbn [fst snd]. unfold reported. cbn [inStepLoop].
  rewrite app_nil_r. by apply (between_emit _ (set_storage _ c)).
Qed.

Lemma rowLoop_reports (left : nat) (rowIndex : Z) (c : Exec) :
  between c → told (rowLoop p left rowIndex c).
Proof.
  revert rowIndex c. induction left as [|left IH]; intros rowIndex c H.
  { by apply complete_reports. }
  cbn [rowLoop].
  set (c1 := if killSwitchEnabled (storage c)
             then set_storage (set_stopped true (storage c)) c else c).
  assert (between c1) as H1.
  { unfold c1. by destruct (killSwitchEnabled (storage c)). }
  destruct (stopped (storage c1)).
  - cbn [fst snd]. unfold reported. cbn [inStepLoop]. rewrite app_nil_r.
    by apply between_emit.
  - apply pauseLoop_reports; [|done]. intros c' H'. by apply IH.
Qed.

Lemma rowLoopFrom_reports (rowIndex : Z) (c : Exec) :
  between c → told (rowLoopFrom p rowIndex c).
Proof. apply rowLoop_reports. Qed.

Lemma retryLoop_idle (fn : nat → attempt * list effect) (left n : nat) :
  (∀ k, Forall (λ e, idle e) (fn k).2) → Forall (λ e, idle e) (retryLoop fn left n).2.
Proof.
  intros Hfn. revert n. induction left as [|left IH]; intros n; cbn [retryLoop].
  - specialize (Hfn n). by destruct (fn n) as [[|error] effects].
  - specialize (Hfn n). specialize (IH (S n)).
    destruct (fn n) as [[|error] effects]; [done|].
    destruct (retryLoop fn left (S n)) as [result later]. cbn [fst snd] in *.
    apply Forall_app. split; [done|]. by apply Forall_cons_2.
Qed.

Lemma attemptStep_idle (rowIndex : Z) (stepIndex : nat) (step : WorkflowStep)
    (attempts : nat → attempt) (k : nat) :
  Forall (λ e, idle e) (attemptStep p rowIndex stepIndex step attempts k).2.
Proof.
  unfold attemptStep. destruct (attempts k); [|by apply Forall_nil_2].
  by apply Forall_singleton.
Qed.

Lemma afterStep_reports (rowIndex : Z) (stepIndex : nat) (step : WorkflowStep)
    (rowFailed : bool) (rowErrorMessage : string) (attempts : nat → attempt)
    (c : Exec) :
  within rowIndex c →
  told (afterStep p rowIndex stepIndex step rowFailed rowErrorMessage attempts c).
Proof.
  intros H. unfold afterStep, retryWithBackoff.
  pose proof (retryLoop_idle (attemptStep p rowIndex stepIndex step attempts)
                (default 0%nat (step_retries step)) 0
                (attemptStep_idle rowIndex stepIndex step attempts)) as Hidle.
  destruct (retryLoop _ _ _) as [result effects]. cbn [snd] in Hidle.
  pose proof (within_emits effects rowIndex c Hidle H) as H1.
  destruct result as [error|].
  - destruct (bestEffort (settings p)); cbn [negb]; cbv iota.
    + cbn [fst snd]. unfold reported. cbn [inStepLoop].
      apply within_emit; [done|]. by apply within_emit.
    + apply afterSteps_reports.
      * intros c' H'. by apply rowLoopFrom_reports.
      * by apply within_emit.
  - cbn [fst snd]. unfold reported. cbn [inStepLoop]. by apply within_emit.
Qed.

Lemma resume_reports (at' : point) (s : signal) (c : Exec) :
  reported at' (base ++ out c) → told (resume p at' s c).
Proof.
  intros H.
  assert (∀ rowIndex c', between c' → told (rowLoopFrom p (rowIndex + 1) c')) as Hnext.
  { intros rowIndex c' H'. by apply rowLoopFrom_reports. }
  destruct at' as [rowIndex|rowIndex stepIndex step rowFailed rowErrorMessage
                  |rowIndex stepIndex step rowFailed rowErrorMessage
                  |rowIndex stepIndex rowFailed rowErrorMessage|];
    destruct s as [|attempts]; cbn [resume fst snd]; try done;
    unfold reported in H; cbn [inStepLoop] in H.
  - rewrite app_nil_r in H. apply pauseLoop_reports; [apply Hnext | done].
  - unfold stepSignalTick. by case_bool_decide.
  - by apply afterStep_reports.
  - apply stepLoop_reports; [apply Hnext | done].
Qed.

End Reports.

Lemma runWorkflow_reports (p : Payload) (storageState : StorageState) :
  reported (runWorkflow p storageState).2 (out (runWorkflow p storageState).1).
Proof.
  unfold runWorkflow. destruct (killSwitchEnabled storageState); [done|].
  by apply (rowLoopFrom_reports p []).
Qed.

(** *** The books of the agent *)

Lemma effectsOf_app (i : nat) (l l' : list (origin * effect)) :
  effectsOf i (l ++ l') = effectsOf i l ++ effectsOf i l'.
Proof. apply omap_app. Qed.

Lemma effectsOf_handler (i : nat) (es : list effect) :
  effectsOf i (map (pair Handler) es) = [].
Proof. by induction es. Qed.

Lemma effectsOf_same (i : nat) (es : list effect) :
  effectsOf i (map (pair (FromRun i)) es) = es.
Proof.
  induction es as [|e es IH]; [done|]. unfold effectsOf. simpl.
  rewrite bool_decide_eq_true_2 by done. simpl. f_equal. exact IH.
Qed.

Lemma effectsOf_other (i j : nat) (es : list effect) :
  j ≠ i → effectsOf i (map (pair (FromRun j)) es) = [].
Proof.
  intros Hne. induction es as [|e es IH]; [done|]. unfold effectsOf. simpl.
  rewrite bool_decide_eq_false_2 by done. exact IH.
Qed.

Lemma by_handler_books (es : list effect) (s : StorageState) (a : Agent) :
  books a → books (by_handler es s a).
Proof.
  intros [Hruns Hnone]. split; simpl.
  - intros i r Hr. rewrite effectsOf_app, effectsOf_handler, app_nil_r. by apply Hruns.
  - intros i Hi. rewrite effectsOf_app, effectsOf_handler, app_nil_r. by apply Hnone.
Qed.

Lemma spawn_books (p : Payload) (a : Agent) : books a → books (spawn p a).
Proof.
  intros [Hruns Hnone]. unfold spawn.
  pose proof (runWorkflow_post p (storageState a)) as [Hok Hplaced].
  destruct (runWorkflow p (storageState a)) as [c at']. simpl in *.
  split; simpl.
  - intros i r Hr. rewrite effectsOf_app.
    apply lookup_app_Some in Hr as [Hr | [Hi Hr]].
    + rewrite effectsOf_other, app_nil_r; [by apply Hruns|].
      apply lookup_lt_Some in Hr. lia.
    + apply list_lookup_singleton_Some in Hr as [Hzero <-].
      replace i with (length (runs a)) by lia.
      rewrite Hnone, effectsOf_same by lia. done.
  - intros i Hi. rewrite length_app in Hi. simpl in Hi.
    rewrite effectsOf_app, Hnone, effectsOf_other by lia. done.
Qed.

Lemma handleMessage_books (message : ControlMessage) (a : Agent) :
  books a → books (handleMessage message a).
Proof.
  intros H. destruct message; simpl; try (by apply by_handler_books); [|done].
  destruct (killSwitchEnabled (storageState a)); [by apply by_handler_books|].
  case_bool_decide; [by apply by_handler_books|].
  by apply spawn_books, by_handler_books.
Qed.

Lemma wake_books (i : nat) (s : signal) (a : Agent) : books a → books (wake i s a).
Proof.
  intros [Hruns Hnone]. unfold wake.
  destruct (runs a !! i) as [r|] eqn:Hr; [|done].
  destruct (Hruns i r Hr) as [Hok Hplaced].
  pose proof (resume_post (payload r) (effectsOf i (log a)) (at_ r) s
                {| storage := storageState a; state := run_state r; out := [] |})
    as Hpost.
  simpl in Hpost. rewrite app_nil_r in Hpost. specialize (Hpost Hok Hplaced).
  destruct (resume (payload r) (at_ r) s _) as [c at']. simpl in Hpost.
  split; simpl.
  - intros j r' Hr'. rewrite effectsOf_app.
    destruct (decide (j = i)) as [-> | Hne].
    + rewrite list_lookup_insert_eq in Hr' by (by eapply lookup_lt_Some).
      injection Hr' as <-. simpl. by rewrite effectsOf_same.
    + rewrite list_lookup_insert_ne in Hr' by done.
      rewrite effectsOf_other, app_nil_r by done. by apply Hruns.
  - intros j Hj. rewrite length_insert in Hj.
    apply lookup_lt_Some in Hr.
    rewrite effectsOf_app, Hnone, effectsOf_other by lia. done.
Qed.

Lemma effectsOf_one_same (i : nat) (e : effect) : effectsOf i [(FromRun i, e)] = [e].
Proof. apply (effectsOf_same i [e]). Qed.

Lemma effectsOf_one_other (i j : nat) (e : effect) :
  j ≠ i → effectsOf i [(FromRun j, e)] = [].
Proof. apply (effectsOf_other i j [e]). Qed.

Lemma finish_cases (k : nat) (a : Agent) :
  finish k a = a
  ∨ ∃ o r,
      orphans a !! k = Some o
      ∧ runs a !! orphan_run o = Some r
      ∧ finish k a
        = {| storageState := storageState a; runs := runs a;
             log := log a
                    ++ [(FromRun (orphan_run o),
                         completedLog (payload r) (orphan_rowIndex o)
                                      (orphan_stepIndex o) (orphan_step o))];
             orphans := delete k (orphans a) |}.
Proof.
  unfold finish, lateLog. destruct (orphans a !! k) as [o|]; [|by left].
  destruct (runs a !! orphan_run o) as [r|] eqn:Hr; [|by left].
  right. by exists o, r.
Qed.

Lemma timerWins_cases (i : nat) (a : Agent) :
  timerWins i a = a
  ∨ ∃ r o,
      runs a !! i = Some r
      ∧ inStepLoop (at_ r) = Some (orphan_rowIndex o)
      ∧ timerWins i a
        = {| storageState := storageState a; runs := runs a; log := log a;
             orphans := orphans a ++ [o] |}.
Proof.
  unfold timerWins. destruct (runs a !! i) as [r|] eqn:Hr; [|by left].
  destruct (at_ r) as [| |rowIndex stepIndex step rowFailed rowErrorMessage| |] eqn:Hat;
    try (by left).
  destruct (bool_decide _); [|by left]. right.
  exists r, {| orphan_run := i; orphan_rowIndex := rowIndex;
               orphan_stepIndex := stepIndex; orphan_step := step |}.
  by rewrite Hat.
Qed.

Lemma timerWins_books (i : nat) (a : Agent) : books a → books (timerWins i a).
Proof. by destruct (timerWins_cases i a) as [->|(r & o & _ & _ & ->)]. Qed.

Lemma finish_books (k : nat) (a : Agent) : books a → books (finish k a).
Proof.
  intros [Hruns Hnone].
  destruct (finish_cases k a) as [->|(o & r0 & _ & Hr0 & ->)]; [done|].
  split; cbn [runs log].
  - intros i r Hr. rewrite effectsOf_app.
    destruct (Hruns i r Hr) as [Hok Hplaced].
    destruct (decide (orphan_run o = i)) as [<-|Hne].
    + rewrite effectsOf_one_same. split; [by apply accounted_plain|].
      intros rowIndex Hrow. rewrite rowResults_app. cbn. rewrite app_nil_r.
      by apply Hplaced.
    + by rewrite effectsOf_one_other, app_nil_r.
  - intros i Hi. apply lookup_lt_Some in Hr0.
    rewrite effectsOf_app, Hnone, effectsOf_one_other by lia. done.
Qed.

Lemma step_books (a : Agent) (e : event) : books a → books (step a e).
Proof.
  destruct e; [apply handleMessage_books | apply wake_books | apply timerWins_books
              | apply finish_books].
Qed.

Lemma run_books (a : Agent) (events : list event) : books a → books (run a events).
Proof.
  revert a. induction events as [|e events IH]; intros a H; [done|].
  simpl. by apply IH, step_books.
Qed.

Lemma INITIAL_AGENT_books : books INITIAL_AGENT.
Proof. split; [|done]. intros i r Hr. done. Qed.

(** *** Every call reports the rows it leaves *)

Lemma by_handler_allReported (es : list effect) (s : StorageState) (a : Agent) :
  allReported a → allReported (by_handler es s a).
Proof.
  intros H i r Hr. cbn [by_handler runs log] in *.
  rewrite effectsOf_app, effectsOf_handler, app_nil_r. by apply H.
Qed.

Lemma spawn_allReported (p : Payload) (a : Agent) :
  books a → allReported a → allReported (spawn p a).
Proof.
  intros [_ Hnone] H. unfold spawn.
  pose proof (runWorkflow_reports p (storageState a)) as Hnew.
  destruct (runWorkflow p (storageState a)) as [c at']. cbn [fst snd] in Hnew.
  intros i r Hr. cbn [runs log] in *. rewrite effectsOf_app.
  apply lookup_app_Some in Hr as [Hr | [Hi Hr]].
  - rewrite effectsOf_other, app_nil_r; [by apply H|].
    apply lookup_lt_Some in Hr. lia.
  - apply list_lookup_singleton_Some in Hr as [Hzero <-].
    replace i with (length (runs a)) by lia.
    by rewrite Hnone, effectsOf_same by lia.
Qed.

Lemma handleMessage_allReported (message : ControlMessage) (a : Agent) :
  books a → allReported a → allReported (handleMessage message a).
Proof.
  intros Hbooks H.
  destruct message; cbn [handleMessage]; try (by apply by_handler_allReported);
    [|done].
  destruct (killSwitchEnabled (storageState a)); [by apply by_handler_allReported|].
  case_bool_decide; [by apply by_handler_allReported|].
  apply spawn_allReported; [by apply by_handler_books|].
  by apply by_handler_allReported.
Qed.

Lemma wake_allReported (i : nat) (s : signal) (a : Agent) :
  allReported a → allReported (wake i s a).
Proof.
  intros H. unfold wake. destruct (runs a !! i) as [r|] eqn:Hr; [|done].
  pose proof (resume_reports (payload r) (effectsOf i (log a)) (at_ r) s
                {| storage := storageState a; state := run_state r; out := [] |})
    as Hnew.
  cbn [out] in Hnew. rewrite app_nil_r in Hnew. specialize (Hnew (H i r Hr)).
  destruct (resume (payload r) (at_ r) s _) as [c at']. cbn [fst snd] in Hnew.
  intros j r' Hr'. cbn [runs log] in *. rewrite effectsOf_app.
  destruct (decide (j = i)) as [->|Hne].
  - rewrite list_lookup_insert_eq in Hr' by (by eapply lookup_lt_Some).
    injection Hr' as <-. cbn [at_]. by rewrite effectsOf_same.
  - rewrite list_lookup_insert_ne in Hr' by done.
    rewrite effectsOf_other, app_nil_r by done. by apply H.
Qed.

Lemma timerWins_allReported (i : nat) (a : Agent) :
  allReported a → allReported (timerWins i a).
Proof. by destruct (timerWins_cases i a) as [->|(r & o & _ & _ & ->)]. Qed.

Lemma finish_allReported (k : nat) (a : Agent) :
  allReported a → allReported (finish k a).
Proof.
  intros H. destruct (finish_cases k a) as [->|(o & r0 & _ & _ & ->)]; [done|].
  intros i r Hr. cbn [runs log] in *. rewrite effectsOf_app.
  specialize (H i r Hr). unfold reported in *.
  destruct (decide (orphan_run o = i)) as [<-|Hne].
  - rewrite effectsOf_one_same, rowsTakenUp_app, rowResults_app. cbn.
    by rewrite !app_nil_r.
  - by rewrite effectsOf_one_other, app_nil_r.
Qed.

Lemma run_allReported (a : Agent) (events : list event) :
  books a → allReported a → allReported (run a events).
Proof.
  revert a. unfold run. induction events as [|e events IH]; intros a Hbooks H; [done|].
  cbn [foldl]. apply IH; [by apply step_books|].
  destruct e; cbn [step];
    [by apply handleMessage_allReported | by apply wake_allReported
    | by apply timerWins_allReported | by apply finish_allReported].
Qed.

Lemma INITIAL_AGENT_allReported : allReported INITIAL_AGENT.
Proof. by intros i r Hr. Qed.

Lemma step_log_grows (a : Agent) (e : event) : ∃ added, log (step a e) = log a ++ added.
Proof.
  destruct e as [message|i s|i|k]; cbn [step].
  - assert (∀ es s, ∃ added, log (by_handler es s a) = log a ++ added) as Hhandled.
    { intros es s. by eexists. }
    destruct message; cbn [handleMessage]; try apply Hhandled;
      [|exists []; by rewrite app_nil_r].
    destruct (killSwitchEnabled (storageState a)); [apply Hhandled|].
    case_bool_decide; [apply Hhandled|].
    unfold spawn. destruct (runWorkflow _ _) as [c at']. cbn [log by_handler].
    eexists. by rewrite <- app_assoc.
  - unfold wake. destruct (runs a !! i) as [r|]; [|exists []; by rewrite app_nil_r].
    destruct (resume _ _ _ _) as [c at']. by eexists.
  - exists []. rewrite app_nil_r.
    by destruct (timerWins_cases i a) as [->|(r & o & _ & _ & ->)].
  - destruct (finish_cases k a) as [->|(o & r & _ & _ & ->)];
      [exists []; by rewrite app_nil_r | by eexists].
Qed.

Lemma rowCompletion_one_result (p : Payload) (rowIndex : Z) (rowFailed : bool)
    (rowErrorMessage : string) (c : Exec) :
  let c' := (rowCompletion p rowIndex rowFailed rowErrorMessage c).1 in
  rowResults (out c') = rowResults (out c) ++ [rowIndex]
  ∧ rowResultsWith (if rowFailed then "failed" else "success") (out c')
    = rowResultsWith (if rowFailed then "failed" else "success") (out c) ++ [rowIndex]
  ∧ successCount (state c')
    = (if rowFailed then successCount (state c) else successCount (state c) + 1)
  ∧ failureCount (state c')
    = (if rowFailed then failureCount (state c) + 1 else failureCount (state c)).
Proof.
  unfold rowCompletion.
  destruct rowFailed; [destruct (bestEffort (settings p))|]; simpl;
    rewrite ?rowResults_app, ?rowResultsWith_app; simpl; by rewrite ?app_nil_r.
Qed.

Lemma rowResultsWith_le (es : list effect) :
  (length (rowResultsWith "success" es) + length (rowResultsWith "failed" es)
   ≤ length (rowResults es))%nat.
Proof.
  induction es as [|e es IH]; [done|].
  change (e :: es) with ([e] ++ es).
  rewrite rowResults_app, !rowResultsWith_app, !length_app.
  destruct e as [[| | |runId rowIndex status error| |]| |]; simpl; try lia.
  repeat case_bool_decide; simpl; try lia. congruence.
Qed.

Lemma rowResults_statuses (es : list effect) :
  length (rowResults es)
  = (length (rowResultsWith "success" es) + length (rowResultsWith "failed" es))%nat →
  ∀ runId rowIndex status error,
    Broadcast (AGENT_ROW_RESULT runId rowIndex status error) ∈ es →
    status = "success" ∨ status = "failed".
Proof.
  induction es as [|e es IH]; intros Hlen runId rowIndex status error Hin.
  { by apply elem_of_nil in Hin. }
  change (e :: es) with ([e] ++ es) in Hlen.
  rewrite rowResults_app, !rowResultsWith_app, !length_app in Hlen.
  pose proof (rowResultsWith_le es) as Hes.
  pose proof (rowResultsWith_le [e]) as He.
  apply elem_of_cons in Hin as [<-|Hin]; [|eapply IH; [lia | exact Hin]].
  destruct (decide (status = "success")) as [|Hsuccess]; [by left|].
  destruct (decide (status = "failed")) as [|Hfailed]; [by right|].
  exfalso. cbn in Hlen, He. rewrite !bool_decide_eq_false_2 in Hlen by done.
  cbn in Hlen. lia.
Qed.

(** Claim C5.  For every call of [runWorkflow], whatever happens
    around it: the counters add up to the number of row results it has
    sent, each counter to the number of results with its status; the
    results are for the rows [resumeFrom], [resumeFrom + 1], .. in this
    order, one for each; every status it has sent, and it sends one at
    each turn of the row loop, carries counters that add up to the
    number of row results sent before it; the code after the step loop
    sends exactly one row result, for the row at hand, and adds one to
    exactly one of the two counters; a call that is suspended works on
    the first row it has not reported; the rows whose step loop the
    call has entered (each announced by the status [Processing row])
    are, in this order, the rows it has sent a row result for, and
    after them the row whose step loop it is in, if it is in one: every
    iteration of the row loop that has left its step loop has sent its
    row result, exactly one, and none that has not has sent one; when
    the call is in the step loop of a row and the next event takes it
    out of it, the row result of that row is the first thing it reports
    in that very step; and every row result has the status [success]
    or [failed]. *)
Theorem counters_match_row_results (events : list event) (i : nat) (r : Run) :
  runs (run INITIAL_AGENT events) !! i = Some r →
  let mine := effectsOf i (log (run INITIAL_AGENT events)) in
  successCount (run_state r) + failureCount (run_state r)
  = Z.of_nat (length (rowResults mine))
  ∧ successCount (run_state r) = Z.of_nat (length (rowResultsWith "success" mine))
  ∧ failureCount (run_state r) = Z.of_nat (length (rowResultsWith "failed" mine))
  ∧ rowResults mine
    = seqZ (resumeFrom (payload r)) (Z.of_nat (length (rowResults mine)))
  ∧ (∀ before runId status row message s f after,
       mine = before ++ Broadcast (AGENT_STATUS runId status row message
                                                (Some s) (Some f)) :: after →
       s + f = Z.of_nat (length (rowResults before)))
  ∧ (∀ rowIndex rowFailed rowErrorMessage c,
       let c' := (rowCompletion (payload r) rowIndex rowFailed rowErrorMessage c).1 in
       rowResults (out c') = rowResults (out c) ++ [rowIndex]
       ∧ successCount (state c') + failureCount (state c')
         = successCount (state c) + failureCount (state c) + 1
       ∧ (successCount (state c') = successCount (state c)
          ∨ failureCount (state c') = failureCount (state c)))
  ∧ (∀ rowIndex, rowOf (at_ r) = Some rowIndex →
                 rowIndex = resumeFrom (payload r) + Z.of_nat (length (rowResults mine)))
  ∧ rowsTakenUp mine
    = rowResults mine ++ match inStepLoop (at_ r) with
                         | Some rowIndex => [rowIndex]
                         | None => []
                         end
  ∧ (∀ e r' rowIndex,
       inStepLoop (at_ r) = Some rowIndex →
       runs (step (run INITIAL_AGENT events) e) !! i = Some r' →
       inStepLoop (at_ r') ≠ Some rowIndex →
       ∃ later,
         rowResults (effectsOf i (log (step (run INITIAL_AGENT events) e)))
         = rowResults mine ++ rowIndex :: later)
  ∧ (∀ runId rowIndex status error,
       Broadcast (AGENT_ROW_RESULT runId rowIndex status error) ∈ mine →
       status = "success" ∨ status = "failed").
Proof.
  intros Hr mine.
  pose proof (run_allReported INITIAL_AGENT events INITIAL_AGENT_books
                INITIAL_AGENT_allReported i r Hr) as Hreported.
  fold mine in Hreported.
  assert (∀ e r' rowIndex,
            inStepLoop (at_ r) = Some rowIndex →
            runs (step (run INITIAL_AGENT events) e) !! i = Some r' →
            inStepLoop (at_ r') ≠ Some rowIndex →
            ∃ later,
              rowResults (effectsOf i (log (step (run INITIAL_AGENT events) e)))
              = rowResults mine ++ rowIndex :: later) as Hleaves.
  { intros e r' rowIndex Hin Hr' Hout.
    pose proof (run_allReported INITIAL_AGENT (events ++ [e]) INITIAL_AGENT_books
                  INITIAL_AGENT_allReported i r') as Hreported'.
    unfold run in Hreported'. rewrite foldl_app in Hreported'. cbn [foldl] in Hreported'.
    specialize (Hreported' Hr').
    destruct (step_log_grows (run INITIAL_AGENT events) e) as [added Hadded].
    unfold run in Hadded. unfold reported in *.
    rewrite Hadded, effectsOf_app, rowsTakenUp_app, rowResults_app in Hreported'.
    unfold run. rewrite Hadded, effectsOf_app, rowResults_app.
    fold (run INITIAL_AGENT events) in Hreported' |- *. fold mine in Hreported' |- *.
    rewrite Hreported, Hin, <- !app_assoc in Hreported'.
    apply app_inv_head in Hreported'.
    destruct (rowResults (effectsOf i added)) as [|row later].
    - destruct (inStepLoop (at_ r')) as [rowIndex'|]; [|done].
      cbn in Hreported'. injection Hreported' as <- _. done.
    - cbn in Hreported'. injection Hreported' as <- _. by exists later. }
  destruct (run_books INITIAL_AGENT events INITIAL_AGENT_books) as [Hruns _].
  destruct (Hruns i r Hr) as [[H1 H2 H3 H4 H5] Hplaced].
  fold mine in H1, H2, H3, H4, H5, Hplaced.
  split; [lia|]. split; [done|]. split; [done|]. split; [done|].
  split; [|split; [|split; [exact Hplaced|]]];
    [| |split; [exact Hreported | split; [exact Hleaves|]]];
    [| |by apply rowResults_statuses].
  - intros before runId status row message s f after Hsplit.
    destruct (H5 _ _ _ _ _ _ _ _ Hsplit) as [-> ->].
    rewrite Hsplit, rowResults_app, !rowResultsWith_app, !length_app in H3.
    pose proof (rowResultsWith_le before).
    pose proof (rowResultsWith_le
                  (Broadcast (AGENT_STATUS runId status row message
                                (Some (Z.of_nat (length (rowResultsWith "success" before))))
                                (Some (Z.of_nat (length (rowResultsWith "failed" before)))))
                   :: after)).
    lia.
  - intros rowIndex rowFailed rowErrorMessage c.
    destruct (rowCompletion_one_result (payload r) rowIndex rowFailed
                rowErrorMessage c) as (Hres & _ & Hs & Hf).
    cbv zeta. split; [done|]. rewrite Hs, Hf. destruct rowFailed; split; auto; lia.
Qed.

Lemma counters_match_row_results_witness :
  let events := [Deliver (CONTROL_START_RUN "q1" SAMPLE_PAYLOAD);
                 Wake 0 SUCCEEDS; Wake 0 Elapsed] in
  let r := {| payload := SAMPLE_PAYLOAD;
              run_state := {| currentRowIndex := 1; successCount := 1;
                              failureCount := 0 |};
              at_ := StepRunning 1 0 SAMPLE_STEP false EmptyString |} in
  let mine := effectsOf 0 (log (run INITIAL_AGENT events)) in
  runs (run INITIAL_AGENT events) !! 0%nat = Some r
  ∧ successCount (run_state r) + failureCount (run_state r)
    = Z.of_nat (length (rowResults mine))
  ∧ rowsTakenUp mine = rowResults mine ++ [1].
Proof.
  cbv zeta.
  assert (runs (run INITIAL_AGENT
                  [Deliver (CONTROL_START_RUN "q1" SAMPLE_PAYLOAD);
                   Wake 0 SUCCEEDS; Wake 0 Elapsed]) !! 0%nat
          = Some {| payload := SAMPLE_PAYLOAD;
                    run_state := {| currentRowIndex := 1; successCount := 1;
                                    failureCount := 0 |};
                    at_ := StepRunning 1 0 SAMPLE_STEP false EmptyString |}) as Hr.
  { vm_compute. reflexivity. }
  split; [exact Hr|].
  pose proof (counters_match_row_results _ 0 _ Hr) as Hbooks.
  split; [exact (proj1 Hbooks)|].
  exact (proj1 (proj2 (proj2 (proj2 (proj2 (proj2 (proj2 (proj2 Hbooks)))))))).
Defined.

(** Claim C6.  Every row result that a call of [runWorkflow] sends is
    for a row at or after its [resumeFrom]; when [resumeFrom] is
    [lastCompletedRow + 1], none is for a row up to [lastCompletedRow]. *)
Theorem row_results_from_resumeFrom (events : list event) (i : nat) (r : Run)
    (rowIndex : Z) :
  runs (run INITIAL_AGENT events) !! i = Some r →
  rowIndex ∈ rowResults (effectsOf i (log (run INITIAL_AGENT events))) →
  resumeFrom (payload r) ≤ rowIndex
  ∧ ∀ lastCompletedRow,
      resumeFrom (payload r) = lastCompletedRow + 1 → lastCompletedRow < rowIndex.
Proof.
  intros Hr Hin.
  destruct (run_books INITIAL_AGENT events INITIAL_AGENT_books) as [Hruns _].
  destruct (Hruns i r Hr) as [[_ _ _ Hrows _] _].
  rewrite Hrows in Hin. apply elem_of_seqZ in Hin. split; [lia|]. intros. lia.
Qed.

Lemma row_results_from_resumeFrom_witness :
  let events := [Deliver (CONTROL_START_RUN "q1" RESUMED_PAYLOAD);
                 Wake 0 SUCCEEDS; Wake 0 Elapsed] in
  let r := {| payload := RESUMED_PAYLOAD;
              run_state := {| currentRowIndex := 1; successCount := 1;
                              failureCount := 0 |};
              at_ := Returned |} in
  (runs (run INITIAL_AGENT events) !! 0%nat = Some r
   ∧ 1 ∈ rowResults (effectsOf 0 (log (run INITIAL_AGENT events))))
  ∧ resumeFrom (payload r) ≤ 1.
Proof.
  cbv zeta.
  assert (1 ∈ rowResults
                (effectsOf 0
                   (log (run INITIAL_AGENT
                           [Deliver (CONTROL_START_RUN "q1" RESUMED_PAYLOAD);
                            Wake 0 SUCCEEDS; Wake 0 Elapsed])))) as Hin.
  { vm_compute. left. }
  assert (runs (run INITIAL_AGENT
                  [Deliver (CONTROL_START_RUN "q1" RESUMED_PAYLOAD);
                   Wake 0 SUCCEEDS; Wake 0 Elapsed]) !! 0%nat
          = Some {| payload := RESUMED_PAYLOAD;
                    run_state := {| currentRowIndex := 1; successCount := 1;
                                    failureCount := 0 |};
                    at_ := Returned |}) as Hr.
  { vm_compute. reflexivity. }
  split; [split; [exact Hr | exact Hin]|].
  exact (proj1 (row_results_from_resumeFrom _ 0 _ 1 Hr Hin)).
Defined.

(** *** The delay between steps *)

Lemma retryLoop_no_applyDelay (fn : nat → attempt * list effect) (left n : nat) :
  (∀ k, filter is_applyDelay (fn k).2 = []) →
  filter is_applyDelay (retryLoop fn left n).2 = [].
Proof.
  intros Hfn. revert n. induction left as [|left IH]; intros n; simpl.
  - specialize (Hfn n). by destruct (fn n) as [[|error] effects].
  - specialize (Hfn n). specialize (IH (S n)).
    destruct (fn n) as [[|error] effects]; [done|].
    destruct (retryLoop fn left (S n)) as [result later]. simpl in *.
    rewrite filter_app, Hfn. simpl. rewrite filter_cons. simpl. done.
Qed.

(** Claim C4 as stated fails: the only step of row 0 fails, [bestEffort]
    is off, and the call goes from the error log straight to the failed
    row result; [applyDelay] is not called at all. *)
Lemma failed_step_without_bestEffort_skips_delay :
  let a := run INITIAL_AGENT [Deliver (CONTROL_START_RUN "q1" SAMPLE_PAYLOAD);
                              Wake 0 FAILS] in
  bestEffort (settings SAMPLE_PAYLOAD) = false
  ∧ effectsOf 0 (log a)
    = [Broadcast (AGENT_STATUS "run-1" "running" 0 "Run started" (Some 0) (Some 0));
       Broadcast (AGENT_STATUS "run-1" "running" 0 "Processing row" (Some 0) (Some 0));
       Broadcast (AGENT_LOG "run-1" 0 0 "error" "boom");
       Broadcast (AGENT_ROW_RESULT "run-1" 0 "failed" (Some "boom"));
       Broadcast (AGENT_STATUS "run-1" "error" 0 "Row failed" (Some 0) (Some 1))]
  ∧ filter is_applyDelay (effectsOf 0 (log a)) = [].
Proof. vm_compute. done. Qed.

(** Claim C4, as amended.  The attempts of a step call [applyDelay]
    never.  After a step that succeeded, and after a step that failed
    while [bestEffort] is on, [applyDelay] is called once, as the last
    thing before the next [await].  After a step that failed while
    [bestEffort] is off, the step loop is left at once: the error log is
    followed by the failed row result and the error status,
    [runWorkflow] returns, and [applyDelay] is not called. *)
Theorem inter_step_delay_after_step (p : Payload) (rowIndex : Z) (stepIndex : nat)
    (step : WorkflowStep) (rowFailed : bool) (rowErrorMessage : string)
    (attempts : nat → attempt) (c : Exec) :
  let outcome := retryWithBackoff (attemptStep p rowIndex stepIndex step attempts)
                                  (default 0%nat (step_retries step)) in
  let r := afterStep p rowIndex stepIndex step rowFailed rowErrorMessage attempts c in
  let delayed := ApplyDelay (delayMinMs (settings p)) (delayMaxMs (settings p)) in
  filter is_applyDelay outcome.2 = []
  ∧ match outcome.1 with
    | None =>
        r.2 = InterStepDelay rowIndex stepIndex rowFailed rowErrorMessage
        ∧ out r.1 = out c ++ outcome.2 ++ [delayed]
    | Some error =>
        let failed := sendLog (runId p) rowIndex (Z.of_nat stepIndex) "error"
                              (errorMessageOf error) in
        if bestEffort (settings p) then
          r.2 = InterStepDelay rowIndex stepIndex true (errorMessageOf error)
          ∧ out r.1 = out c ++ outcome.2 ++ [failed; delayed]
        else
          r.2 = Returned
          ∧ out r.1
            = out c ++ outcome.2
              ++ [failed;
                  sendRowResult (runId p) rowIndex "failed"
                    (Some (if bool_decide (errorMessageOf error = EmptyString)
                           then "Row failed during execution"
                           else errorMessageOf error));
                  sendStatus (runId p) "error"
                    {| currentRowIndex := currentRowIndex (state c);
                       successCount := successCount (state c);
                       failureCount := failureCount (state c) + 1 |}
                    "Row failed"]
          ∧ filter is_applyDelay (out r.1) = filter is_applyDelay (out c)
    end.
Proof.
  cbv zeta. split.
  { apply retryLoop_no_applyDelay. intros k. unfold attemptStep.
    by destruct (attempts k). }
  pose proof (retryLoop_no_applyDelay (attemptStep p rowIndex stepIndex step attempts)
                (default 0%nat (step_retries step)) 0) as Hnone.
  unfold afterStep, retryWithBackoff in *.
  destruct (retryLoop _ _ _) as [[error|] effects]; simpl in *.
  - destruct (bestEffort (settings p)) eqn:Hbest; simpl.
    + split; [done|]. by rewrite <- !app_assoc.
    + unfold afterSteps, rowCompletion. simpl. rewrite Hbest. simpl.
      split; [done|]. rewrite <- !app_assoc. simpl.
      split; [done|].
      rewrite !filter_app, Hnone; [by rewrite app_nil_r|].
      intros k. unfold attemptStep. by destruct (attempts k).
  - split; [done|]. by rewrite <- !app_assoc.
Qed.

(** *** Pause and stop *)

Lemma wake_paused (i : nat) (a : Agent) (r : Run) (rowIndex : Z) :
  runs a !! i = Some r → at_ r = PauseDelay rowIndex →
  paused (storageState a) = true →
  wake i Elapsed a
  = {| storageState := storageState a; runs := runs a;
       log := log a ++ pausePolls i (runId (payload r)) (run_state r) 1;
       orphans := orphans a |}.
Proof.
  intros Hr Hat Hpaused. unfold wake. rewrite Hr, Hat. simpl.
  unfold pauseLoop. simpl. rewrite Hpaused. simpl.
  rewrite <- Hat. destruct r as [p st at']. simpl.
  by rewrite list_insert_id, app_nil_r.
Qed.

Lemma wakes_paused (n i : nat) (a : Agent) (r : Run) (rowIndex : Z) :
  runs a !! i = Some r → at_ r = PauseDelay rowIndex →
  paused (storageState a) = true →
  run a (replicate n (Wake i Elapsed))
  = {| storageState := storageState a; runs := runs a;
       log := log a ++ pausePolls i (runId (payload r)) (run_state r) n;
       orphans := orphans a |}.
Proof.
  intros Hr Hat Hpaused. revert a Hr Hpaused.
  induction n as [|n IH]; intros a Hr Hpaused.
  - simpl. unfold pausePolls. simpl. rewrite app_nil_r. by destruct a.
  - simpl. rewrite (wake_paused i a r rowIndex) by done.
    rewrite IH by done. simpl. unfold pausePolls. simpl.
    by rewrite <- !app_assoc.
Qed.

Lemma pausePolls_no_stopped (i j : nat) (runId : string) (st : RunState) (n : nat) :
  filter (is_status "stopped") (effectsOf j (pausePolls i runId st n)) = [].
Proof.
  induction n as [|n IH]; [done|].
  unfold pausePolls in *. simpl. unfold effectsOf in *. simpl.
  case_bool_decide; simpl; [|done].
  rewrite filter_cons. simpl. rewrite filter_cons. simpl. done.
Qed.

Lemma pausePolls_rowResults (i j : nat) (runId : string) (st : RunState) (n : nat) :
  rowResults (effectsOf j (pausePolls i runId st n)) = [].
Proof.
  induction n as [|n IH]; [done|].
  unfold pausePolls in *. simpl. unfold effectsOf in *. simpl.
  by case_bool_decide.
Qed.

Abbreviation fresh s rs os :=
  ({| storageState := s; runs := rs; log := []; orphans := os |}).

Lemma step_log_prefix (s : StorageState) (rs : list Run) (l : list (origin * effect))
    (os : list Orphan) (e : event) :
  step {| storageState := s; runs := rs; log := l; orphans := os |} e
  = {| storageState := storageState (step (fresh s rs os) e);
       runs := runs (step (fresh s rs os) e);
       log := l ++ log (step (fresh s rs os) e);
       orphans := orphans (step (fresh s rs os) e) |}.
Proof.
  destruct e as [message|i sig|i|k]; simpl.
  - destruct message; simpl; try done; [|by rewrite app_nil_r].
    destruct (killSwitchEnabled s); [done|]. case_bool_decide; [done|].
    unfold spawn. simpl. destruct (runWorkflow payload0 s) as [c at']. simpl.
    by rewrite <- app_assoc.
  - unfold wake. simpl. destruct (rs !! i) as [r|]; simpl; [|by rewrite app_nil_r].
    by destruct (resume (payload r) (at_ r) sig _).
  - unfold timerWins. simpl. destruct (rs !! i) as [r|]; simpl; [|by rewrite app_nil_r].
    destruct (at_ r); simpl; try (by rewrite app_nil_r).
    case_bool_decide; simpl; by rewrite app_nil_r.
  - unfold finish. simpl. destruct (os !! k) as [o|]; simpl; [|by rewrite app_nil_r].
    destruct (lateLog rs o) as [entry|]; simpl; [done|by rewrite app_nil_r].
Qed.

Lemma run_log_prefix (events : list event) (s : StorageState) (rs : list Run)
    (l : list (origin * effect)) (os : list Orphan) :
  run {| storageState := s; runs := rs; log := l; orphans := os |} events
  = {| storageState := storageState (run (fresh s rs os) events);
       runs := runs (run (fresh s rs os) events);
       log := l ++ log (run (fresh s rs os) events);
       orphans := orphans (run (fresh s rs os) events) |}.
Proof.
  revert s rs l os. induction events as [|e events IH]; intros s rs l os; simpl.
  { by rewrite app_nil_r. }
  rewrite step_log_prefix.
  destruct (step (fresh s rs os) e) as [s' rs' l' os'].
  cbn [storageState runs log orphans].
  rewrite (IH s' rs' (l ++ l') os'), (IH s' rs' l' os').
  cbn [storageState runs log orphans].
  by rewrite app_assoc.
Qed.

(** Claim C3 fails on the code.  The sample run is paused and then
    stopped while it waits in the pause loop.  However often the timer
    of the pause loop fires, the run stays there, with [stopped] set,
    and sends no "stopped" status.  Resumed later, it does not stop
    either: it processes row 1 and ends with "complete". *)
Theorem stop_while_paused_does_not_halt (n : nat) :
  let a := run INITIAL_AGENT (PAUSED_THEN_STOPPED ++ replicate n (Wake 0 Elapsed)) in
  let b := run a RESUMED_LATER in
  (stopped (storageState a) = true
   ∧ paused (storageState a) = true
   ∧ at_ <$> runs a = [PauseDelay 1]
   ∧ filter (is_status "stopped") (effectsOf 0 (log a)) = [])
  ∧ (stopped (storageState b) = true
     ∧ at_ <$> runs b = [Returned]
     ∧ status (storageState b) = "complete"
     ∧ rowResults (effectsOf 0 (log b)) = [0; 1]
     ∧ filter (is_status "stopped") (effectsOf 0 (log b)) = []).
Proof.
  cbv zeta.
  assert (run INITIAL_AGENT (PAUSED_THEN_STOPPED ++ replicate n (Wake 0 Elapsed))
          = run (run INITIAL_AGENT PAUSED_THEN_STOPPED) (replicate n (Wake 0 Elapsed)))
    as -> by apply foldl_app.
  set (a0 := run INITIAL_AGENT PAUSED_THEN_STOPPED).
  set (s0 := {| status := "running"; storedRunId := Some "run-1"; storedRowIndex := 0;
                paused := true; stopped := true; killSwitchEnabled := false;
                stepSignal := None |}).
  set (r0 := {| payload := SAMPLE_PAYLOAD;
                run_state := {| currentRowIndex := 0; successCount := 1;
                                failureCount := 0 |};
                at_ := PauseDelay 1 |}).
  assert (storageState a0 = s0) as Hs by (vm_compute; reflexivity).
  assert (runs a0 = [r0]) as Hrs by (vm_compute; reflexivity).
  assert (filter (is_status "stopped") (effectsOf 0 (log a0)) = []) as Hquiet
    by (vm_compute; reflexivity).
  assert (rowResults (effectsOf 0 (log a0)) = [0]) as Hrow0
    by (vm_compute; reflexivity).
  set (b0 := run (fresh s0 [r0] []) RESUMED_LATER).
  assert (stopped (storageState b0) = true) as Hb1 by (vm_compute; reflexivity).
  assert (at_ <$> runs b0 = [Returned]) as Hb2 by (vm_compute; reflexivity).
  assert (status (storageState b0) = "complete") as Hb3 by (vm_compute; reflexivity).
  assert (rowResults (effectsOf 0 (log b0)) = [1]) as Hb4 by (vm_compute; reflexivity).
  assert (filter (is_status "stopped") (effectsOf 0 (log b0)) = []) as Hb5
    by (vm_compute; reflexivity).
  assert (orphans a0 = []) as Hos by (vm_compute; reflexivity).
  clearbody a0. destruct a0 as [s rs l os]. cbn [storageState runs log orphans] in *.
  subst s rs os.
  rewrite (wakes_paused n 0 {| storageState := s0; runs := [r0]; log := l;
                               orphans := [] |} r0 1
             eq_refl eq_refl eq_refl).
  cbn [storageState runs log orphans].
  set (polls := pausePolls 0 _ _ n).
  assert (filter (is_status "stopped") (effectsOf 0 polls) = []) as Hpolls
    by apply pausePolls_no_stopped.
  assert (rowResults (effectsOf 0 polls) = []) as Hrows
    by apply pausePolls_rowResults.
  clearbody polls. rewrite run_log_prefix. fold b0. clearbody b0.
  cbn [storageState runs log].
  rewrite !effectsOf_app, !filter_app, !rowResults_app.
  rewrite Hpolls, Hrows, Hquiet, Hrow0, Hb1, Hb2, Hb3, Hb4, Hb5.
  repeat split; reflexivity.
Qed.

End AgentFacts.

(** * Further properties *)

(** ** Tokens and similarity *)

Section MoreSimilarity.
Import Similarity.

Lemma all_chars_app (P : ascii → bool) (s s' : string) :
  Text.all_chars P (s +:+ s') = Text.all_chars P s && Text.all_chars P s'.
Proof.
  induction s as [|c s IH]; [done|]. simpl. rewrite IH. by rewrite andb_assoc.
Qed.

Lemma split_ws_chars (P : ascii → bool) (in_run : bool) (cur s : string) :
  Text.all_chars P cur = true →
  Text.all_chars (λ c, is_space c || P c) s = true →
  Forall (λ piece, Text.all_chars P piece = true) (split_ws in_run cur s).
Proof.
  revert in_run cur. induction s as [|c s IH]; intros in_run cur Hcur Hs; simpl.
  { by repeat constructor. }
  simpl in Hs. apply andb_true_iff in Hs as [Hc Hs].
  destruct (is_space c) eqn:Hspace.
  - destruct in_run.
    + by apply IH.
    + constructor; [done|]. by apply IH.
  - apply IH; [|done]. rewrite all_chars_app, Hcur. simpl. simpl in Hc.
    by rewrite Hc.
Qed.

Lemma replace_other_chars (s : string) :
  Text.all_chars (λ c, is_space c || (is_lower c || is_digit c)) (replace_other s)
  = true.
Proof.
  unfold replace_other. induction s as [|c s IH]; [done|].
  cbn [map_chars Text.all_chars]. rewrite IH, andb_true_r.
  destruct (is_lower c) eqn:Hl, (is_digit c) eqn:Hd, (is_space c) eqn:Hs;
    cbn [orb]; rewrite ?Hl, ?Hd, ?Hs; done.
Qed.

(** X1: Every token is a non-empty word of the letters [a]-[z] and the
    digits, whatever the text. *)
Theorem tokenize_words (text token : string) :
  token ∈ tokenize text →
  token ≠ EmptyString
  ∧ Text.all_chars (λ c, is_lower c || is_digit c) token = true.
Proof.
  unfold tokenize. intros [Hne Hin]%list_elem_of_filter. split; [done|].
  pose proof (split_ws_chars (λ c, is_lower c || is_digit c) false EmptyString
                (replace_other (toLowerCase text)) eq_refl
                (replace_other_chars _)) as Hall.
  rewrite Forall_forall in Hall. by apply Hall.
Qed.

Lemma tokenize_words_witness :
  "world" ∈ tokenize "Hello, World!"
  ∧ "world" ≠ EmptyString
  ∧ Text.all_chars (λ c, is_lower c || is_digit c) "world" = true.
Proof.
  assert ("world" ∈ tokenize "Hello, World!") as Hin.
  { vm_compute. right. left. }
  split; [exact Hin|]. exact (tokenize_words "Hello, World!" "world" Hin).
Defined.

Lemma Num_inj (q q' : Qc) : Num q = Num q' → q = q'.
Proof.
  intros H. by apply (f_equal (λ x, match x with Num q => q | _ => 0%Qc end)) in H.
Qed.

Lemma ratio_one_iff (i u : nat) :
  (0 < u)%nat → Q2Qc (Z.of_nat i # Pos.of_nat u) = 1%Qc ↔ i = u.
Proof.
  intros Hu. split.
  - intros H. apply (f_equal this) in H. simpl in H.
    assert (Qred (Z.of_nat i # Pos.of_nat u) == 1)%Q as Heq by (by rewrite H).
    rewrite Qred_correct in Heq. unfold Qeq in Heq. simpl in Heq. lia.
  - intros ->. by apply ratio_self.
Qed.

Lemma ratio_zero_iff (i u : nat) :
  (0 < u)%nat → Q2Qc (Z.of_nat i # Pos.of_nat u) = 0%Qc ↔ i = 0%nat.
Proof.
  intros Hu. split.
  - intros H. apply (f_equal this) in H. simpl in H.
    assert (Qred (Z.of_nat i # Pos.of_nat u) == 0)%Q as Heq by (by rewrite H).
    rewrite Qred_correct in Heq. unfold Qeq in Heq. simpl in Heq. lia.
  - intros ->. apply Qc_is_canon. simpl. rewrite Qred_correct. done.
Qed.

(** X2: The similarity is 1 exactly when the two texts have the same set of
    tokens, and 0 exactly when they have no token in common and at least
    one of them has a token. *)
Theorem jaccardSimilarity_extremes (a b : string) :
  (jaccardSimilarity a b = Num 1 ↔ tokenSet a = tokenSet b)
  ∧ (jaccardSimilarity a b = Num 0
     ↔ tokenSet a ∩ tokenSet b = ∅ ∧ ¬ (tokenSet a = ∅ ∧ tokenSet b = ∅)).
Proof.
  rewrite jaccardSimilarity_unfold. case_bool_decide as Hempty.
  - destruct Hempty as [-> ->]. split; [done|]. split; [|tauto].
    intros [=].
  - assert (0 < size (tokenSet a ∪ tokenSet b))%nat as Hpos.
    { destruct (size (tokenSet a ∪ tokenSet b)) eqn:E; [|lia].
      apply size_empty_inv in E. exfalso. apply Hempty. set_solver. }
    rewrite js_div_pos by done. split.
    + split.
      * intros H%Num_inj. apply ratio_one_iff in H; [|done].
        assert (tokenSet a ∩ tokenSet b ≡ tokenSet a ∪ tokenSet b) as Heq.
        { apply set_subseteq_size_equiv; [set_solver | lia]. }
        apply leibniz_equiv. set_solver.
      * intros Heq. f_equal. apply ratio_one_iff; [done|].
        rewrite Heq. by rewrite (idemp_L (∩)), (idemp_L (∪)).
    + split.
      * intros H%Num_inj. apply ratio_zero_iff in H; [|done]. split; [|done].
        by apply leibniz_equiv, size_empty_inv.
      * intros [Hdisjoint _]. f_equal. apply ratio_zero_iff; [done|].
        by rewrite Hdisjoint, size_empty.
Qed.

Lemma pickLoop_member (pool recent : list string) (threshold : Qc)
    (rest : list string) :
  reason (pickLoop pool recent threshold rest) = "selected"
  ∧ value (pickLoop pool recent threshold rest) ∈ rest
  ∨ pickLoop pool recent threshold rest
    = {| value := default EmptyString (head pool); reason := fallback_reason |}.
Proof.
  induction rest as [|candidate rest IH]; simpl; [by right|].
  case_bool_decide.
  { destruct IH as [[? ?] | ?]; [left; split; [done | by right] | by right]. }
  destruct (isTooSimilar candidate recent threshold).
  { destruct IH as [[? ?] | ?]; [left; split; [done | by right] | by right]. }
  left. split; [done | by left].
Qed.

(** X3: What [pickNextPost] returns is an entry of the pool, whatever the
    history; it is the empty string only for the empty pool or when the
    pool has it.  With an empty history, the first entry of a pool is
    selected. *)
Theorem pickNextPost_from_pool (pool recent : list string) (threshold : Qc) :
  (value (pickNextPost pool recent threshold) ∈ pool
   ∨ pool = [] ∧ pickNextPost pool recent threshold
                 = {| value := EmptyString; reason := fallback_reason |})
  ∧ pickNextPost pool [] threshold
    = match pool with
      | [] => {| value := EmptyString; reason := fallback_reason |}
      | candidate :: _ => {| value := candidate; reason := "selected" |}
      end.
Proof.
  split; [|by destruct pool].
  unfold pickNextPost.
  destruct (pickLoop_member pool recent threshold pool) as [[_ Hin] | ->];
    [by left|].
  destruct pool as [|candidate pool]; [by right | left; by left].
Qed.

End MoreSimilarity.

(** ** The preparation of rows *)

Section MoreApp.
Import Similarity App.
Local Open Scope list_scope.

Lemma prepareLoop_snoc (rows : list (gmap string string)) (row : gmap string string) :
  prepareLoop (rows ++ [row]) = prepareRow (prepareLoop rows) row.
Proof. unfold prepareLoop. by rewrite foldl_snoc. Qed.

Lemma pickLoop_selected (pool recent : list string) (threshold : Qc)
    (rest : list string) :
  reason (pickLoop pool recent threshold rest) = "selected" →
  head recent ≠ Some (value (pickLoop pool recent threshold rest)).
Proof.
  destruct (pickLoop_spec pool recent threshold rest)
    as [(before & candidate & after & _ & _ & Hnot & ->) | [_ ->]]; simpl.
  - intros _ Hhead. apply Hnot. by left.
  - intros [=].
Qed.

(** What [prepareRow] pushes for [row] when the history is [recent]. *)
Lemma prepareRow_pushes (processed : list (gmap string string)) (recent : list string)
    (row : gmap string string) :
  ∃ row',
    (prepareRow (processed, recent) row).1 = processed ++ [row']
    ∧ (∀ key, key ≠ "post" → key ≠ "post_reason" → row' !! key = row !! key)
    ∧ (postOptions row = [] →
       row' = row ∧ (prepareRow (processed, recent) row).2 = recent)
    ∧ (postOptions row ≠ [] →
       ∃ post,
         row' !! "post" = Some post ∧ post ∈ postOptions row
         ∧ head (prepareRow (processed, recent) row).2 = Some post
         ∧ (length (prepareRow (processed, recent) row).2
            ≤ Nat.max 5 (length recent))%nat
         ∧ (row' !! "post_reason" = Some "selected" → head recent ≠ Some post)).
Proof.
  unfold prepareRow. destruct (postOptions row) as [|option options] eqn:Hoptions.
  { exists row. simpl. repeat split; done. }
  replace (0 <? length (option :: options))%nat with true by done.
  cbv beta iota zeta.
  set (selection := pickNextPost (option :: options) recent defaultThreshold).
  cbn [fst snd].
  eexists. split; [done|]. split.
  { intros key H1 H2. by rewrite !lookup_insert_ne. }
  split; [done|]. intros _. exists (value selection).
  split; [by rewrite lookup_insert_ne, lookup_insert_eq|]. split.
  { unfold selection, pickNextPost.
    destruct (pickLoop_member (option :: options) recent defaultThreshold
                (option :: options)) as [[_ Hin] | ->]; [done | by left]. }
  split.
  { cbn [length]. destruct (Nat.ltb_spec 5 (S (length recent))); [|done].
    destruct recent; simpl in *; [lia | done]. }
  split.
  { cbn [length]. destruct (Nat.ltb_spec 5 (S (length recent))).
    - rewrite length_take. cbn [length]. lia.
    - cbn [length]. lia. }
  rewrite lookup_insert_eq. intros [= Hreason].
  by apply pickLoop_selected.
Qed.

(** X4: [prepareRowsForRun] returns one row for each row, in the same order.
    A row without post options is returned as it is; a row with options
    keeps all its fields but [post] and [post_reason], and its [post] is
    one of its options. *)
Theorem prepareRowsForRun_rows (rows : list (gmap string string)) :
  length (prepareRowsForRun rows) = length rows
  ∧ ∀ i row, rows !! i = Some row →
      ∃ row', prepareRowsForRun rows !! i = Some row'
              ∧ (∀ key, key ≠ "post" → key ≠ "post_reason" → row' !! key = row !! key)
              ∧ (postOptions row = [] → row' = row)
              ∧ (postOptions row ≠ [] →
                 ∃ post, row' !! "post" = Some post ∧ post ∈ postOptions row).
Proof.
  unfold prepareRowsForRun. induction rows as [|last rows IH] using rev_ind.
  { split; [done|]. intros i row Hrow. done. }
  destruct IH as [Hlen Hrows]. rewrite prepareLoop_snoc.
  destruct (prepareLoop rows) as [processed recent]. simpl in Hlen, Hrows.
  destruct (prepareRow_pushes processed recent last)
    as (row' & -> & Hkeys & Hnone & Hsome).
  split.
  { rewrite !length_app. simpl. lia. }
  intros i row Hrow. apply lookup_app_Some in Hrow as [Hrow | [Hi Hrow]].
  - destruct (Hrows i row Hrow) as (r & Hr & ?). exists r.
    split; [|done]. by apply lookup_app_l_Some.
  - apply list_lookup_singleton_Some in Hrow as [Hzero <-].
    exists row'. split.
    + rewrite lookup_app_r by lia. replace (i - length processed)%nat with 0%nat by lia.
      done.
    + split; [done|]. split; [by intros H; apply Hnone|].
      intros H. destruct (Hsome H) as (post & ? & ? & _). by exists post.
Qed.

(** X5: The history [recentPosts] never holds more than five posts.  After a
    row with options, its first entry is the post given to that row; and
    when that post is marked "selected", it differs from the entry that
    was first before, the post given to the previous row with options. *)
Theorem prepareRowsForRun_history (before : list (gmap string string))
    (row : gmap string string) :
  (length (prepareLoop before).2 ≤ 5)%nat
  ∧ (postOptions row = [] → (prepareLoop (before ++ [row])).2 = (prepareLoop before).2)
  ∧ (postOptions row ≠ [] →
     ∃ row' post,
       last (prepareRowsForRun (before ++ [row])) = Some row'
       ∧ row' !! "post" = Some post
       ∧ head (prepareLoop (before ++ [row])).2 = Some post
       ∧ (row' !! "post_reason" = Some "selected" →
          head (prepareLoop before).2 ≠ Some post)).
Proof.
  assert (∀ rows, (length (prepareLoop rows).2 ≤ 5)%nat) as Hfive.
  { induction rows as [|r rows IH] using rev_ind; [simpl; lia|].
    rewrite prepareLoop_snoc. destruct (prepareLoop rows) as [processed recent].
    destruct (prepareRow_pushes processed recent r) as (row' & _ & _ & Hnone & Hsome).
    destruct (postOptions r) eqn:Hr.
    - destruct (Hnone eq_refl) as [_ ->]. done.
    - destruct (Hsome ltac:(done)) as (post & _ & _ & _ & Hlen & _).
      simpl in *. lia. }
  split; [apply Hfive|]. unfold prepareRowsForRun. rewrite prepareLoop_snoc.
  destruct (prepareLoop before) as [processed recent].
  destruct (prepareRow_pushes processed recent row) as (row' & Hfst & _ & Hnone & Hsome).
  split.
  - intros H. by destruct (Hnone H) as [_ ->].
  - intros H. destruct (Hsome H) as (post & Hpost & _ & Hhead & _ & Hsel).
    exists row', post. rewrite Hfst, last_snoc. done.
Qed.

End MoreApp.

(** ** Tabular text *)

Section MoreCsv.
Import Schema Csv.
Local Open Scope list_scope.

Lemma append_cons (c : ascii) (s s' : string) :
  String c s +:+ s' = String c (s +:+ s').
Proof. done. Qed.

Lemma append_empty_l (s : string) : EmptyString +:+ s = s.
Proof. done. Qed.

Lemma append_empty_r (s : string) : s +:+ EmptyString = s.
Proof. induction s as [|c s IH]; [done | by rewrite append_cons, IH]. Qed.

Lemma append_assoc (s1 s2 s3 : string) : (s1 +:+ s2) +:+ s3 = s1 +:+ (s2 +:+ s3).
Proof. induction s1 as [|c s1 IH]; [done | by rewrite !append_cons, IH]. Qed.

Lemma append_char (current : string) (c : ascii) (s : string) :
  (current +:+ String c EmptyString) +:+ s = current +:+ String c s.
Proof. by rewrite append_assoc, append_cons, append_empty_l. Qed.

(** Inside quotes the loop reads a value with its quotes doubled up
    to the closing quote. *)
Lemma parseCsvLoop_quoted (value : string) :
  ∀ values current tail,
    after_value tail →
    parseCsvLoop values current true (doubleQuotes value +:+ String QUOTE tail)
    = parseCsvLoop values (current +:+ value) false tail.
Proof.
  induction value as [|c value IH]; intros values current tail Htail.
  - rewrite append_empty_r. cbn [doubleQuotes]. rewrite append_empty_l.
    cbn [parseCsvLoop].
    rewrite bool_decide_eq_true_2 by done.
    destruct tail as [|next tail']; [done|].
    cbn in Htail. rewrite (bool_decide_eq_false_2 (next = QUOTE)) by done. done.
  - cbn [doubleQuotes]. destruct (decide (c = QUOTE)) as [->|Hc].
    + rewrite bool_decide_eq_true_2 by done.
      rewrite !append_cons. cbn [parseCsvLoop].
      rewrite !bool_decide_eq_true_2 by done.
      cbn [andb]. rewrite IH by done. by rewrite append_char.
    + rewrite bool_decide_eq_false_2 by done.
      rewrite append_cons. cbn [parseCsvLoop].
      rewrite bool_decide_eq_false_2 by done.
      rewrite andb_false_r. rewrite IH by done. by rewrite append_char.
Qed.

(** Outside quotes the loop reads a value without comma and quote as
    it is. *)
Lemma parseCsvLoop_plain (value : string) :
  ∀ values current tail,
    Text.includes COMMA value = false →
    Text.includes QUOTE value = false →
    parseCsvLoop values current false (value +:+ tail)
    = parseCsvLoop values (current +:+ value) false tail.
Proof.
  induction value as [|c value IH]; intros values current tail Hcomma Hquote.
  - by rewrite append_empty_r.
  - cbn [Text.includes] in Hcomma, Hquote.
    apply orb_false_iff in Hcomma as [Hc1 Hcomma].
    apply orb_false_iff in Hquote as [Hc2 Hquote].
    rewrite append_cons. cbn [parseCsvLoop].
    apply bool_decide_eq_false in Hc1, Hc2.
    rewrite (bool_decide_eq_false_2 (c = QUOTE)) by done.
    rewrite (bool_decide_eq_false_2 (c = COMMA)) by done. cbn [andb].
    rewrite IH by done. by rewrite append_char.
Qed.

Lemma parseCsvLoop_escaped (value : string) values current tail :
  after_value tail →
  parseCsvLoop values current false (escapeCsvValue value +:+ tail)
  = parseCsvLoop values (current +:+ value) false tail.
Proof.
  intros Htail. unfold escapeCsvValue.
  destruct (Text.includes COMMA value) eqn:Hcomma;
    [|destruct (Text.includes QUOTE value) eqn:Hquote];
    cbn [orb].
  3: destruct (Text.includes LF value); [|by apply parseCsvLoop_plain].
  all: rewrite append_cons, append_assoc, append_cons, append_empty_l;
    rewrite <- (parseCsvLoop_quoted value values current tail Htail);
    cbn [parseCsvLoop]; rewrite bool_decide_eq_true_2 by done;
    by destruct (doubleQuotes value +:+ String QUOTE tail).
Qed.

Lemma parseCsvLoop_line (rest : list string) :
  ∀ values value,
    parseCsvLoop values EmptyString false (serializeLine (value :: rest))
    = values ++ value :: rest.
Proof.
  unfold serializeLine.
  induction rest as [|value' rest IH]; intros values value.
  - cbn [map Text.join].
    rewrite <- (append_empty_r (escapeCsvValue value)).
    by rewrite parseCsvLoop_escaped.
  - change (Text.join _ (map escapeCsvValue (value :: value' :: rest)))
      with (escapeCsvValue value
            +:+ String COMMA (Text.join (String COMMA EmptyString)
                                        (map escapeCsvValue (value' :: rest)))).
    rewrite parseCsvLoop_escaped by done.
    cbn [parseCsvLoop].
    rewrite bool_decide_eq_false_2 by done.
    rewrite bool_decide_eq_true_2 by done. cbn [andb negb].
    rewrite IH. by rewrite <- app_assoc.
Qed.

(** X6: a line written by [serializeCsv] (each value escaped, commas
    between them) is read back by [parseCsvLine] as the values it was
    written from, whatever commas, quotes and line feeds they hold;
    the line of no value at all reads back as one empty value. *)
Theorem parseCsvLine_serialized (values : list string) :
  parseCsvLine (serializeLine values)
  = match values with [] => [EmptyString] | _ :: _ => values end.
Proof.
  destruct values as [|value rest]; [done|].
  unfold parseCsvLine. by rewrite parseCsvLoop_line.
Qed.

(** *** Reading back a whole table *)

Lemma includes_app (c : ascii) (s s' : string) :
  Text.includes c (s +:+ s') = Text.includes c s || Text.includes c s'.
Proof.
  induction s as [|c' s IH]; [done|].
  rewrite append_cons. cbn [Text.includes]. by rewrite IH, orb_assoc.
Qed.

Lemma includes_doubleQuotes (c : ascii) (value : string) :
  c ≠ QUOTE → Text.includes c (doubleQuotes value) = Text.includes c value.
Proof.
  intros Hc. induction value as [|c' value IH]; [done|].
  cbn [doubleQuotes Text.includes]. destruct (decide (c' = QUOTE)) as [->|Hc'].
  - rewrite bool_decide_eq_true_2 by done. cbn [Text.includes].
    rewrite (bool_decide_eq_false_2 (QUOTE = c)) by done. by rewrite IH.
  - rewrite (bool_decide_eq_false_2 (c' = QUOTE)) by done. cbn [Text.includes].
    by rewrite IH.
Qed.

Lemma includes_escapeCsvValue (c : ascii) (value : string) :
  c ≠ QUOTE → Text.includes c (escapeCsvValue value) = Text.includes c value.
Proof.
  intros Hc. unfold escapeCsvValue.
  destruct (_ || _ || _); [|done].
  cbn [Text.includes]. rewrite includes_app, includes_doubleQuotes by done.
  cbn [Text.includes]. rewrite (bool_decide_eq_false_2 (QUOTE = c)) by done.
  by rewrite !orb_false_r.
Qed.

Lemma includes_join (c : ascii) (sep : string) (pieces : list string) :
  Text.includes c sep = false →
  Forall (λ piece, Text.includes c piece = false) pieces →
  Text.includes c (Text.join sep pieces) = false.
Proof.
  intros Hsep. induction 1 as [|piece pieces Hpiece Hpieces IH]; [done|].
  destruct pieces as [|piece' pieces]; [done|].
  change (Text.join sep (piece :: piece' :: pieces))
    with (piece +:+ sep +:+ Text.join sep (piece' :: pieces)).
  by rewrite !includes_app, Hpiece, Hsep, IH.
Qed.

Lemma includes_serializeLine (c : ascii) (values : list string) :
  c ≠ QUOTE → c ≠ COMMA →
  Forall (λ value, Text.includes c value = false) values →
  Text.includes c (serializeLine values) = false.
Proof.
  intros Hquote Hcomma Hvalues. apply includes_join.
  - cbn [Text.includes]. by rewrite (bool_decide_eq_false_2 (COMMA = c)).
  - apply Forall_map. eapply Forall_impl; [done|].
    intros value Hvalue. cbn beta. by rewrite includes_escapeCsvValue.
Qed.

Lemma crlf_to_lf_id (value : string) :
  Text.includes CR value = false → crlf_to_lf value = value.
Proof.
  induction value as [|c rest IH]; [done|].
  cbn [Text.includes]. intros [Hc Hrest]%orb_false_iff.
  cbn [crlf_to_lf]. destruct rest as [|c' rest']; [done|].
  rewrite Hc. cbn [andb]. by rewrite IH.
Qed.

Lemma cr_to_lf_id (value : string) :
  Text.includes CR value = false → cr_to_lf value = value.
Proof.
  unfold cr_to_lf. induction value as [|c rest IH]; [done|].
  cbn [Text.includes Similarity.map_chars]. intros [Hc Hrest]%orb_false_iff.
  by rewrite Hc, IH.
Qed.

Lemma normalizeLine_id (value : string) :
  Text.includes CR value = false → normalizeLine value = value.
Proof.
  intros Hvalue. unfold normalizeLine. by rewrite crlf_to_lf_id, cr_to_lf_id.
Qed.

Lemma split_piece (sep : ascii) (piece : string) :
  Text.includes sep piece = false → Text.split sep piece = [piece].
Proof.
  induction piece as [|c piece IH]; [done|].
  cbn [Text.includes Text.split]. intros [Hc Hpiece]%orb_false_iff.
  by rewrite Hc, IH.
Qed.

Lemma split_piece_sep (sep : ascii) (piece rest : string) :
  Text.includes sep piece = false →
  Text.split sep (piece +:+ String sep rest) = piece :: Text.split sep rest.
Proof.
  induction piece as [|c piece IH].
  - intros _. rewrite append_empty_l. cbn [Text.split].
    by rewrite bool_decide_eq_true_2.
  - cbn [Text.includes]. intros [Hc Hpiece]%orb_false_iff.
    rewrite append_cons. cbn [Text.split]. by rewrite Hc, IH.
Qed.

Lemma split_join (sep : ascii) (piece : string) (pieces : list string) :
  Forall (λ piece, Text.includes sep piece = false) (piece :: pieces) →
  Text.split sep (Text.join (String sep EmptyString) (piece :: pieces))
  = piece :: pieces.
Proof.
  revert piece. induction pieces as [|piece' pieces IH]; intros piece Hpieces.
  - apply split_piece. by inversion Hpieces.
  - change (Text.join _ (piece :: piece' :: pieces))
      with (piece +:+ String sep (Text.join (String sep EmptyString) (piece' :: pieces))).
    inversion Hpieces; subst. by rewrite split_piece_sep, IH.
Qed.

Lemma assign_lookup (key value : string) (row : gmap string string) (key' : string) :
  assign key value row !! key'
  = if decide (key' = key ∧ key ≠ "__proto__") then Some value else row !! key'.
Proof.
  unfold assign. destruct (decide (key = "__proto__")) as [->|Hkey].
  - rewrite bool_decide_eq_true_2 by done. by rewrite decide_False by tauto.
  - rewrite bool_decide_eq_false_2 by done.
    destruct (decide (key' = key)) as [->|Hne].
    + rewrite decide_True by done. apply lookup_insert_eq.
    + rewrite decide_False by tauto. by apply lookup_insert_ne.
Qed.

Lemma fillRow_lookup (f : string → string) (headers values : list string) :
  ∀ index row key,
    "__proto__" ∉ headers →
    (∀ j header, headers !! j = Some header →
                 default EmptyString (values !! (index + j)%nat) = f header) →
    fillRow index headers values row !! key
    = if decide (key ∈ headers) then Some (f key) else row !! key.
Proof.
  induction headers as [|header headers IH]; intros index row key Hproto Hvalues.
  - cbn [fillRow]. destruct (decide _) as [Hin|]; [by apply elem_of_nil in Hin | done].
  - cbn [fillRow]. rewrite IH; [|set_solver|]; last first.
    { intros j header' Hj. rewrite <- (Hvalues (S j) header' Hj). f_equal. f_equal. lia. }
    destruct (decide (key ∈ headers)) as [Hin|Hnotin].
    + by rewrite decide_True by set_solver.
    + rewrite assign_lookup. destruct (decide (key = header)) as [->|Hne].
      * rewrite decide_True by set_solver. rewrite decide_True by set_solver.
        by rewrite <- (Hvalues 0%nat header eq_refl), Nat.add_0_r.
      * rewrite decide_False by tauto. by rewrite decide_False by set_solver.
Qed.

Lemma restrict_lookup (headers : list string) (row : gmap string string) key :
  restrict headers row !! key
  = if decide (key ∈ headers) then Some (default EmptyString (row !! key)) else None.
Proof.
  unfold restrict. induction headers as [|header headers IH].
  - cbn. destruct (decide _) as [Hin|]; [by apply elem_of_nil in Hin | done].
  - cbn [map list_to_map]. destruct (decide (key = header)) as [->|Hne].
    + rewrite decide_True by set_solver. cbn. by rewrite lookup_insert_eq.
    + cbn. rewrite lookup_insert_ne by done. rewrite IH.
      destruct (decide (key ∈ headers)).
      * by rewrite decide_True by set_solver.
      * by rewrite decide_False by set_solver.
Qed.

Lemma fillRow_restrict (headers : list string) (row : gmap string string) :
  "__proto__" ∉ headers →
  fillRow 0 headers (map (λ header, default EmptyString (row !! header)) headers) ∅
  = restrict headers row.
Proof.
  intros Hproto. apply map_eq. intros key.
  rewrite (fillRow_lookup (λ header, default EmptyString (row !! header))), restrict_lookup.
  - by rewrite lookup_empty.
  - done.
  - intros j header Hj. cbn [Nat.add].
    by rewrite list_lookup_fmap, Hj.
Qed.

Lemma mapM_field (row : gmap string string) (headers : list string) :
  Forall (λ header, header ∉ OBJECT_PROTOTYPE) headers →
  mapM (field row) headers
  = Normal (map (λ header, default EmptyString (row !! header)) headers).
Proof.
  induction 1 as [|header headers Hheader Hheaders IH]; [done|].
  cbn [mapM]. rewrite IH. unfold field.
  rewrite (bool_decide_eq_false_2 (header ∈ OBJECT_PROTOTYPE)) by done.
  cbn [map]. by destruct (row !! header).
Qed.

Lemma mapM_serializeRow (headers : list string) (rows : list (gmap string string)) :
  Forall (λ header, header ∉ OBJECT_PROTOTYPE) headers →
  mapM (serializeRow headers) rows
  = Normal (map (λ row, serializeLine
                          (map (λ header, default EmptyString (row !! header)) headers))
                rows).
Proof.
  intros Hheaders. induction rows as [|row rows IH]; [done|].
  cbn [mapM]. rewrite IH. unfold serializeRow. by rewrite mapM_field.
Qed.

(** X7: a table written by [serializeCsv] is read back by [parseCsv]
    with the same headers and, row by row, the fields of the headers
    (a field the row lacks reads back empty, fields outside the
    headers are not written), provided there is a header, no header is
    a name that row objects inherit ([toString], [constructor], ..),
    no header or field holds a line break, and the text written
    neither is empty nor begins or ends with white space, which
    [parseCsv] trims away.  Commas and quotes in headers and fields
    are kept. *)
Theorem parseCsv_serializeCsv (headers : list string) (rows : list (gmap string string)) :
  headers ≠ [] →
  Forall (λ header, (header ∉ OBJECT_PROTOTYPE) ∧ single_line header = true) headers →
  Forall (λ row, Forall (λ header, single_line (default EmptyString (row !! header)) = true)
                        headers) rows →
  ∃ text,
    serializeCsv headers rows = Normal text
    ∧ (text ≠ EmptyString → Text.trim text = text →
       parseCsv text
       = {| Csv.headers := headers; Csv.rows := map (restrict headers) rows |}).
Proof.
  intros Hne Hheaders Hrows.
  assert (Hown : Forall (λ header, header ∉ OBJECT_PROTOTYPE) headers).
  { eapply Forall_impl; [exact Hheaders|]. by intros header [? _]. }
  assert (Hproto : "__proto__" ∉ headers).
  { intros Hin. rewrite Forall_forall in Hown. apply (Hown _ Hin).
    unfold OBJECT_PROTOTYPE. set_solver. }
  set (line (row : gmap string string) :=
         serializeLine (map (λ header, default EmptyString (row !! header)) headers)).
  set (text := Text.join (String LF EmptyString) (serializeLine headers :: map line rows)).
  exists text. split.
  { unfold serializeCsv. by rewrite mapM_serializeRow. }
  intros Hfilled Htrimmed.
  assert (Hlines : ∀ c, c = LF ∨ c = CR →
            Forall (λ piece, Text.includes c piece = false)
                   (serializeLine headers :: map line rows)).
  { intros c Hc.
    assert (c ≠ QUOTE ∧ c ≠ COMMA) as [Hquote Hcomma] by (by destruct Hc as [->| ->]).
    assert (Hsingle : ∀ value, single_line value = true → Text.includes c value = false).
    { unfold single_line. intros value [H1 H2]%andb_true_iff.
      apply negb_true_iff in H1, H2. by destruct Hc as [->| ->]. }
    constructor.
    - apply includes_serializeLine; [done..|].
      eapply Forall_impl; [exact Hheaders|]. intros header [_ ?]. by apply Hsingle.
    - apply Forall_map. eapply Forall_impl; [exact Hrows|].
      intros row Hrow. cbn beta. apply includes_serializeLine; [done..|].
      apply Forall_map. eapply Forall_impl; [exact Hrow|].
      intros header. apply Hsingle. }
  assert (Hcr : Text.includes CR text = false).
  { apply includes_join; [done | apply Hlines; by right]. }
  unfold parseCsv. rewrite (normalizeLine_id _ Hcr), Htrimmed.
  destruct text as [|c text'] eqn:Htext; [done|].
  cbn [Text.is_empty]. rewrite <- Htext. subst text.
  rewrite split_join by (apply Hlines; by left).
  cbn [head tail from_option id].
  destruct headers as [|header headers']; [done|].
  assert (Hread : parseCsvLine (serializeLine (header :: headers')) = header :: headers').
  { unfold parseCsvLine. by rewrite parseCsvLoop_line. }
  rewrite Hread. f_equal. rewrite map_map. apply map_ext. intros row.
  unfold line, parseCsvLine. cbn [map]. rewrite parseCsvLoop_line. cbn [app].
  by apply (fillRow_restrict (header :: headers') row).
Qed.

Lemma mapM_throws {A B : Type} (f : A → completion B) (l : list A) :
  (∃ error, mapM f l = Throw error) ↔ ∃ x, x ∈ l ∧ ∃ error, f x = Throw error.
Proof.
  induction l as [|x l IH].
  - split; [by intros [error [=]] | intros (x & Hin & _); by apply elem_of_nil in Hin].
  - cbn [mapM]. destruct (f x) as [y|error] eqn:Hx.
    + change (Normal y ≫= ?k) with (k y). cbv beta.
      destruct (mapM f l) as [ys|error] eqn:Hl.
      * split; [by intros [error [=]]|]. intros (x' & Hin & error & Herror).
        apply elem_of_cons in Hin as [->|Hin]; [congruence|].
        destruct (proj2 IH) as [error' [=]]. eauto.
      * split; [|by eexists]. intros _.
        destruct (proj1 IH) as (x' & Hin & Herror); [by eexists|].
        exists x'. split; [by right | done].
    + split; [|by eexists]. intros _. exists x. split; [by left | by eexists].
Qed.

Lemma field_throws (row : gmap string string) (header : string) :
  (∃ error, field row header = Throw error)
  ↔ header ∈ OBJECT_PROTOTYPE ∧ row !! header = None.
Proof.
  unfold field. destruct (row !! header) as [value|].
  - split; [by intros [error [=]] | by intros [_ [=]]].
  - destruct (decide (header ∈ OBJECT_PROTOTYPE)) as [Hin|Hnotin].
    + rewrite bool_decide_eq_true_2 by done. split; [done | by eexists].
    + rewrite bool_decide_eq_false_2 by done. split; [by intros [error [=]] | tauto].
Qed.

(** X8: [serializeCsv] throws exactly when some row has no field of
    its own under a header that names a property row objects inherit
    ([toString], [constructor], [__proto__], ..): what [row[header]]
    reads then is no string.  Otherwise it returns the text. *)
Theorem serializeCsv_throws (headers : list string) (rows : list (gmap string string)) :
  (∃ error, serializeCsv headers rows = Throw error)
  ↔ ∃ row header, row ∈ rows ∧ header ∈ headers
                  ∧ header ∈ OBJECT_PROTOTYPE ∧ row !! header = None.
Proof.
  unfold serializeCsv. cbv zeta.
  destruct (mapM (serializeRow headers) rows) as [lines|error] eqn:Hlines.
  - split; [by intros [error [=]]|]. intros (row & header & Hrow & Hheader & Hfield).
    assert (∃ error, mapM (serializeRow headers) rows = Throw error) as [error Herror];
      [|congruence].
    apply mapM_throws. exists row. split; [done|]. unfold serializeRow.
    assert (∃ error, mapM (field row) headers = Throw error) as [error ->];
      [|by eexists].
    apply mapM_throws. exists header. split; [done|]. by apply field_throws.
  - split; [|by eexists]. intros _.
    destruct (proj1 (mapM_throws _ _) (ex_intro _ error Hlines))
      as (row & Hrow & error' & Herror).
    unfold serializeRow in Herror.
    destruct (mapM (field row) headers) as [values|error''] eqn:Hvalues; [done|].
    destruct (proj1 (mapM_throws _ _) (ex_intro _ error'' Hvalues))
      as (header & Hheader & Hfield).
    exists row, header. split; [done|]. split; [done|]. by apply field_throws.
Qed.

(** *** Reading any text *)

Lemma string_pair_ind (P : string → Prop) :
  P EmptyString →
  (∀ c, P (String c EmptyString)) →
  (∀ c c' s, P s → P (String c' s) → P (String c (String c' s))) →
  ∀ s, P s.
Proof.
  intros Hnil Hone Hstep s.
  cut (P s ∧ ∀ c, P (String c s)); [tauto|].
  induction s as [|c' s [IH1 IH2]]; [done|].
  split; [apply IH2|]. intros c. by apply Hstep.
Qed.

Lemma parseCsvLoop_length (line : string) :
  ∀ values current inQuotes,
    (length values < length (parseCsvLoop values current inQuotes line))%nat.
Proof.
  induction line as [|char|char next rest IH1 IH2] using string_pair_ind;
    intros values current inQuotes.
  - cbn [parseCsvLoop]. rewrite length_app. cbn. lia.
  - cbn [parseCsvLoop].
    destruct (bool_decide (char = QUOTE)); [rewrite length_app; cbn; lia|].
    destruct (_ && _); rewrite ?length_app; cbn; lia.
  - cbn [parseCsvLoop] in *. destruct (bool_decide (char = QUOTE)).
    + destruct (inQuotes && bool_decide (next = QUOTE)); [apply IH1 | apply IH2].
    + destruct (_ && negb inQuotes); [|apply IH2].
      etrans; [|apply IH2]. rewrite length_app. cbn. lia.
Qed.

Lemma parseCsvLine_values (line : string) : parseCsvLine line ≠ [].
Proof.
  intros Hline. pose proof (parseCsvLoop_length line [] EmptyString false) as Hlen.
  unfold parseCsvLine in Hline. rewrite Hline in Hlen. cbn in Hlen. lia.
Qed.

Lemma fillRow_lookup_notin (headers values : list string) :
  ∀ index row key,
    key ∉ headers → fillRow index headers values row !! key = row !! key.
Proof.
  induction headers as [|header headers IH]; intros index row key Hkey; [done|].
  cbn [fillRow]. rewrite IH by set_solver. rewrite assign_lookup.
  apply decide_False. set_solver.
Qed.

Lemma fillRow_lookup_in (headers values : list string) :
  ∀ index row key,
    key ∈ headers → key ≠ "__proto__" →
    is_Some (fillRow index headers values row !! key).
Proof.
  induction headers as [|header headers IH]; intros index row key Hkey Hproto.
  - by apply elem_of_nil in Hkey.
  - cbn [fillRow]. destruct (decide (key ∈ headers)) as [Hin|Hnotin]; [by apply IH|].
    rewrite fillRow_lookup_notin by done.
    assert (key = header) as -> by set_solver.
    rewrite assign_lookup, decide_True by done. by eexists.
Qed.

Lemma fillRow_lookup_proto (headers values : list string) :
  ∀ index row,
    fillRow index headers values row !! "__proto__" = row !! "__proto__".
Proof.
  induction headers as [|header headers IH]; intros index row; [done|].
  cbn [fillRow]. rewrite IH, assign_lookup. apply decide_False. by intros [<- ?].
Qed.

Lemma fillRow_lookup_last (headers values : list string) :
  ∀ index row j header,
    headers !! j = Some header →
    header ∉ drop (S j) headers →
    header ≠ "__proto__" →
    fillRow index headers values row !! header
    = Some (default EmptyString (values !! (index + j)%nat)).
Proof.
  induction headers as [|header' headers IH];
    intros index row j header Hj Hlast Hproto; [done|].
  cbn [fillRow]. destruct j as [|j].
  - injection Hj as ->. cbn [drop] in Hlast. rewrite drop_0 in Hlast.
    rewrite fillRow_lookup_notin by done.
    by rewrite assign_lookup, decide_True, Nat.add_0_r.
  - cbn in Hj. cbn [drop] in Hlast.
    rewrite (IH _ _ j) by done. do 3 f_equal. lia.
Qed.

Lemma split_pieces (sep : ascii) (s : string) : Text.split sep s ≠ [].
Proof.
  destruct s as [|c s]; [done|]. cbn [Text.split].
  destruct (bool_decide (c = sep)); [done|]. by destruct (Text.split sep s).
Qed.

(** X9: what [parseCsv] makes of any text.  With [normalized] the
    text after line-break normalisation and trimming: a blank text
    gives no headers and no rows; otherwise there is at least one
    header and one row for every line after the first.  Every row has
    exactly the headers as its fields, but for a header [__proto__],
    which gives no field; the field of a header is the value at the
    header's position in the row's line, empty when the line has fewer
    values (values beyond the headers are dropped), and of a header
    that occurs more than once the last position counts. *)
Theorem parseCsv_table (input : string) :
  let table := parseCsv input in
  let normalized := Text.trim (normalizeLine input) in
  (normalized = EmptyString → table = {| headers := []; rows := [] |})
  ∧ (normalized ≠ EmptyString →
     headers table ≠ []
     ∧ S (length (rows table)) = length (Text.split LF normalized))
  ∧ (∀ i row,
       rows table !! i = Some row →
       (∀ key, is_Some (row !! key) ↔ key ∈ headers table ∧ key ≠ "__proto__")
       ∧ ∃ line,
           Text.split LF normalized !! S i = Some line
           ∧ ∀ j header,
               headers table !! j = Some header →
               header ∉ drop (S j) (headers table) →
               header ≠ "__proto__" →
               row !! header
               = Some (default EmptyString (parseCsvLine line !! j))).
Proof.
  intros table normalized. subst table. unfold parseCsv. fold normalized.
  clearbody normalized.
  destruct (Text.is_empty normalized) eqn:Hempty.
  { destruct normalized; [|done].
    split; [done|]. split; [done|]. by intros i row Hrow. }
  split; [by intros ->|].
  pose proof (split_pieces LF normalized) as Hlines.
  destruct (Text.split LF normalized) as [|first lines]; [done|]. clear Hlines.
  cbn [head tail from_option id headers rows].
  split.
  { intros _. split; [apply parseCsvLine_values|]. by rewrite length_map. }
  intros i row Hrow. rewrite list_lookup_fmap in Hrow.
  destruct (lines !! i) as [line|] eqn:Hline; [|done].
  injection Hrow as <-. split.
  - intros key. split.
    + intros Hsome. split.
      * destruct (decide (key ∈ parseCsvLine first)) as [|Hnotin]; [done|].
        rewrite fillRow_lookup_notin in Hsome by done.
        rewrite lookup_empty in Hsome. by destruct Hsome.
      * intros ->. rewrite fillRow_lookup_proto, lookup_empty in Hsome.
        by destruct Hsome.
    + intros [Hin Hproto]. by apply fillRow_lookup_in.
  - exists line. split; [done|]. intros j header Hj Hlast Hproto.
    by rewrite (fillRow_lookup_last _ _ 0 ∅ j).
Qed.

End MoreCsv.

Lemma not_inherited (header : string) :
  bool_decide (header ∈ Csv.OBJECT_PROTOTYPE) = false → header ∉ Csv.OBJECT_PROTOTYPE.
Proof. apply bool_decide_eq_false. Qed.

Lemma parseCsv_serializeCsv_witness :
  let headers := ["url"; "post"] in
  let rows : list (gmap string string) :=
    [{[ "url" := "https://example.com"; "post" := "Hello, world" ]}] in
  ∃ text,
    Csv.serializeCsv headers rows = Schema.Normal text
    ∧ text ≠ EmptyString ∧ Text.trim text = text
    ∧ Csv.parseCsv text
      = {| Csv.headers := headers; Csv.rows := map (Csv.restrict headers) rows |}.
Proof.
  cbv zeta.
  assert (H0 : ["url"; "post"] ≠ @nil string) by discriminate.
  assert (H1 : Forall (λ header, (header ∉ Csv.OBJECT_PROTOTYPE)
                                 ∧ Csv.single_line header = true) ["url"; "post"]).
  { apply Forall_cons. split.
    { split; [apply not_inherited|]; vm_compute; reflexivity. }
    apply Forall_cons. split; [|by apply Forall_nil].
    split; [apply not_inherited|]; vm_compute; reflexivity. }
  assert (H2 : Forall (λ row : gmap string string,
                   Forall (λ header, Csv.single_line (default EmptyString (row !! header)) = true)
                          ["url"; "post"])
                 [{[ "url" := "https://example.com"; "post" := "Hello, world" ]}]).
  { repeat constructor; vm_compute; reflexivity. }
  destruct (parseCsv_serializeCsv _ _ H0 H1 H2) as (text & Htext & Hparse).
  assert (Hvalue : Csv.serializeCsv ["url"; "post"]
                     [{[ "url" := "https://example.com"; "post" := "Hello, world" ]}]
                   = Schema.Normal
                       ("url,post" +:+ String Csv.LF
                          ("https://example.com,"
                           +:+ String Csv.QUOTE
                                 ("Hello, world" +:+ String Csv.QUOTE EmptyString)))).
  { vm_compute. reflexivity. }
  rewrite Hvalue in Htext. injection Htext as <-.
  assert (H3 : "url,post" +:+ String Csv.LF
                 ("https://example.com,"
                  +:+ String Csv.QUOTE ("Hello, world" +:+ String Csv.QUOTE EmptyString))
               ≠ EmptyString) by discriminate.
  assert (H4 : Text.trim ("url,post" +:+ String Csv.LF
                 ("https://example.com,"
                  +:+ String Csv.QUOTE ("Hello, world" +:+ String Csv.QUOTE EmptyString)))
               = "url,post" +:+ String Csv.LF
                 ("https://example.com,"
                  +:+ String Csv.QUOTE ("Hello, world" +:+ String Csv.QUOTE EmptyString))).
  { vm_compute. reflexivity. }
  eexists. split; [exact Hvalue|]. split; [exact H3|]. split; [exact H4|].
  exact (Hparse H3 H4).
Defined.

(** ** The transport seen from outside *)

Section MoreTransport.
Import Schema Transport TransportTrace.
Local Open Scope Z_scope.
Local Open Scope list_scope.

Variable types : gmap string (list string).

(** *** Settled promises: [resolve] and [reject] after the first are
    without effect *)

Lemma settle_kept (id other : nat) (s : Z * settlement) (s' : settlement)
    (t : ACPTransport) :
  settled t !! id = Some s → settled (settle other s' t) !! id = Some s.
Proof.
  intros Hid. unfold settle. destruct (settled t !! other) eqn:Hother; [done|].
  cbn. rewrite lookup_insert_ne; [done|]. congruence.
Qed.

Lemma dispatchWithRetry_settled (key : string) (t : ACPTransport) :
  settled (dispatchWithRetry key t) = settled t.
Proof. unfold dispatchWithRetry. by destruct (pending t !! key). Qed.

Lemma onTimeout_kept (id : nat) (s : Z * settlement) (key : string) (t : ACPTransport) :
  settled t !! id = Some s → settled (onTimeout key t) !! id = Some s.
Proof.
  intros Hid. unfold onTimeout. destruct (pending t !! key) as [current|]; [|done].
  destruct (retriesLeft current <=? 0).
  - by apply settle_kept.
  - by rewrite dispatchWithRetry_settled.
Qed.

Lemma handleIncoming_kept (id : nat) (s : Z * settlement) (message : unknown)
    (t : ACPTransport) :
  settled t !! id = Some s → settled (handleIncoming types message t) !! id = Some s.
Proof.
  intros Hid. unfold handleIncoming.
  destruct (validateMessage types message) as [[|]|]; [|done..].
  cbn [settled]. destruct (is_ack message); [|done].
  destruct (ackRequestId message) as [requestId|]; [|done].
  destruct (pending t !! requestId) as [entry|]; [|done].
  by apply settle_kept.
Qed.

Lemma sendCommand_settled (message : unknown) (timeoutMs retries : Z) (t : ACPTransport) :
  settled (sendCommand message timeoutMs retries t).1 = settled t.
Proof.
  unfold sendCommand. destruct (extractRequestId message) as [requestId|]; [|done].
  destruct (bool_decide (requestId = EmptyString)); [done|].
  destruct (1 <=? size (pending t))%nat; [done|].
  cbn [fst]. by rewrite dispatchWithRetry_settled.
Qed.

Lemma step_kept (id : nat) (s : Z * settlement) (t : ACPTransport) (e : event) :
  settled t !! id = Some s → settled (step types t e) !! id = Some s.
Proof.
  intros Hid. destruct e as [|message|message timeoutMs retries|message]; cbn [step].
  - unfold tick. destruct (earliest (timers t)) as [[due key]|]; [|done].
    by apply onTimeout_kept.
  - by apply handleIncoming_kept.
  - by rewrite sendCommand_settled.
  - done.
Qed.

Lemma run_kept (t : ACPTransport) (events : list event) (id : nat)
    (s : Z * settlement) :
  settled t !! id = Some s → settled (run types t events) !! id = Some s.
Proof.
  revert t. unfold run.
  induction events as [|e events IH]; intros t Hid; [done|].
  cbn [foldl]. by apply IH, step_kept.
Qed.

(** *** One command at a time *)

(** X11: in every state the transport reaches from its initial one, at
    most one command is pending; the promise of a pending command was
    created by [sendCommand] and is not settled yet; only promises that
    [sendCommand] created are settled; and no timer is overdue. *)
Theorem one_command_in_flight (events : list event) :
  let t := run types EMPTY_TRANSPORT events in
  (size (pending t) ≤ 1)%nat
  ∧ (∀ key entry, pending t !! key = Some entry →
       (promise entry < nextPromise t)%nat ∧ settled t !! promise entry = None)
  ∧ (∀ id, is_Some (settled t !! id) → (id < nextPromise t)%nat)
  ∧ Forall (λ timer, now t ≤ timer.1) (timers t).
Proof.
  intros t. destruct (run_sound types _ events EMPTY_TRANSPORT_sound)
    as [Htimers Hfresh Hsingle]. fold t in Htimers, Hfresh, Hsingle.
  clearbody t.
  split; [|split; [|split]]; [| | |done].
  - destruct Hsingle as [-> | (key & entry & -> & _)].
    + rewrite map_size_empty. lia.
    + by rewrite map_size_singleton.
  - intros key entry Hentry.
    destruct Hsingle as [Hnone | (key' & entry' & Hp & Hlt & Hopen)].
    + by rewrite Hnone in Hentry.
    + rewrite Hp in Hentry. by apply lookup_singleton_Some in Hentry as [_ <-].
  - intros id [s Hs]. destruct (decide (id < nextPromise t)%nat) as [|Hge]; [done|].
    rewrite Hfresh in Hs by lia. done.
Qed.

(** *** Listeners *)

Lemma dispatchWithRetry_heard (key : string) (t : ACPTransport) :
  heard (dispatchWithRetry key t) = heard t.
Proof. unfold dispatchWithRetry. by destruct (pending t !! key). Qed.

Lemma settle_heard (id : nat) (s : settlement) (t : ACPTransport) :
  heard (settle id s t) = heard t.
Proof. unfold settle. by destruct (settled t !! id). Qed.

Lemma onTimeout_heard (key : string) (t : ACPTransport) :
  heard (onTimeout key t) = heard t.
Proof.
  unfold onTimeout. destruct (pending t !! key) as [current|]; [|done].
  destruct (retriesLeft current <=? 0).
  - by rewrite settle_heard.
  - by rewrite dispatchWithRetry_heard.
Qed.

Lemma sendCommand_heard (message : unknown) (timeoutMs retries : Z) (t : ACPTransport) :
  heard (sendCommand message timeoutMs retries t).1 = heard t.
Proof.
  unfold sendCommand. destruct (extractRequestId message) as [requestId|]; [|done].
  destruct (bool_decide (requestId = EmptyString)); [done|].
  destruct (1 <=? size (pending t))%nat; [done|].
  cbn [fst]. by rewrite dispatchWithRetry_heard.
Qed.

Lemma handleIncoming_heard (message : unknown) (t : ACPTransport) :
  heard (handleIncoming types message t)
  = heard t ++ match validateMessage types message with
               | Normal true => [message]
               | _ => []
               end.
Proof.
  unfold handleIncoming.
  destruct (validateMessage types message) as [[|]|]; rewrite ?app_nil_r; [|done..].
  cbn [heard]. f_equal. destruct (is_ack message); [|done].
  destruct (ackRequestId message) as [requestId|]; [|done].
  destruct (pending t !! requestId) as [entry|]; [|done].
  by rewrite settle_heard.
Qed.

Lemma step_heard (t : ACPTransport) (e : event) :
  heard (step types t e) = heard t ++ validIncoming types [e].
Proof.
  destruct e as [|message|message timeoutMs retries|message];
    cbn [step validIncoming omap]; rewrite ?app_nil_r.
  - unfold tick. destruct (earliest (timers t)) as [[due key]|]; [|done].
    by rewrite onTimeout_heard.
  - rewrite handleIncoming_heard. unfold validIncoming. cbn.
    by destruct (validateMessage types message) as [[|]|].
  - by rewrite sendCommand_heard.
  - done.
Qed.

(** X12: the listeners are handed exactly the incoming messages that
    [validateMessage] accepts, each once and in the order of arrival;
    an invalid message reaches no listener, and nothing else (timers,
    sends, commands) calls the listeners. *)
Theorem listeners_hear_valid_messages (t : ACPTransport) (events : list event) :
  heard (run types t events) = heard t ++ validIncoming types events.
Proof.
  revert t. unfold run.
  induction events as [|e events IH]; intros t; [by rewrite app_nil_r|].
  cbn [foldl]. rewrite IH, step_heard, <- app_assoc. f_equal.
  unfold validIncoming. cbn.
  destruct e as [|message| |]; try done.
  by destruct (validateMessage types message) as [[|]|].
Qed.

(** *** Acknowledgments *)

Lemma onTimeout_quiet (requestId : string) (log : list (Z * unknown)) (key : string)
    (t : ACPTransport) :
  silent requestId log t → silent requestId log (onTimeout key t).
Proof.
  intros [Hpending Hsent]. unfold onTimeout.
  destruct (pending t !! key) as [current|] eqn:Hcurrent; [|done].
  assert (key ≠ requestId) as Hne by congruence.
  destruct (retriesLeft current <=? 0).
  - unfold settle. destruct (settled _ !! _); split; cbn;
      by rewrite ?lookup_delete_ne.
  - unfold dispatchWithRetry. cbn [pending set_pending]. rewrite lookup_insert_eq.
    split; [cbn; by rewrite lookup_insert_ne|].
    unfold setTimeout, send. cbn [sent set_pending].
    rewrite sentFor_app, Hsent. unfold sentFor at 1. cbn.
    rewrite bool_decide_eq_false_2 by congruence. by rewrite app_nil_r.
Qed.

Lemma handleIncoming_quiet (requestId : string) (log : list (Z * unknown))
    (message : unknown) (t : ACPTransport) :
  silent requestId log t → silent requestId log (handleIncoming types message t).
Proof.
  intros [Hpending Hsent]. unfold handleIncoming.
  destruct (validateMessage types message) as [[|]|]; [|done..].
  unfold silent. cbn [pending sent].
  destruct (is_ack message); [|done].
  destruct (ackRequestId message) as [key|]; [|done].
  destruct (pending t !! key) as [entry|] eqn:Hentry; [|done].
  unfold settle. destruct (settled _ !! _); split; cbn; try done;
    rewrite lookup_delete_ne; congruence.
Qed.

Lemma step_quiet (requestId : string) (log : list (Z * unknown)) (t : ACPTransport)
    (e : event) :
  otherCommand requestId e →
  silent requestId log t → silent requestId log (step types t e).
Proof.
  intros He Hsilent.
  destruct e as [|message|message timeoutMs retries|message]; cbn [step].
  - unfold tick. destruct (earliest (timers t)) as [[due key]|]; [|done].
    by apply onTimeout_quiet.
  - by apply handleIncoming_quiet.
  - cbn in He. unfold sendCommand.
    destruct (extractRequestId message) as [key|]; [|done].
    destruct (bool_decide (key = EmptyString)); [done|].
    destruct (1 <=? size (pending t))%nat; [done|].
    assert (key ≠ requestId) as Hne by congruence.
    destruct Hsilent as [Hpending Hsent].
    cbn [fst]. unfold dispatchWithRetry. cbn [pending]. rewrite lookup_insert_eq.
    split; [cbn; by rewrite lookup_insert_ne|].
    unfold setTimeout, send. cbn [sent set_pending].
    rewrite sentFor_app, Hsent. unfold sentFor at 1. cbn.
    rewrite bool_decide_eq_false_2 by congruence. by rewrite app_nil_r.
  - destruct Hsilent as [Hpending Hsent]. split; [done|]. unfold send. cbn [sent].
    rewrite sentFor_app, Hsent. by rewrite app_nil_r.
Qed.

Lemma run_quiet (requestId : string) (log : list (Z * unknown)) (events : list event) :
  ∀ t, Forall (otherCommand requestId) events →
       silent requestId log t → silent requestId log (run types t events).
Proof.
  unfold run. induction events as [|e events IH]; intros t Hevents Hsilent; [done|].
  inversion Hevents; subst. cbn [foldl]. by apply IH, step_quiet.
Qed.

(** X13: when a valid [AGENT_ACK] for the [requestId] of the pending
    command comes in, the promise of the command is resolved at once
    with the payload of the acknowledgment and the command is no
    longer pending (so the next [sendCommand] is accepted); from then
    on, as long as no new command is sent under the same [requestId],
    the command is never sent again (its timer still fires, and does
    nothing), and the promise stays resolved. *)
Theorem acknowledged_command_resolves (t : ACPTransport) (requestId : string)
    (entry : PendingEntry) (message : unknown) (events : list event) :
  sound t →
  pending t !! requestId = Some entry →
  acknowledges types requestId (Incoming message) →
  Forall (otherCommand requestId) events →
  let acknowledged := handleIncoming types message t in
  let later := run types acknowledged events in
  (∃ payload,
     get message "payload" = Normal payload
     ∧ settled acknowledged !! promise entry = Some (now t, Resolved payload)
     ∧ settled later !! promise entry = Some (now t, Resolved payload))
  ∧ pending acknowledged = ∅
  ∧ sent acknowledged = sent t
  ∧ pending later !! requestId = None
  ∧ sentFor requestId (sent later) = sentFor requestId (sent t).
Proof.
  intros Hsound Hentry (Hvalid & Hack & Hid) Hevents acknowledged later.
  destruct Hsound as [_ _ [Hnone | (key & entry' & Hp & Hlt & Hopen)]].
  { by rewrite Hnone in Hentry. }
  rewrite Hp in Hentry. apply lookup_singleton_Some in Hentry as [-> ->].
  assert (Hmessage : ∃ props, message = Object props).
  { destruct message; try done. by eexists. }
  destruct Hmessage as [props ->].
  assert (Hstate : acknowledged
            = {| pending := ∅; timers := timers t; now := now t;
                 nextPromise := nextPromise t;
                 settled := <[promise entry := (now t, Resolved (default Undefined (props !! "payload")))]> (settled t);
                 sent := sent t; heard := heard t ++ [Object props] |}).
  { subst acknowledged. unfold handleIncoming. rewrite Hvalid, Hack, Hid, Hp.
    rewrite lookup_singleton_eq. unfold settle. cbn [settled set_pending].
    rewrite Hopen. cbn. by rewrite delete_singleton_eq. }
  assert (Hresolved : settled acknowledged !! promise entry
                      = Some (now t, Resolved (default Undefined (props !! "payload")))).
  { rewrite Hstate. cbn. by rewrite lookup_insert_eq. }
  assert (Hsilent : silent requestId (sentFor requestId (sent t)) acknowledged).
  { rewrite Hstate. by split. }
  apply (run_quiet _ _ events) in Hsilent as [Hpending Hsent]; [|done].
  split; [|by rewrite Hstate].
  eexists. split; [done|]. split; [done|]. by apply run_kept.
Qed.

End MoreTransport.

Lemma acknowledged_command_resolves_witness :
  let t := (Transport.sendCommand (PING "r1") 4000 2 Transport.EMPTY_TRANSPORT).1 in
  let entry := {| Transport.promise := 0; Transport.retriesLeft := 2;
                  Transport.message := PING "r1"; Transport.timeoutMs := 4000 |} in
  let later := Transport.run SAMPLE_TYPES
                 (Transport.handleIncoming SAMPLE_TYPES (ACK "r1") t)
                 [Transport.Tick; Transport.Tick] in
  (Transport.pending t !! "r1" = Some entry
   ∧ Transport.acknowledges SAMPLE_TYPES "r1" (Transport.Incoming (ACK "r1"))
   ∧ Forall (TransportTrace.otherCommand "r1") [Transport.Tick; Transport.Tick])
  ∧ Transport.pending later !! "r1" = None
  ∧ Transport.sentFor "r1" (Transport.sent later)
    = Transport.sentFor "r1" (Transport.sent t).
Proof.
  cbv zeta.
  assert (Transport.sound
            (Transport.sendCommand (PING "r1") 4000 2 Transport.EMPTY_TRANSPORT).1)
    as Hsound by apply sendCommand_sound, EMPTY_TRANSPORT_sound.
  assert (Transport.pending
            (Transport.sendCommand (PING "r1") 4000 2 Transport.EMPTY_TRANSPORT).1
            !! "r1"
          = Some {| Transport.promise := 0; Transport.retriesLeft := 2;
                    Transport.message := PING "r1"; Transport.timeoutMs := 4000 |})
    as Hentry.
  { vm_compute. reflexivity. }
  assert (Transport.acknowledges SAMPLE_TYPES "r1" (Transport.Incoming (ACK "r1")))
    as Hack.
  { repeat split; vm_compute; reflexivity. }
  assert (Forall (TransportTrace.otherCommand "r1") [Transport.Tick; Transport.Tick])
    as Hevents.
  { repeat constructor. }
  split; [by repeat split|].
  exact (proj2 (proj2 (proj2 (acknowledged_command_resolves SAMPLE_TYPES _ "r1" _
                                (ACK "r1") _ Hsound Hentry Hack Hevents)))).
Defined.

(** ** The agent's run control *)

Section MoreAgent.
Import Agent Segments.
Local Open Scope Z_scope.
Local Open Scope list_scope.

(** *** What a piece of [runWorkflow] leaves of the shared state *)

Section Segment.

Variable p : Payload.
Variable c0 : Exec.
Variable halting : bool.
Variable quiet : effect → Prop.
Hypothesis quiet_allows : allows p halting quiet.

Abbreviation pre := (pre c0 quiet).
Abbreviation post_pause := (post_pause c0 quiet).
Abbreviation post_row := (post_row c0 halting quiet).

Ltac allowed :=
  solve [ eapply allows_status; [exact quiet_allows | done]
        | eapply allows_result; exact quiet_allows
        | eapply allows_log; exact quiet_allows
        | eapply allows_delay; exact quiet_allows
        | eapply allows_applyDelay; exact quiet_allows ].

Lemma pre_start : pre c0.
Proof.
  split; [by split|]. split; [by split|].
  exists []. by rewrite app_nil_r.
Qed.

Lemma pre_emit (e : effect) (c : Exec) : quiet e → pre c → pre (emit e c).
Proof.
  intros He ([H1 H2 H3] & [H4 H5] & new & Hout & Hnew).
  split; [by split|]. split; [by split|].
  exists (new ++ [e]). cbn. rewrite Hout, <- app_assoc. split; [done|].
  apply Forall_app. split; [done|]. by apply Forall_singleton.
Qed.

Lemma pre_emits (es : list effect) (c : Exec) :
  Forall quiet es → pre c → pre (emits es c).
Proof.
  intros He ([H1 H2 H3] & [H4 H5] & new & Hout & Hnew).
  split; [by split|]. split; [by split|].
  exists (new ++ es). cbn. rewrite Hout, <- app_assoc. split; [done|].
  by apply Forall_app.
Qed.

Lemma pre_set_state (st : RunState) (c : Exec) : pre c → pre (set_state st c).
Proof. intros ([H1 H2 H3] & [H4 H5] & Hout). by repeat split. Qed.

Lemma pre_set_stopped (c : Exec) :
  pre c → pre (set_storage (set_stopped true (storage c)) c).
Proof. intros ([H1 H2 H3] & [H4 H5] & Hout). by repeat split. Qed.

Lemma pre_post (c : Exec) (at' : point) :
  pre c → (∀ rowIndex, at' ≠ PauseDelay rowIndex) → post_row (c, at').
Proof. intros (H1 & H2 & H3) Hat. split; [|done]. split; [done|]. by split. Qed.

Lemma post_row_pause (r : Exec * point) : post_row r → post_pause r.
Proof. by intros [H _]. Qed.

Lemma post_pause_row (r : Exec * point) : halting = false → post_pause r → post_row r.
Proof. intros Hhalt H. split; [done|]. by rewrite Hhalt. Qed.

Lemma rowCompletion_pre (rowIndex : Z) (rowFailed : bool) (rowErrorMessage : string)
    (c : Exec) :
  pre c → pre (rowCompletion p rowIndex rowFailed rowErrorMessage c).1.
Proof.
  intros H. unfold rowCompletion. destruct rowFailed.
  - destruct (negb (bestEffort (settings p))); cbn [fst].
    + apply pre_emit; [allowed|]. apply pre_emit; [allowed|]. by apply pre_set_state.
    + apply pre_emit; [allowed|]. by apply pre_set_state.
  - cbn [fst]. apply pre_emit; [allowed|]. by apply pre_set_state.
Qed.

Lemma afterSteps_segment (next : Exec → Exec * point) (rowIndex : Z) (rowFailed : bool)
    (rowErrorMessage : string) (c : Exec) :
  (∀ c', pre c' → post_row (next c')) →
  pre c → post_row (afterSteps p next rowIndex rowFailed rowErrorMessage c).
Proof.
  intros Hnext H. unfold afterSteps.
  pose proof (rowCompletion_pre rowIndex rowFailed rowErrorMessage c H) as H1.
  destruct (rowCompletion p rowIndex rowFailed rowErrorMessage c) as [c1 returns].
  destruct returns; [by apply pre_post | by apply Hnext].
Qed.

Lemma stepLoop_segment (next : Exec → Exec * point) (rowIndex : Z) (stepIndex : nat)
    (rowFailed : bool) (rowErrorMessage : string) (c : Exec) :
  (∀ c', pre c' → post_row (next c')) →
  pre c → post_row (stepLoop p next rowIndex stepIndex rowFailed rowErrorMessage c).
Proof.
  intros Hnext H. unfold stepLoop.
  destruct (workflow p !! stepIndex) as [step|]; [|by apply afterSteps_segment].
  destruct (stepThrough (settings p)); by apply pre_post.
Qed.

Lemma afterPause_segment (next : Exec → Exec * point) (rowIndex : Z) (c : Exec) :
  (halting = true → killSwitchEnabled (storage c0) = true) →
  (∀ c', pre c' → post_row (next c')) →
  pre c → post_pause (afterPause p next rowIndex c).
Proof.
  intros Hhalt Hnext H. unfold afterPause.
  destruct (killSwitchEnabled (storage c)) eqn:Hkill.
  - apply post_row_pause, pre_post; [|done].
    apply pre_emit; [allowed|]. by apply pre_set_stopped.
  - apply post_row_pause, stepLoop_segment; [done|].
    apply pre_emit; [|by apply pre_set_state].
    apply (allows_running _ _ _ quiet_allows).
    destruct halting; [|done]. destruct H as [[H1 _ _] _].
    rewrite H1, Hhalt in Hkill; done.
Qed.

Lemma pauseLoop_segment (next : Exec → Exec * point) (rowIndex : Z) (c : Exec) :
  (halting = true → killSwitchEnabled (storage c0) = true) →
  (∀ c', pre c' → post_row (next c')) →
  pre c → post_pause (pauseLoop p next rowIndex c).
Proof.
  intros Hhalt Hnext H. unfold pauseLoop.
  destruct (paused (storage c)); [|by apply afterPause_segment].
  assert (pre (emit (Delay 500)
                 (emit (sendStatus (runId p) "paused" (state c) "Run paused") c)))
    as (H1 & H2 & H3).
  { apply pre_emit; [allowed|]. apply pre_emit; [allowed|done]. }
  split; [done|]. by split.
Qed.

Lemma complete_segment (c : Exec) : pre c → post_row (complete p c).
Proof.
  intros ([H1 H2 H3] & [H4 H5] & new & Hout & Hnew). unfold complete.
  split; [|done]. split; [by split|]. split; [done|].
  exists (new ++ [sendStatus (runId p) "complete" (state c) "Run complete"]).
  cbn. rewrite Hout, <- app_assoc. split; [done|].
  apply Forall_app. split; [done|]. apply Forall_singleton. allowed.
Qed.

Hypothesis halting_flags :
  halting = true →
  killSwitchEnabled (storage c0) = true ∨ stopped (storage c0) = true.

Lemma rowLoop_segment (left : nat) (rowIndex : Z) (c : Exec) :
  pre c → post_row (rowLoop p left rowIndex c).
Proof.
  revert rowIndex c. induction left as [|left IH]; intros rowIndex c H.
  { by apply complete_segment. }
  cbn [rowLoop].
  set (c1 := if killSwitchEnabled (storage c)
             then set_storage (set_stopped true (storage c)) c else c).
  assert (pre c1) as H1.
  { unfold c1. destruct (killSwitchEnabled (storage c)); [|done].
    by apply pre_set_stopped. }
  destruct (stopped (storage c1)) eqn:Hstopped.
  { apply pre_post; [|done]. apply pre_emit; [allowed|done]. }
  assert (halting = false) as Hhalt.
  { destruct halting; [|done]. destruct H as [[Hkill _ Hstop] _].
    unfold c1 in Hstopped.
    destruct (killSwitchEnabled (storage c)) eqn:Hk; [done|].
    destruct (halting_flags eq_refl) as [Hyes | Hyes]; [congruence|].
    rewrite (Hstop Hyes) in Hstopped. done. }
  apply post_pause_row; [done|]. apply pauseLoop_segment; [by rewrite Hhalt| |done].
  intros c' H'. by apply IH.
Qed.

Lemma retryLoop_quiet (fn : nat → attempt * list effect) (left n : nat) :
  (∀ k, Forall quiet (fn k).2) → Forall quiet (retryLoop fn left n).2.
Proof.
  intros Hfn. revert n. induction left as [|left IH]; intros n; cbn [retryLoop].
  - specialize (Hfn n). by destruct (fn n) as [[|error] effects].
  - pose proof (Hfn n) as Hn. specialize (IH (S n)).
    destruct (fn n) as [[|error] effects]; [done|].
    destruct (retryLoop fn left (S n)) as [result later]. cbn in *.
    apply Forall_app. split; [done|]. apply Forall_cons. split; [allowed|done].
Qed.

Lemma attemptStep_quiet (rowIndex : Z) (stepIndex : nat) (step : WorkflowStep)
    (attempts : nat → attempt) (k : nat) :
  Forall quiet (attemptStep p rowIndex stepIndex step attempts k).2.
Proof.
  unfold attemptStep, completedLog. destruct (attempts k); [|by apply Forall_nil].
  apply Forall_singleton. allowed.
Qed.

Lemma afterStep_segment (rowIndex : Z) (stepIndex : nat) (step : WorkflowStep)
    (rowFailed : bool) (rowErrorMessage : string) (attempts : nat → attempt)
    (c : Exec) :
  pre c →
  post_row (afterStep p rowIndex stepIndex step rowFailed rowErrorMessage attempts c).
Proof.
  intros H. unfold afterStep, retryWithBackoff.
  pose proof (retryLoop_quiet
                (attemptStep p rowIndex stepIndex step attempts)
                (default 0%nat (step_retries step)) 0
                (attemptStep_quiet rowIndex stepIndex step attempts)) as Heffects.
  destruct (retryLoop _ _ _) as [result effects]. cbn [snd] in Heffects.
  assert (pre (emits effects c)) as H1 by by apply pre_emits.
  destruct result as [error|].
  - destruct (negb (bestEffort (settings p))).
    + apply afterSteps_segment; [intros c' H'; by apply rowLoop_segment|].
      apply pre_emit; [allowed|done].
    + apply pre_post; [|done]. apply pre_emit; [allowed|].
      apply pre_emit; [allowed|done].
  - apply pre_post; [|done]. apply pre_emit; [allowed|done].
Qed.

Lemma stepSignalTick_segment (rowIndex : Z) (stepIndex : nat) (step : WorkflowStep)
    (rowFailed : bool) (rowErrorMessage : string) (c : Exec) :
  pre c →
  post_row (stepSignalTick p rowIndex stepIndex step rowFailed rowErrorMessage c).
Proof.
  intros H. unfold stepSignalTick. destruct (bool_decide _); [|by apply pre_post].
  apply pre_post; [|done]. destruct H as ([H1 H2 H3] & [H4 H5] & Hout).
  by repeat split.
Qed.

Lemma resume_row (at' : point) (s : signal) (c : Exec) :
  (∀ rowIndex, at' ≠ PauseDelay rowIndex) →
  pre c → post_row (resume p at' s c).
Proof.
  intros Hat H. destruct at' as [rowIndex| | | |]; [by destruct (Hat rowIndex)|..];
    destruct s; cbn [resume]; try (by apply pre_post).
  - by apply stepSignalTick_segment.
  - by apply afterStep_segment.
  - apply stepLoop_segment; [|done]. intros c' H'. by apply rowLoop_segment.
Qed.

Lemma resume_pause (at' : point) (s : signal) (c : Exec) :
  (halting = true → killSwitchEnabled (storage c0) = true) →
  pre c → post_pause (resume p at' s c).
Proof.
  intros Hhalt H. destruct at' as [rowIndex| | | |];
    [|by apply post_row_pause, resume_row..].
  destruct s; cbn [resume].
  - apply pauseLoop_segment; [done| |done]. intros c' H'. by apply rowLoop_segment.
  - destruct H as (H1 & H2 & H3). split; [done|]. by split.
Qed.

End Segment.

Lemma haltingQuiet_allows (p : Payload) (halting : bool) :
  allows p halting (haltingQuiet halting).
Proof.
  split; unfold haltingQuiet, notRunning; try done.
  - intros status st message Hstatus _. cbn. by apply bool_decide_eq_false_2.
  - intros Hhalt st message. by rewrite Hhalt.
Qed.

Lemma mentions_allows (p : Payload) (halting : bool) :
  allows p halting (mentions (runId p)).
Proof. by split. Qed.

(** *** One call of [runWorkflow] at a time *)

Lemma returned_dec (at' : point) : at' = Returned ∨ at' ≠ Returned.
Proof. destruct at'; (by left) || (by right). Qed.

Lemma runWorkflow_running (p : Payload) (s : StorageState) :
  (runWorkflow p s).2 ≠ Returned →
  status (storage (runWorkflow p s).1) = "running"
  ∧ storedRunId (storage (runWorkflow p s).1) = Some (runId p).
Proof.
  unfold runWorkflow. destruct (killSwitchEnabled s); [done|].
  match goal with |- context [rowLoopFrom p _ ?c] => set (c1 := c) end.
  destruct (rowLoop_segment p c1 false _ (haltingQuiet_allows p false) ltac:(done)
              (rowsLeft p (resumeFrom p)) (resumeFrom p) c1 (pre_start c1 _))
    as [(_ & Hrun & _) _].
  unfold rowLoopFrom. intros Hat. destruct (Hrun Hat) as [H1 H2].
  by rewrite H1, H2.
Qed.

Lemma resume_returned (p : Payload) (s : signal) (c : Exec) :
  resume p Returned s c = (c, Returned).
Proof. by destruct s. Qed.

Lemma wake_returned (i : nat) (s : signal) (a : Agent) (r : Run) :
  runs a !! i = Some r → at_ r = Returned → wake i s a = a.
Proof.
  intros Hr Hat. unfold wake. rewrite Hr, Hat, resume_returned. cbn.
  rewrite !app_nil_r. destruct a as [storage0 runs0 log0 orphans0], r as [p st at'].
  cbn in *. subst at'. by rewrite list_insert_id.
Qed.

Lemma wake_unfold (i : nat) (s : signal) (a : Agent) (r : Run) :
  runs a !! i = Some r →
  let c0 := {| storage := storageState a; state := run_state r; out := [] |} in
  let c := (resume (payload r) (at_ r) s c0).1 in
  let at' := (resume (payload r) (at_ r) s c0).2 in
  wake i s a
  = {| storageState := storage c;
       runs := <[i := {| payload := payload r; run_state := state c; at_ := at' |}]>
                 (runs a);
       log := log a ++ map (pair (FromRun i)) (out c);
       orphans := orphans a ++ leftRunning (payload r) i (at_ r) s |}.
Proof.
  intros Hr. cbv zeta. unfold wake. rewrite Hr.
  by destruct (resume (payload r) (at_ r) s _).
Qed.

Lemma by_handler_oneRun (es : list effect) (s : StorageState) (a : Agent) :
  status s = status (storageState a) →
  storedRunId s = storedRunId (storageState a) →
  oneRun a → oneRun (by_handler es s a).
Proof.
  intros Hstatus HrunId Hone i r Hr Hat. cbn in *.
  rewrite Hstatus, HrunId. by apply Hone.
Qed.

Lemma spawn_oneRun (p : Payload) (a : Agent) :
  status (storageState a) ≠ "running" → oneRun a → oneRun (spawn p a).
Proof.
  intros Hstatus Hone.
  assert (Hall : ∀ j r, runs a !! j = Some r → at_ r = Returned).
  { intros j r Hr. destruct (returned_dec (at_ r)) as [|Hat]; [done|].
    by destruct (Hone j r Hr Hat) as [? _]. }
  unfold spawn. pose proof (runWorkflow_running p (storageState a)) as Hnew.
  destruct (runWorkflow p (storageState a)) as [c at']. cbn [fst snd] in Hnew.
  intros i r Hr Hat. cbn in *.
  apply lookup_app_Some in Hr as [Hr | [Hi Hr]].
  { by rewrite (Hall _ _ Hr) in Hat. }
  apply list_lookup_singleton_Some in Hr as [Hzero <-]. cbn in *.
  destruct (Hnew Hat) as [-> ->]. split; [done|]. split; [done|].
  intros j r' Hr' Hne. cbn in Hr'.
  apply lookup_app_Some in Hr' as [Hr' | [Hj Hr']]; [by eapply Hall|].
  apply list_lookup_singleton_Some in Hr' as [Hzero' _]. lia.
Qed.

Lemma handleMessage_oneRun (message : ControlMessage) (a : Agent) :
  oneRun a → oneRun (handleMessage message a).
Proof.
  intros Hone.
  destruct message as [q|q|q p|q rid|q rid|q rid|q enabled|q rid row stp|type];
    cbn [handleMessage]; try done; try (by apply by_handler_oneRun).
  - destruct (killSwitchEnabled (storageState a)); [by apply by_handler_oneRun|].
    destruct (decide (status (storageState a) = "running")) as [Hrunning|Hidle].
    + rewrite bool_decide_eq_true_2 by done. by apply by_handler_oneRun.
    + rewrite bool_decide_eq_false_2 by done.
      apply spawn_oneRun; [done|]. by apply by_handler_oneRun.
  - apply by_handler_oneRun; try done; by destruct enabled.
Qed.

Lemma wake_oneRun (i : nat) (s : signal) (a : Agent) : oneRun a → oneRun (wake i s a).
Proof.
  intros Hone. destruct (runs a !! i) as [r|] eqn:Hr;
    [|unfold wake; by rewrite Hr].
  destruct (returned_dec (at_ r)) as [Hat|Hat].
  { by rewrite (wake_returned i s a r). }
  destruct (Hone i r Hr Hat) as (Hstatus & HrunId & Hothers).
  rewrite (wake_unfold i s a r Hr). cbv zeta.
  set (c0 := {| storage := storageState a; state := run_state r; out := [] |}).
  destruct (resume_pause (payload r) c0 false _ (haltingQuiet_allows _ false)
              ltac:(done) (at_ r) s c0 ltac:(done) (pre_start c0 _))
    as (_ & Hrun & _).
  destruct (resume (payload r) (at_ r) s c0) as [c at']. cbn [fst snd] in *.
  intros j r' Hr' Hat'. cbn in Hr' |- *.
  destruct (decide (j = i)) as [->|Hne].
  - rewrite list_lookup_insert_eq in Hr' by (by eapply lookup_lt_Some).
    injection Hr' as <-. cbn in *. destruct (Hrun Hat') as [-> ->].
    split; [done|]. split; [done|].
    intros k r'' Hr'' Hk. cbn in Hr''. rewrite list_lookup_insert_ne in Hr'' by done.
    by eapply Hothers.
  - rewrite list_lookup_insert_ne in Hr' by done.
    by rewrite (Hothers j r' Hr' Hne) in Hat'.
Qed.

Lemma timerWins_oneRun (i : nat) (a : Agent) : oneRun a → oneRun (timerWins i a).
Proof. by destruct (timerWins_cases i a) as [->|(r & o & _ & _ & ->)]. Qed.

Lemma finish_oneRun (k : nat) (a : Agent) : oneRun a → oneRun (finish k a).
Proof. by destruct (finish_cases k a) as [->|(o & r & _ & _ & ->)]. Qed.

Lemma step_oneRun (a : Agent) (e : event) : oneRun a → oneRun (step a e).
Proof.
  destruct e; [apply handleMessage_oneRun | apply wake_oneRun | apply timerWins_oneRun
              | apply finish_oneRun].
Qed.

Lemma run_oneRun (a : Agent) (events : list event) : oneRun a → oneRun (run a events).
Proof.
  revert a. unfold run. induction events as [|e events IH]; intros a H; [done|].
  cbn [foldl]. by apply IH, step_oneRun.
Qed.

Lemma INITIAL_AGENT_oneRun : oneRun INITIAL_AGENT.
Proof. by intros i r Hr. Qed.

(** X14: whatever messages arrive and however the steps turn out, at
    most one call of [runWorkflow] is under way at a time; while one
    is, [storageState.status] is [running] and [storageState.runId] is
    the run's, so that every further [CONTROL_START_RUN] is refused. *)
Theorem one_run_at_a_time (events : list event) (i : nat) (r : Run) :
  let a := run INITIAL_AGENT events in
  runs a !! i = Some r →
  at_ r ≠ Returned →
  status (storageState a) = "running"
  ∧ storedRunId (storageState a) = Some (runId (payload r))
  ∧ (∀ j r', runs a !! j = Some r' → at_ r' ≠ Returned → j = i)
  ∧ ∀ requestId p,
      runs (handleMessage (CONTROL_START_RUN requestId p) a) = runs a.
Proof.
  intros a Hr Hat.
  destruct (run_oneRun _ events INITIAL_AGENT_oneRun i r Hr Hat)
    as (Hstatus & HrunId & Hothers).
  fold a in Hstatus, HrunId, Hothers.
  split; [done|]. split; [done|]. split.
  - intros j r' Hr' Hat'. destruct (decide (j = i)) as [|Hne]; [done|].
    by rewrite (Hothers j r' Hr' Hne) in Hat'.
  - intros requestId p. cbn [handleMessage].
    destruct (killSwitchEnabled (storageState a)); [done|].
    by rewrite bool_decide_eq_true_2.
Qed.

(** *** After a run was stopped or has failed *)

Lemma lateLog_elem (rs : list Run) (os : list Orphan) (k : nat) (o : Orphan)
    (entry : origin * effect) :
  os !! k = Some o → lateLog rs o = Some entry → late rs os entry.
Proof.
  intros Ho Hentry. right. exists o. split; [|done]. by eapply list_elem_of_lookup_2.
Qed.

Lemma step_idle (a : Agent) (e : event) :
  status (storageState a) = "running" →
  Forall (λ r, at_ r = Returned) (runs a) →
  status (storageState (step a e)) = "running"
  ∧ runs (step a e) = runs a
  ∧ orphans (step a e) `sublist_of` orphans a
  ∧ ∃ added, log (step a e) = log a ++ added
             ∧ Forall (late (runs a) (orphans a)) added.
Proof.
  intros Hstatus Hruns.
  assert (∀ es s, status s = "running" →
            status (storageState (by_handler es s a)) = "running"
            ∧ runs (by_handler es s a) = runs a
            ∧ orphans (by_handler es s a) `sublist_of` orphans a
            ∧ ∃ added, log (by_handler es s a) = log a ++ added
                       ∧ Forall (late (runs a) (orphans a)) added) as Hhandled.
  { intros es s Hs. split; [done|]. split; [done|]. split; [done|].
    eexists. split; [done|]. apply Forall_map, Forall_true. intros e'. by left. }
  assert (status (storageState a) = "running"
          ∧ runs a = runs a
          ∧ orphans a `sublist_of` orphans a
          ∧ ∃ added, log a = log a ++ added
                     ∧ Forall (late (runs a) (orphans a)) added) as Hsame.
  { split; [done|]. split; [done|]. split; [done|].
    exists []. split; [by rewrite app_nil_r | by apply Forall_nil_2]. }
  destruct e as [message|i s|i|k]; cbn [step].
  - destruct message as [q|q|q p|q rid|q rid|q rid|q enabled|q rid row stp|type];
      cbn [handleMessage]; try (by apply Hhandled); [| |done].
    + destruct (killSwitchEnabled (storageState a)); [by apply Hhandled|].
      rewrite bool_decide_eq_true_2 by done. by apply Hhandled.
    + apply Hhandled. cbn. by destruct enabled.
  - assert (wake i s a = a) as ->; [|done].
    destruct (runs a !! i) as [r|] eqn:Hr; [|unfold wake; by rewrite Hr].
    apply (wake_returned i s a r Hr).
    exact (Forall_lookup_1 _ _ _ _ Hruns Hr).
  - destruct (timerWins_cases i a) as [->|(r & o & Hr & Hin & _)]; [done|].
    by rewrite (Forall_lookup_1 _ _ _ _ Hruns Hr) in Hin.
  - destruct (finish_cases k a) as [->|(o & r & Ho & Hr & ->)]; [done|].
    cbn [storageState runs log orphans].
    split; [done|]. split; [done|]. split; [apply sublist_delete|].
    eexists. split; [done|]. apply Forall_singleton.
    apply (lateLog_elem _ _ k o); [done|]. unfold lateLog. by rewrite Hr.
Qed.

(** X15: [storageState.status] is set back from [running] only where
    [runWorkflow] completes all rows.  So once a run has ended on a
    stop, the kill switch or a failed row (status [running], no call
    of [runWorkflow] under way), no run is ever started again.
    Whatever arrives, and whichever of the attempts that had timed out
    finish: the calls of [runWorkflow] stay as they are, the status
    stays [running], no attempt is left running that was not before,
    and all that the agent broadcasts is the handler's answers and,
    for attempts that had timed out and finish only now, the log of
    their step as completed. *)
Theorem no_run_after_stopped_run (a : Agent) (events : list event) :
  status (storageState a) = "running" →
  Forall (λ r, at_ r = Returned) (runs a) →
  status (storageState (run a events)) = "running"
  ∧ runs (run a events) = runs a
  ∧ orphans (run a events) `sublist_of` orphans a
  ∧ ∃ added, log (run a events) = log a ++ added
             ∧ Forall (late (runs a) (orphans a)) added.
Proof.
  revert a. unfold run.
  induction events as [|e events IH]; intros a Hstatus Hruns.
  { split; [done|]. split; [done|]. split; [done|].
    exists []. split; [by rewrite app_nil_r | by apply Forall_nil_2]. }
  cbn [foldl].
  destruct (step_idle a e Hstatus Hruns) as (H1 & H2 & Hsub & added & H3 & Hadded).
  destruct (IH (step a e) H1) as (H4 & H5 & Hsub' & added' & H6 & Hadded');
    [by rewrite H2|].
  split; [done|]. split; [congruence|]. split; [by etrans|].
  exists (added ++ added'). split; [by rewrite H6, H3, app_assoc|].
  apply Forall_app. split; [done|].
  eapply Forall_impl; [exact Hadded'|]. intros entry [Hhandler|(o & Ho & Hentry)].
  - by left.
  - right. exists o. rewrite H2 in Hentry. split; [|done].
    eapply elem_of_sublist; [exact Ho | exact Hsub].
Qed.

(** *** The kill switch *)

Lemma step_killed (a : Agent) (e : event) :
  killSwitchEnabled (storageState a) = true →
  keepsKillSwitch e →
  killSwitchEnabled (storageState (step a e)) = true
  ∧ length (runs (step a e)) = length (runs a)
  ∧ ∃ added, log (step a e) = log a ++ added
             ∧ Forall (λ entry, notRunning entry.2) added.
Proof.
  intros Hkill He. destruct e as [message|i s|i|k]; cbn [step].
  - destruct message as [q|q|q p|q rid|q rid|q rid|q enabled|q rid row stp|type];
      cbn [handleMessage]; rewrite ?Hkill;
      try (split; [by cbn|]; split; [done|]; eexists; split; [done|];
           by repeat apply Forall_cons_2).
    + cbn in He. subst enabled. split; [by cbn|]. split; [done|].
      eexists. split; [done|]. by repeat apply Forall_cons_2.
    + split; [done|]. split; [done|]. exists []. by rewrite app_nil_r.
  - destruct (runs a !! i) as [r|] eqn:Hr; last first.
    { unfold wake. rewrite Hr. split; [done|]. split; [done|].
      exists []. by rewrite app_nil_r. }
    rewrite (wake_unfold i s a r Hr). cbv zeta.
    set (c0 := {| storage := storageState a; state := run_state r; out := [] |}).
    destruct (resume_pause (payload r) c0 true _ (haltingQuiet_allows _ true)
                ltac:(by left) (at_ r) s c0 ltac:(done) (pre_start c0 _))
      as ([Hsame _ _] & _ & new & Hout & Hnew).
    destruct (resume (payload r) (at_ r) s c0) as [c at']. cbn [fst snd] in *.
    cbn [storageState runs log].
    split; [by rewrite Hsame|]. split; [by rewrite length_insert|].
    eexists. split; [done|]. rewrite Hout. cbn.
    apply Forall_map. eapply Forall_impl; [exact Hnew|].
    intros effect Hquiet. by apply Hquiet.
  - split; [|split];
      [by destruct (timerWins_cases i a) as [->|(r & o & _ & _ & ->)]..|].
    exists []. rewrite app_nil_r. split; [|done].
    by destruct (timerWins_cases i a) as [->|(r & o & _ & _ & ->)].
  - destruct (finish_cases k a) as [->|(o & r & _ & _ & ->)].
    + split; [done|]. split; [done|]. exists []. by rewrite app_nil_r.
    + cbn [storageState runs log]. split; [done|]. split; [done|].
      eexists. split; [done|]. by apply Forall_singleton.
Qed.

(** X16: while the kill switch is on, no run and no row is started:
    whatever arrives but a message that releases the switch, no call
    of [runWorkflow] is made, and no call reports [running], neither
    for a run started nor for a row taken up.  (A call that is in the
    steps of a row goes on with them up to the end of the row.) *)
Theorem kill_switch_starts_no_row (a : Agent) (events : list event) :
  killSwitchEnabled (storageState a) = true →
  Forall keepsKillSwitch events →
  killSwitchEnabled (storageState (run a events)) = true
  ∧ length (runs (run a events)) = length (runs a)
  ∧ ∃ added, log (run a events) = log a ++ added
             ∧ Forall (λ entry, notRunning entry.2) added.
Proof.
  revert a. unfold run.
  induction events as [|e events IH]; intros a Hkill Hevents.
  { split; [done|]. split; [done|]. exists []. by rewrite app_nil_r. }
  apply Forall_cons in Hevents as [He Hevents]. cbn [foldl].
  destruct (step_killed a e Hkill He) as (H1 & H2 & added & H3 & H4).
  destruct (IH (step a e) H1 Hevents) as (H5 & H6 & added' & H7 & H8).
  split; [done|]. split; [congruence|].
  exists (added ++ added'). split; [by rewrite H7, H3, app_assoc|].
  by apply Forall_app.
Qed.


(** *** A stop request outside the pause loop *)

Lemma effectsOf_handled (i : nat) (es : list effect) (l : list (origin * effect)) :
  effectsOf i (l ++ map (pair Handler) es) = effectsOf i l.
Proof. by rewrite effectsOf_app, effectsOf_handler, app_nil_r. Qed.

Lemma by_handler_stopping (i : nat) (es : list effect) (s : StorageState) (a : Agent) :
  status s = status (storageState a) →
  (stopped (storageState a) = true → stopped s = true) →
  stopping i a → stopping i (by_handler es s a).
Proof.
  intros Hstatus Hstopped (r & Hr & Hcase). exists r. split; [done|].
  destruct Hcase as [Hat | (Hat & Hstop & Hrunning & Hothers)]; [by left|].
  right. cbn. split; [done|]. split; [by apply Hstopped|]. split; [congruence|done].
Qed.

Lemma step_stopping (i : nat) (a : Agent) (e : event) :
  stopping i a →
  stopping i (step a e)
  ∧ ∃ added, log (step a e) = log a ++ added
             ∧ Forall notRunning (effectsOf i added).
Proof.
  intros Hstopping. destruct e as [message|j s|j|k]; cbn [step].
  - assert (Hhandled : ∀ es s,
              status s = status (storageState a) →
              (stopped (storageState a) = true → stopped s = true) →
              stopping i (by_handler es s a)
              ∧ ∃ added, log (by_handler es s a) = log a ++ added
                         ∧ Forall notRunning (effectsOf i added)).
    { intros es s Hstatus Hstopped. split; [by apply by_handler_stopping|].
      eexists. split; [done|]. by rewrite effectsOf_handler. }
    destruct message as [q|q|q p|q rid|q rid|q rid|q enabled|q rid row stp|type];
      cbn [handleMessage]; try (by apply Hhandled).
    + destruct (killSwitchEnabled (storageState a)); [by apply Hhandled|].
      destruct (decide (status (storageState a) = "running")) as [Hrunning|Hidle].
      { rewrite bool_decide_eq_true_2 by done. by apply Hhandled. }
      rewrite bool_decide_eq_false_2 by done.
      destruct Hstopping as (r & Hr & [Hat | (_ & _ & Hrunning & _)]); [|done].
      unfold spawn. destruct (runWorkflow p _) as [c at'].
      unfold by_handler. cbn [runs log storageState].
      split.
      * exists r. split; [|by left]. by apply lookup_app_l_Some.
      * eexists. split; [by rewrite <- app_assoc|].
        rewrite effectsOf_app, effectsOf_handler, effectsOf_other; [done|].
        apply lookup_lt_Some in Hr. lia.
    + apply Hhandled; [by destruct enabled|]. cbn. by destruct enabled.
    + split; [done|]. exists []. by rewrite app_nil_r.
  - destruct (runs a !! j) as [r'|] eqn:Hr'; last first.
    { unfold wake. rewrite Hr'. split; [done|]. exists []. by rewrite app_nil_r. }
    destruct (returned_dec (at_ r')) as [Hat'|Hat'].
    { rewrite (wake_returned j s a r' Hr' Hat'). split; [done|].
      exists []. by rewrite app_nil_r. }
    destruct Hstopping as (r & Hr & Hcase).
    rewrite (wake_unfold j s a r' Hr'). cbv zeta.
    set (c0 := {| storage := storageState a; state := run_state r'; out := [] |}).
    destruct (decide (j = i)) as [->|Hne].
    + assert (r' = r) as -> by congruence.
      destruct Hcase as [Hat | (Hat & Hstop & Hrunning & Hothers)]; [done|].
      destruct (resume_row (payload r) c0 true _ (haltingQuiet_allows _ true)
                  ltac:(by right) (at_ r) s c0 Hat (pre_start c0 _))
        as (([_ _ Hsame] & Hrun & new & Hout & Hnew) & Hpause).
      destruct (resume (payload r) (at_ r) s c0) as [c at']. cbn [fst snd] in *.
      split.
      * eexists. split.
        { cbn. apply list_lookup_insert_eq. by eapply lookup_lt_Some. }
        cbn. destruct (returned_dec at') as [|Hlive]; [by left|]. right.
        split; [by apply Hpause|]. split; [by apply Hsame|].
        split; [by destruct (Hrun Hlive) as [-> _]|].
        intros k r'' Hr'' Hk. cbn in Hr''.
        rewrite list_lookup_insert_ne in Hr'' by done. by eapply Hothers.
      * eexists. split; [done|]. rewrite effectsOf_same, Hout. cbn.
        eapply Forall_impl; [exact Hnew|]. intros effect Hquiet. by apply Hquiet.
    + destruct Hcase as [Hat | (Hat & Hstop & Hrunning & Hothers)];
        [|by rewrite (Hothers j r' Hr' Hne) in Hat'].
      destruct (resume (payload r') (at_ r') s c0) as [c at']. cbn [fst snd].
      split.
      * exists r. split; [|by left]. cbn. by rewrite list_lookup_insert_ne.
      * eexists. split; [done|]. by rewrite effectsOf_other.
  - split; [by destruct (timerWins_cases j a) as [->|(r & o & _ & _ & ->)]|].
    exists []. rewrite app_nil_r. split; [|done].
    by destruct (timerWins_cases j a) as [->|(r & o & _ & _ & ->)].
  - destruct (finish_cases k a) as [->|(o & r0 & _ & _ & ->)].
    + split; [done|]. exists []. by rewrite app_nil_r.
    + split; [done|]. cbn [log]. eexists. split; [done|].
      destruct (decide (orphan_run o = i)) as [<-|Hne].
      * rewrite effectsOf_one_same. by apply Forall_singleton.
      * by rewrite effectsOf_one_other.
Qed.

Lemma run_stopping (i : nat) (events : list event) :
  ∀ a, stopping i a →
       stopping i (run a events)
       ∧ ∃ added, log (run a events) = log a ++ added
                  ∧ Forall notRunning (effectsOf i added).
Proof.
  unfold run. induction events as [|e events IH]; intros a Hstopping.
  { split; [done|]. exists []. by rewrite app_nil_r. }
  cbn [foldl]. destruct (step_stopping i a e Hstopping) as (H1 & added & H2 & H3).
  destruct (IH (step a e) H1) as (H4 & added' & H5 & H6).
  split; [done|]. exists (added ++ added'). split; [by rewrite H5, H2, app_assoc|].
  rewrite effectsOf_app. by apply Forall_app.
Qed.

(** X18: a stop request is honoured by a call of [runWorkflow] that
    is under way outside the pause loop: once [stopped] is set, the
    call takes up no further row (it reports [running] no more) and
    does not enter the pause loop, whatever arrives later; it ends at
    the next test of the row loop.  (In the pause loop the call does
    not read [stopped].) *)
Theorem stop_outside_pause_loop (before events : list event) (i : nat) (r : Run) :
  let a := run INITIAL_AGENT before in
  runs a !! i = Some r →
  at_ r ≠ Returned →
  (∀ rowIndex, at_ r ≠ PauseDelay rowIndex) →
  stopped (storageState a) = true →
  (∃ added, log (run a events) = log a ++ added
            ∧ Forall notRunning (effectsOf i added))
  ∧ ∃ r', runs (run a events) !! i = Some r'
          ∧ ∀ rowIndex, at_ r' ≠ PauseDelay rowIndex.
Proof.
  intros a Hr Hlive Hat Hstopped.
  destruct (run_oneRun _ before INITIAL_AGENT_oneRun i r Hr Hlive)
    as (Hstatus & _ & Hothers). fold a in Hstatus, Hothers.
  assert (stopping i a) as Hstopping.
  { exists r. split; [done|]. by right. }
  destruct (run_stopping i events a Hstopping) as ((r' & Hr' & Hcase) & Hadded).
  split; [done|]. exists r'. split; [done|].
  destruct Hcase as [-> | (Hat' & _)]; done.
Qed.

(** *** Retries *)

Lemma retryLoop_attempts (fn : nat → attempt * list effect) (left : nat) :
  ∀ n, ∃ k,
    (k ≤ left)%nat
    ∧ (retryLoop fn left n).2 = attemptsThrough fn n k
    ∧ (∀ j, (j < k)%nat → is_rejected (fn (n + j)%nat).1)
    ∧ match (retryLoop fn left n).1 with
      | None => (fn (n + k)%nat).1 = Fulfilled
      | Some error => k = left ∧ (fn (n + k)%nat).1 = Rejected error
      end.
Proof.
  induction left as [|left IH]; intros n; cbn [retryLoop].
  - exists 0%nat. rewrite Nat.add_0_r. cbn [attemptsThrough].
    destruct (fn n) as [[|error] effects]; cbn; (split; [lia|]);
      (split; [done|]); (split; [intros j Hj; lia|]); done.
  - destruct (fn n) as [[|error] effects] eqn:Hn.
    + exists 0%nat. cbn [attemptsThrough]. rewrite Nat.add_0_r, Hn. cbn.
      split; [lia|]. split; [done|]. split; [intros j Hj; lia | done].
    + destruct (IH (S n)) as (k & Hk & Heffects & Hrejected & Hlast).
      destruct (retryLoop fn left (S n)) as [result later]. cbn [fst snd] in *.
      exists (S k). split; [lia|]. split.
      { cbn [attemptsThrough]. by rewrite Hn, Heffects. }
      split.
      { intros [|j] Hj.
        - by rewrite Nat.add_0_r, Hn.
        - replace (n + S j)%nat with (S n + j)%nat by lia. apply Hrejected. lia. }
      replace (n + S k)%nat with (S n + k)%nat by lia.
      destruct result as [error'|]; [|done].
      destruct Hlast as [-> Hlast]. done.
Qed.

(** X19: [retryWithBackoff] makes the attempts 0, 1, .. up to the
    first that succeeds, and [retries + 1] of them at most; between
    two attempts it sleeps for the backoff of the earlier one, which
    is 500 ms doubled with every attempt and capped at 8000 ms.  It
    returns when an attempt succeeds, and throws the error of the last
    attempt when all [retries + 1] have failed. *)
Theorem retryWithBackoff_attempts (fn : nat → attempt * list effect) (retries : nat) :
  (∃ k,
     (k ≤ retries)%nat
     ∧ (retryWithBackoff fn retries).2 = attemptsThrough fn 0 k
     ∧ (∀ j, (j < k)%nat → is_rejected (fn j).1)
     ∧ match (retryWithBackoff fn retries).1 with
       | None => (fn k).1 = Fulfilled
       | Some error => k = retries ∧ (fn k).1 = Rejected error
       end)
  ∧ ∀ n, 500 ≤ backoff n ≤ MAX_BACKOFF_MS
         ∧ backoff n ≤ backoff (S n)
         ∧ ((n < 4)%nat → backoff n = 500 * 2 ^ Z.of_nat n)
         ∧ ((4 ≤ n)%nat → backoff n = MAX_BACKOFF_MS).
Proof.
  split; [apply (retryLoop_attempts fn retries 0)|].
  intros n. unfold backoff, MAX_BACKOFF_MS.
  assert (0 < 2 ^ Z.of_nat n) as Hpos by (apply Z.pow_pos_nonneg; lia).
  assert (2 ^ Z.of_nat (S n) = 2 * 2 ^ Z.of_nat n) as Hsucc.
  { rewrite Nat2Z.inj_succ. apply Z.pow_succ_r. lia. }
  rewrite Hsucc. split; [lia|]. split; [lia|]. split.
  - intros Hn. assert (2 ^ Z.of_nat n ≤ 2 ^ 3) as Hle.
    { apply Z.pow_le_mono_r; lia. }
    change (2 ^ 3) with 8 in Hle. lia.
  - intros Hn. assert (2 ^ 4 ≤ 2 ^ Z.of_nat n) as Hle.
    { apply Z.pow_le_mono_r; lia. }
    change (2 ^ 4) with 16 in Hle. lia.
Qed.

End MoreAgent.

Lemma one_run_at_a_time_witness :
  let events := [Agent.Deliver (Agent.CONTROL_START_RUN "q1" Agent.SAMPLE_PAYLOAD)] in
  let r := {| Agent.payload := Agent.SAMPLE_PAYLOAD;
              Agent.run_state := {| Agent.currentRowIndex := 0; Agent.successCount := 0;
                                    Agent.failureCount := 0 |};
              Agent.at_ := Agent.StepRunning 0 0 Agent.SAMPLE_STEP false EmptyString |} in
  (Agent.runs (Agent.run Agent.INITIAL_AGENT events) !! 0%nat = Some r
   ∧ Agent.at_ r ≠ Agent.Returned)
  ∧ Agent.status (Agent.storageState (Agent.run Agent.INITIAL_AGENT events)) = "running".
Proof.
  cbv zeta.
  assert (Agent.runs
            (Agent.run Agent.INITIAL_AGENT
               [Agent.Deliver (Agent.CONTROL_START_RUN "q1" Agent.SAMPLE_PAYLOAD)])
            !! 0%nat
          = Some {| Agent.payload := Agent.SAMPLE_PAYLOAD;
                    Agent.run_state := {| Agent.currentRowIndex := 0;
                                          Agent.successCount := 0;
                                          Agent.failureCount := 0 |};
                    Agent.at_ := Agent.StepRunning 0 0 Agent.SAMPLE_STEP false
                                                   EmptyString |}) as Hr.
  { vm_compute. reflexivity. }
  assert (Agent.StepRunning 0 0 Agent.SAMPLE_STEP false EmptyString ≠ Agent.Returned)
    as Hat by discriminate.
  split; [by split|].
  exact (proj1 (one_run_at_a_time _ 0%nat _ Hr Hat)).
Defined.

Lemma no_run_after_stopped_run_witness :
  let a := Agent.run Agent.INITIAL_AGENT
             [Agent.Deliver (Agent.CONTROL_START_RUN "q1" Agent.SAMPLE_PAYLOAD);
              Agent.Wake 0 Agent.TIMES_OUT] in
  let events := [Agent.Finish 0;
                 Agent.Deliver (Agent.CONTROL_START_RUN "q3" Agent.SAMPLE_PAYLOAD)] in
  (Agent.status (Agent.storageState a) = "running"
   ∧ Forall (λ r, Agent.at_ r = Agent.Returned) (Agent.runs a))
  ∧ Agent.runs (Agent.run a events) = Agent.runs a
  ∧ Agent.log (Agent.run a events)
    = (Agent.log a
       ++ [(Agent.FromRun 0,
            Agent.sendLog "run-1" 0 0 "info" "Step wait_time completed");
           (Agent.Handler,
            Agent.sendAck "q3" "CONTROL_START_RUN" false "Run already in progress")])%list.
Proof.
  cbv zeta.
  set (a := Agent.run Agent.INITIAL_AGENT
              [Agent.Deliver (Agent.CONTROL_START_RUN "q1" Agent.SAMPLE_PAYLOAD);
               Agent.Wake 0 Agent.TIMES_OUT]).
  assert (Agent.status (Agent.storageState a) = "running") as Hstatus.
  { vm_compute. reflexivity. }
  assert (Agent.at_ <$> Agent.runs a = [Agent.Returned]) as Hat.
  { vm_compute. reflexivity. }
  assert (Forall (λ r, Agent.at_ r = Agent.Returned) (Agent.runs a)) as Hruns.
  { apply (Forall_fmap Agent.at_ (λ at', at' = Agent.Returned)). rewrite Hat.
    by apply Forall_singleton. }
  assert (Agent.log
            (Agent.run a
               [Agent.Finish 0;
                Agent.Deliver (Agent.CONTROL_START_RUN "q3" Agent.SAMPLE_PAYLOAD)])
          = (Agent.log a
             ++ [(Agent.FromRun 0,
                  Agent.sendLog "run-1" 0 0 "info" "Step wait_time completed");
                 (Agent.Handler,
                  Agent.sendAck "q3" "CONTROL_START_RUN" false
                                "Run already in progress")])%list) as Hlog.
  { vm_compute. reflexivity. }
  split; [by split|]. split; [|exact Hlog].
  exact (proj1 (proj2 (no_run_after_stopped_run a _ Hstatus Hruns))).
Defined.

Lemma kill_switch_starts_no_row_witness :
  let a := Agent.run Agent.INITIAL_AGENT
             [Agent.Deliver (Agent.CONTROL_START_RUN "q1" Agent.SAMPLE_PAYLOAD);
              Agent.Deliver (Agent.CONTROL_KILL_SWITCH "q2" true)] in
  let events := [Agent.Wake 0 Agent.SUCCEEDS; Agent.Wake 0 Agent.Elapsed;
                 Agent.Deliver (Agent.CONTROL_START_RUN "q3" Agent.SAMPLE_PAYLOAD)] in
  (Agent.killSwitchEnabled (Agent.storageState a) = true
   ∧ Forall Segments.keepsKillSwitch events)
  ∧ length (Agent.runs (Agent.run a events)) = length (Agent.runs a).
Proof.
  cbv zeta.
  set (a := Agent.run Agent.INITIAL_AGENT
              [Agent.Deliver (Agent.CONTROL_START_RUN "q1" Agent.SAMPLE_PAYLOAD);
               Agent.Deliver (Agent.CONTROL_KILL_SWITCH "q2" true)]).
  assert (Agent.killSwitchEnabled (Agent.storageState a) = true) as Hkill.
  { vm_compute. reflexivity. }
  assert (Forall Segments.keepsKillSwitch
            [Agent.Wake 0 Agent.SUCCEEDS; Agent.Wake 0 Agent.Elapsed;
             Agent.Deliver (Agent.CONTROL_START_RUN "q3" Agent.SAMPLE_PAYLOAD)])
    as Hevents.
  { repeat apply Forall_cons_2; by try apply Forall_nil_2. }
  split; [by split|].
  exact (proj1 (proj2 (kill_switch_starts_no_row a _ Hkill Hevents))).
Defined.


Lemma stop_outside_pause_loop_witness :
  let before := [Agent.Deliver (Agent.CONTROL_START_RUN "q1" Agent.SAMPLE_PAYLOAD);
                 Agent.Deliver (Agent.CONTROL_STOP_RUN "q2" "run-1")] in
  let events := [Agent.Wake 0 Agent.SUCCEEDS; Agent.Wake 0 Agent.Elapsed] in
  let a := Agent.run Agent.INITIAL_AGENT before in
  let r := {| Agent.payload := Agent.SAMPLE_PAYLOAD;
              Agent.run_state := {| Agent.currentRowIndex := 0; Agent.successCount := 0;
                                    Agent.failureCount := 0 |};
              Agent.at_ := Agent.StepRunning 0 0 Agent.SAMPLE_STEP false EmptyString |} in
  (Agent.runs a !! 0%nat = Some r
   ∧ Agent.at_ r ≠ Agent.Returned
   ∧ (∀ rowIndex, Agent.at_ r ≠ Agent.PauseDelay rowIndex)
   ∧ Agent.stopped (Agent.storageState a) = true)
  ∧ ∃ added, Agent.log (Agent.run a events) = (Agent.log a ++ added)%list
             ∧ Forall Segments.notRunning (Agent.effectsOf 0 added).
Proof.
  cbv zeta.
  assert (Agent.runs
            (Agent.run Agent.INITIAL_AGENT
               [Agent.Deliver (Agent.CONTROL_START_RUN "q1" Agent.SAMPLE_PAYLOAD);
                Agent.Deliver (Agent.CONTROL_STOP_RUN "q2" "run-1")]) !! 0%nat
          = Some {| Agent.payload := Agent.SAMPLE_PAYLOAD;
                    Agent.run_state := {| Agent.currentRowIndex := 0;
                                          Agent.successCount := 0;
                                          Agent.failureCount := 0 |};
                    Agent.at_ := Agent.StepRunning 0 0 Agent.SAMPLE_STEP false
                                                   EmptyString |}) as Hr.
  { vm_compute. reflexivity. }
  assert (Agent.StepRunning 0 0 Agent.SAMPLE_STEP false EmptyString ≠ Agent.Returned)
    as Hlive by discriminate.
  assert (∀ rowIndex, Agent.StepRunning 0 0 Agent.SAMPLE_STEP false EmptyString
                      ≠ Agent.PauseDelay rowIndex) as Hat by discriminate.
  assert (Agent.stopped
            (Agent.storageState
               (Agent.run Agent.INITIAL_AGENT
                  [Agent.Deliver (Agent.CONTROL_START_RUN "q1" Agent.SAMPLE_PAYLOAD);
                   Agent.Deliver (Agent.CONTROL_STOP_RUN "q2" "run-1")])) = true)
    as Hstopped.
  { vm_compute. reflexivity. }
  split; [by repeat split|].
  exact (proj1 (stop_outside_pause_loop _ [Agent.Wake 0 Agent.SUCCEEDS;
                                           Agent.Wake 0 Agent.Elapsed]
                  0%nat _ Hr Hlive Hat Hstopped)).
Defined.

(** ** The controller's books of a run *)

Section MoreController.
Import Agent Segments Controller.
Local Open Scope Z_scope.
Local Open Scope list_scope.

Lemma resultsFor_cons (runId : string) (message : AgentMessage)
    (messages : list AgentMessage) :
  resultsFor runId (message :: messages)
  = resultsFor runId [message] ++ resultsFor runId messages.
Proof.
  unfold resultsFor. cbn.
  destruct message as [| | |runId' rowIndex status' error| |]; try done.
  by destruct (bool_decide (runId' = runId)).
Qed.

Lemma resultsFor_app (runId : string) (messages messages' : list AgentMessage) :
  resultsFor runId (messages ++ messages')
  = resultsFor runId messages ++ resultsFor runId messages'.
Proof. apply omap_app. Qed.

Lemma broadcasts_app (l l' : list (origin * effect)) :
  broadcasts (l ++ l') = broadcasts l ++ broadcasts l'.
Proof. apply omap_app. Qed.

(** One message, one run. *)
Lemma handleMessage_lookup (runs : list Controller.Run) (message : AgentMessage)
    (k : nat) (run0 : Controller.Run) :
  runs !! k = Some run0 →
  ∃ run,
    handleMessage runs message !! k = Some run
    ∧ id run = id run0
    ∧ result_rowIndex <$> Controller.rowResults run
      = reverse (resultsFor (id run0) [message])
        ++ (result_rowIndex <$> Controller.rowResults run0)
    ∧ lastCompletedRow run
      = foldl Z.max (lastCompletedRow run0) (resultsFor (id run0) [message]).
Proof.
  intros Hrun.
  destruct message as [runId status' row text s f|q type ok error
                      |runId row stp level text|runId row status' error|q|q];
    cbn [handleMessage]; try (by exists run0).
  - unfold updateRunStatus. rewrite list_lookup_fmap, Hrun. cbn.
    eexists. split; [done|]. by destruct (bool_decide (id run0 ≠ runId)).
  - unfold appendRunLog. rewrite list_lookup_fmap, Hrun. cbn.
    eexists. split; [done|]. by destruct (bool_decide (id run0 ≠ runId)).
  - unfold appendRowResult. rewrite list_lookup_fmap, Hrun. cbn.
    eexists. split; [done|]. unfold resultsFor. cbn.
    destruct (decide (id run0 = runId)) as [Hid|Hid].
    + rewrite bool_decide_eq_false_2 by (by intros ?).
      rewrite bool_decide_eq_true_2 by done. by cbn.
    + rewrite bool_decide_eq_true_2 by done.
      rewrite bool_decide_eq_false_2 by (by intros ?). by cbn.
Qed.

Lemma foldl_handleMessage_lookup (messages : list AgentMessage) :
  ∀ (runs : list Controller.Run) (k : nat) (run0 : Controller.Run),
    runs !! k = Some run0 →
    ∃ run,
      foldl handleMessage runs messages !! k = Some run
      ∧ id run = id run0
      ∧ result_rowIndex <$> Controller.rowResults run
        = reverse (resultsFor (id run0) messages)
          ++ (result_rowIndex <$> Controller.rowResults run0)
      ∧ lastCompletedRow run
        = foldl Z.max (lastCompletedRow run0) (resultsFor (id run0) messages).
Proof.
  induction messages as [|message messages IH]; intros runs k run0 Hrun.
  { by exists run0. }
  cbn [foldl].
  destruct (handleMessage_lookup runs message k run0 Hrun)
    as (run1 & Hrun1 & Hid1 & Hresults1 & Hlast1).
  destruct (IH _ k run1 Hrun1) as (run & Hrun' & Hid & Hresults & Hlast).
  exists run. split; [done|]. split; [congruence|].
  rewrite resultsFor_cons, reverse_app, foldl_app, <- app_assoc.
  rewrite Hid1 in Hresults, Hlast. by rewrite Hresults, Hresults1, Hlast, Hlast1.
Qed.

Lemma handleMessage_length (runs : list Controller.Run) (message : AgentMessage) :
  length (handleMessage runs message) = length runs.
Proof.
  destruct message; cbn [handleMessage]; try done;
    unfold updateRunStatus, appendRunLog, appendRowResult; by rewrite length_map.
Qed.

(** X20: the controller books every [AGENT_ROW_RESULT] to the runs
    that have its [runId], newest first, and to no other run; a run's
    [lastCompletedRow] is the largest row index among the results it
    was sent and what it was before (so it never goes down, whatever
    the order of the results); no message adds, removes or renames a
    run. *)
Theorem controller_books_row_results (runs : list Controller.Run)
    (messages : list AgentMessage) (k : nat) (run0 : Controller.Run) :
  runs !! k = Some run0 →
  length (foldl handleMessage runs messages) = length runs
  ∧ ∃ run,
      foldl handleMessage runs messages !! k = Some run
      ∧ id run = id run0
      ∧ result_rowIndex <$> Controller.rowResults run
        = reverse (resultsFor (id run0) messages)
          ++ (result_rowIndex <$> Controller.rowResults run0)
      ∧ lastCompletedRow run
        = foldl Z.max (lastCompletedRow run0) (resultsFor (id run0) messages)
      ∧ lastCompletedRow run0 ≤ lastCompletedRow run.
Proof.
  intros Hrun. split.
  - clear Hrun. revert runs. induction messages as [|message messages IH];
      intros runs; [done|].
    cbn [foldl]. by rewrite IH, handleMessage_length.
  - destruct (foldl_handleMessage_lookup messages runs k run0 Hrun)
      as (run & Hrun' & Hid & Hresults & Hlast).
    exists run. split; [done|]. split; [done|]. split; [done|]. split; [done|].
    rewrite Hlast. clear. generalize (lastCompletedRow run0) as x.
    induction (resultsFor (id run0) messages) as [|row rows IH]; intros x; [done|].
    cbn [foldl]. etrans; [|apply IH]. lia.
Qed.

(** *** The agent's broadcasts in the controller's books *)

Lemma runWorkflow_mentions (p : Payload) (s : StorageState) :
  Forall (mentions (runId p)) (out (runWorkflow p s).1).
Proof.
  unfold runWorkflow. destruct (killSwitchEnabled s).
  { cbn. by repeat apply Forall_cons_2. }
  match goal with |- context [rowLoopFrom p _ ?c] => set (c1 := c) end.
  destruct (rowLoop_segment p c1 false _ (mentions_allows p false) ltac:(done)
              (rowsLeft p (resumeFrom p)) (resumeFrom p) c1 (pre_start c1 _))
    as [(_ & _ & new & Hout & Hnew) _].
  unfold rowLoopFrom. rewrite Hout. apply Forall_app. split; [|done].
  cbn. by apply Forall_singleton.
Qed.

Lemma by_handler_attributed (es : list effect) (s : StorageState) (a : Agent) :
  Forall (λ e, Agent.rowResults [e] = []) es →
  attributed a → attributed (by_handler es s a).
Proof.
  intros Hes Ha. unfold attributed, by_handler. cbn [log Agent.runs].
  apply Forall_app. split; [done|].
  apply Forall_map. eapply Forall_impl; [exact Hes|]. done.
Qed.

Lemma spawn_attributed (p : Payload) (a : Agent) :
  attributed a → attributed (spawn p a).
Proof.
  intros Ha. unfold spawn. pose proof (runWorkflow_mentions p (storageState a)) as Hnew.
  destruct (runWorkflow p (storageState a)) as [c at']. cbn [fst] in Hnew.
  unfold attributed. cbn [log Agent.runs].
  apply Forall_app. split.
  - eapply Forall_impl; [exact Ha|]. intros [[|j] e]; cbn; [done|].
    intros (r & Hr & He). exists r. split; [|done]. by apply lookup_app_l_Some.
  - apply Forall_map. eapply Forall_impl; [exact Hnew|]. intros e He. cbn.
    exists {| payload := p; run_state := state c; at_ := at' |}. split; [|exact He].
    rewrite lookup_app_r by (cbn; lia).
    cbn [Agent.runs by_handler]. by rewrite Nat.sub_diag.
Qed.

Lemma handleMessage_attributed (message : ControlMessage) (a : Agent) :
  attributed a → attributed (Agent.handleMessage message a).
Proof.
  intros Ha.
  destruct message as [q|q|q p|q rid|q rid|q rid|q enabled|q rid row stp|type];
    cbn [Agent.handleMessage]; try done;
    try (apply by_handler_attributed; [by repeat apply Forall_cons_2 | done]).
  destruct (killSwitchEnabled (storageState a)).
  { apply by_handler_attributed; [by repeat apply Forall_cons_2 | done]. }
  destruct (bool_decide (Agent.status (storageState a) = "running")).
  { apply by_handler_attributed; [by repeat apply Forall_cons_2 | done]. }
  apply spawn_attributed, by_handler_attributed; [by repeat apply Forall_cons_2 | done].
Qed.

Lemma wake_attributed (i : nat) (s : signal) (a : Agent) :
  attributed a → attributed (wake i s a).
Proof.
  intros Ha. destruct (Agent.runs a !! i) as [r|] eqn:Hr;
    [|unfold wake; by rewrite Hr].
  rewrite (wake_unfold i s a r Hr). cbv zeta.
  set (c0 := {| storage := storageState a; state := run_state r; out := [] |}).
  destruct (resume_pause (payload r) c0 false _ (mentions_allows _ false)
              ltac:(done) (at_ r) s c0 ltac:(done) (pre_start c0 _))
    as (_ & _ & new & Hout & Hnew).
  destruct (resume (payload r) (at_ r) s c0) as [c at']. cbn [fst snd] in *.
  unfold attributed. cbn [log Agent.runs].
  apply Forall_app. split.
  - eapply Forall_impl; [exact Ha|]. intros [[|j] e]; cbn; [done|].
    intros (r' & Hr' & He). destruct (decide (j = i)) as [->|Hne].
    + exists {| payload := payload r; run_state := state c; at_ := at' |}.
      split; [apply list_lookup_insert_eq; by eapply lookup_lt_Some|].
      cbn. congruence.
    + exists r'. split; [|done]. by rewrite list_lookup_insert_ne.
  - apply Forall_map. rewrite Hout. cbn [out c0 app].
    eapply Forall_impl; [exact Hnew|]. intros e He. cbn.
    exists {| payload := payload r; run_state := state c; at_ := at' |}.
    split; [apply list_lookup_insert_eq; by eapply lookup_lt_Some | done].
Qed.

Lemma timerWins_attributed (i : nat) (a : Agent) :
  attributed a → attributed (timerWins i a).
Proof. by destruct (timerWins_cases i a) as [->|(r & o & _ & _ & ->)]. Qed.

Lemma finish_attributed (k : nat) (a : Agent) :
  attributed a → attributed (finish k a).
Proof.
  intros Ha. destruct (finish_cases k a) as [->|(o & r & _ & Hr & ->)]; [done|].
  unfold attributed. cbn [log Agent.runs].
  apply Forall_app. split; [done|]. apply Forall_singleton. cbn. by exists r.
Qed.

Lemma run_attributed (a : Agent) (events : list event) :
  attributed a → attributed (Agent.run a events).
Proof.
  revert a. unfold Agent.run.
  induction events as [|e events IH]; intros a Ha; [done|].
  cbn [foldl]. apply IH.
  destruct e; [by apply handleMessage_attributed | by apply wake_attributed
              | by apply timerWins_attributed | by apply finish_attributed].
Qed.

Lemma attributed_results (a : Agent) (i : nat) (r : Agent.Run) :
  Agent.runs a !! i = Some r →
  (∀ j r', Agent.runs a !! j = Some r' → j ≠ i →
           runId (payload r') ≠ runId (payload r)) →
  attributed a →
  resultsFor (runId (payload r)) (broadcasts (log a))
  = Agent.rowResults (effectsOf i (log a)).
Proof.
  intros Hr Hunique. unfold attributed.
  induction (log a) as [|[who e] l IH] using rev_ind; [done|].
  intros [Hl Hentry]%Forall_app. rewrite Forall_singleton in Hentry.
  rewrite broadcasts_app, resultsFor_app, effectsOf_app, rowResults_app, IH by done.
  f_equal. cbn [fst snd] in Hentry. destruct who as [|j].
  - unfold effectsOf. cbn. unfold broadcasts. cbn.
    destruct e as [message| |]; try done.
    destruct message; done.
  - destruct Hentry as (r' & Hr' & He).
    destruct (decide (j = i)) as [->|Hne].
    + assert (r' = r) as -> by congruence.
      unfold effectsOf, broadcasts. cbn. rewrite bool_decide_eq_true_2 by done. cbn.
      destruct e as [message| |]; try done.
      destruct message; try done. cbn in He. subst. unfold resultsFor. cbn.
      by rewrite bool_decide_eq_true_2.
    + unfold effectsOf, broadcasts. cbn. rewrite bool_decide_eq_false_2 by done. cbn.
      destruct e as [message| |]; try done.
      destruct message; try done. cbn in He. subst. unfold resultsFor. cbn.
      rewrite bool_decide_eq_false_2; [done|]. by apply (Hunique j r').
Qed.

Lemma foldl_max_seqZ (x : Z) (n : nat) :
  foldl Z.max x (seqZ (x + 1) (Z.of_nat n)) = x + Z.of_nat n.
Proof.
  revert x. induction n as [|n IH]; intros x.
  { rewrite seqZ_nil by done. cbn [foldl]. lia. }
  rewrite Nat2Z.inj_succ, seqZ_cons by lia. cbn [foldl].
  replace (Z.pred (Z.succ (Z.of_nat n))) with (Z.of_nat n) by lia.
  replace (Z.max x (x + 1)) with (x + 1) by lia.
  replace (Z.succ (x + 1)) with ((x + 1) + 1) by lia.
  rewrite IH. lia.
Qed.

Lemma foldl_max_le (x : Z) (rows : list Z) :
  Forall (λ row, row ≤ x) rows → foldl Z.max x rows = x.
Proof.
  induction 1 as [|row rows Hrow _ IH]; [done|].
  cbn [foldl]. by replace (Z.max x row) with x by lia.
Qed.

Lemma foldl_max_Permutation (x : Z) (rows rows' : list Z) :
  rows ≡ₚ rows' → foldl Z.max x rows = foldl Z.max x rows'.
Proof.
  intros Hperm. revert x.
  induction Hperm as [|row rows rows' _ IH|row row' rows|rows rows' rows'' _ IH _ IH'];
    intros x; cbn [foldl]; [done|apply IH| |by rewrite IH].
  f_equal. lia.
Qed.

Lemma merged_Permutation {A : Type} (streams : list (list A)) (l : list A) :
  merged streams l → l ≡ₚ mjoin streams.
Proof.
  induction 1 as [streams Hempty|streams k x stream l Hk _ IH].
  - induction Hempty as [|stream streams -> _ IH]; [done|]. by cbn.
  - rewrite IH. pose proof (lookup_lt_Some _ _ _ Hk) as Hlt.
    rewrite insert_take_drop by done.
    rewrite <- (take_drop_middle streams k (x :: stream) Hk) at 3.
    rewrite !join_app. cbn [mjoin list_join]. cbn.
    by rewrite Permutation_middle.
Qed.

Lemma resultsFor_filter (runId : string) (valid : AgentMessage → bool)
    (messages : list AgentMessage) :
  Forall (λ message, isResultFor runId message = true → valid message = true) messages →
  resultsFor runId (filter (λ message, valid message = true) messages)
  = resultsFor runId messages.
Proof.
  induction 1 as [|message messages Hvalid _ IH]; [done|].
  rewrite filter_cons, (resultsFor_cons _ message messages).
  destruct (decide (valid message = true)) as [|Hdrop].
  - by rewrite resultsFor_cons, IH.
  - rewrite IH. destruct message as [| | |runId' rowIndex status' error| |]; try done.
    unfold resultsFor. cbn. case_bool_decide; [|done].
    destruct Hdrop. apply Hvalid. cbn. by apply bool_decide_eq_true_2.
Qed.

Lemma resultsFor_Permutation (runId : string) (messages messages' : list AgentMessage) :
  messages ≡ₚ messages' → resultsFor runId messages ≡ₚ resultsFor runId messages'.
Proof. intros Hperm. unfold resultsFor. by apply omap_Permutation. Qed.

Lemma resultsFor_join (runId : string) (streams : list (list AgentMessage)) :
  resultsFor runId (mjoin streams) = mjoin (resultsFor runId <$> streams).
Proof.
  induction streams as [|stream streams IH]; [done|].
  rewrite fmap_cons.
  change (mjoin (stream :: streams)) with (stream ++ mjoin streams).
  change (mjoin (resultsFor runId stream :: (resultsFor runId <$> streams)))
    with (resultsFor runId stream ++ mjoin (resultsFor runId <$> streams)).
  by rewrite resultsFor_app, IH.
Qed.

Lemma length_copies {A : Type} (count : nat) (l : list A) :
  length (mjoin (replicate count l)) = (count * length l)%nat.
Proof.
  induction count as [|count IH]; [done|].
  change (mjoin (replicate (S count) l)) with (l ++ mjoin (replicate count l)).
  rewrite length_app, IH. lia.
Qed.

Lemma foldl_max_copies (x : Z) (n count : nat) :
  (0 < count)%nat →
  foldl Z.max x (mjoin (replicate count (seqZ (x + 1) (Z.of_nat n)))) = x + Z.of_nat n.
Proof.
  intros Hcount. destruct count as [|count]; [lia|]. clear Hcount.
  change (mjoin (replicate (S count) (seqZ (x + 1) (Z.of_nat n))))
    with (seqZ (x + 1) (Z.of_nat n)
          ++ mjoin (replicate count (seqZ (x + 1) (Z.of_nat n)))).
  rewrite foldl_app, foldl_max_seqZ. apply foldl_max_le.
  apply Forall_forall. intros row (rows & Hrow & Hrows)%list_elem_of_join.
  apply elem_of_replicate in Hrows as [-> _]. apply elem_of_seqZ in Hrow. lia.
Qed.

Lemma merged_one_by_one {A : Type} (first second : list A) :
  merged [first; second] (first ++ second).
Proof.
  induction first as [|x first IH].
  - induction second as [|x second IH].
    + apply merged_nil. by repeat apply Forall_cons_2.
    + by apply (merged_cons _ 1 x second).
  - by apply (merged_cons _ 0 x first).
Qed.

Lemma filter_all_valid {A : Type} (valid : A → bool) (l : list A) :
  (∀ x, valid x = true) → filter (λ x, valid x = true) l = l.
Proof.
  intros Hvalid. induction l as [|x l IH]; [done|].
  by rewrite filter_cons_True, IH.
Qed.

(** X21: the controller's books follow the agent, but hold a row
    once for every way on which its result arrives.  Let the
    controller hold a run whose [lastCompletedRow + 1] was sent as
    [resumeFrom] (as [handleStartRun] does), and let the agent's call
    of [runWorkflow] for it be the only one with its [runId].  Let all
    that the agent broadcast have reached the controller on one way or
    several, in any order between the ways, and let the transport have
    passed on the row results of the run on each of them.  Then the
    rows in the run's row results are those of the agent, [resumeFrom],
    [resumeFrom + 1], .., each as many times as there are ways
    ([appendRowResult] does not tell a result that arrives again from
    a new one); and [lastCompletedRow] has advanced by the number of
    rows that the agent has reported, once each: it is the last row
    reported, and [lastCompletedRow + 1] the row to resume from. *)
Theorem controller_follows_agent (events : list event) (i : nat) (r : Agent.Run)
    (runs : list Controller.Run) (k : nat) (run0 : Controller.Run)
    (ways : list (AgentMessage → bool)) (arrived : list AgentMessage) :
  let a := Agent.run INITIAL_AGENT events in
  let done := Agent.rowResults (effectsOf i (log a)) in
  Agent.runs a !! i = Some r →
  (∀ j r', Agent.runs a !! j = Some r' → j ≠ i →
           runId (payload r') ≠ runId (payload r)) →
  runs !! k = Some run0 →
  id run0 = runId (payload r) →
  resumeFrom (payload r) = lastCompletedRow run0 + 1 →
  ways ≠ [] →
  Forall (λ valid, ∀ message, isResultFor (id run0) message = true →
                              valid message = true) ways →
  arrives ways (broadcasts (log a)) arrived →
  ∃ run,
    foldl handleMessage runs arrived !! k = Some run
    ∧ done = seqZ (lastCompletedRow run0 + 1) (Z.of_nat (length done))
    ∧ result_rowIndex <$> Controller.rowResults run
      ≡ₚ mjoin (replicate (length ways) done)
         ++ (result_rowIndex <$> Controller.rowResults run0)
    ∧ length (Controller.rowResults run)
      = (length ways * length done + length (Controller.rowResults run0))%nat
    ∧ lastCompletedRow run = lastCompletedRow run0 + Z.of_nat (length done)
    ∧ Agent.successCount (run_state r) + Agent.failureCount (run_state r)
      = Z.of_nat (length done).
Proof.
  intros a done Hr Hunique Hrun Hid Hresume Hways Hvalid Harrived.
  assert (attributed a) as Ha.
  { apply run_attributed. by apply Forall_nil. }
  destruct (run_books _ events INITIAL_AGENT_books) as [Hbooks _].
  destruct (Hbooks i r Hr) as [[Hsuccess Hfailure Htotal Hrows _] _].
  fold a in Hsuccess, Hfailure, Htotal, Hrows. fold done in Htotal, Hrows.
  rewrite Hresume in Hrows.
  destruct (foldl_handleMessage_lookup arrived runs k run0 Hrun)
    as (run & Hrun' & _ & Hresults & Hlast).
  assert (resultsFor (id run0) arrived ≡ₚ mjoin (replicate (length ways) done))
    as Hperm.
  { apply merged_Permutation in Harrived.
    etrans; [by apply resultsFor_Permutation|].
    rewrite resultsFor_join, <- list_fmap_compose.
    clear Harrived Hways. induction Hvalid as [|valid ways Hpass _ IH]; [done|].
    rewrite fmap_cons. cbn [length replicate].
    change (mjoin (?x :: ?xs)) with (x ++ mjoin xs). rewrite IH. f_equiv.
    cbn [compose].
    rewrite resultsFor_filter by (apply Forall_forall; intros message _; apply Hpass).
    by rewrite Hid, (attributed_results a i r Hr Hunique Ha). }
  assert (result_rowIndex <$> Controller.rowResults run
          ≡ₚ mjoin (replicate (length ways) done)
             ++ (result_rowIndex <$> Controller.rowResults run0)) as Hbooked.
  { by rewrite Hresults, reverse_Permutation, Hperm. }
  exists run. split; [done|]. split; [done|]. split; [done|]. split; [|split].
  - apply Permutation_length in Hbooked.
    rewrite length_fmap, length_app, length_fmap in Hbooked. rewrite Hbooked.
    f_equal. apply length_copies.
  - rewrite Hlast, (foldl_max_Permutation _ _ _ Hperm), Hrows, length_seqZ.
    rewrite Z2Nat.id by lia. apply foldl_max_copies.
    destruct ways; [done|]. cbn. lia.
  - rewrite Hsuccess, Hfailure, Htotal. lia.
Qed.

End MoreController.

Lemma controller_books_row_results_witness :
  let runs := [Controller.createRun "run-1"] in
  let messages := [Agent.AGENT_ROW_RESULT "run-1" 0 "success" None;
                   Agent.AGENT_ROW_RESULT "run-2" 5 "success" None;
                   Agent.AGENT_ROW_RESULT "run-1" 1 "failed" (Some "boom")] in
  runs !! 0%nat = Some (Controller.createRun "run-1")
  ∧ length (foldl Controller.handleMessage runs messages) = length runs.
Proof.
  cbv zeta. split; [reflexivity|].
  exact (proj1 (controller_books_row_results
                  [Controller.createRun "run-1"]
                  [Agent.AGENT_ROW_RESULT "run-1" 0 "success" None;
                   Agent.AGENT_ROW_RESULT "run-2" 5 "success" None;
                   Agent.AGENT_ROW_RESULT "run-1" 1 "failed" (Some "boom")]
                  0%nat (Controller.createRun "run-1") eq_refl)).
Defined.

Lemma controller_follows_agent_witness :
  let events := [Agent.Deliver (Agent.CONTROL_START_RUN "q1" Agent.SAMPLE_PAYLOAD);
                 Agent.Wake 0 Agent.SUCCEEDS; Agent.Wake 0 Agent.Elapsed] in
  let a := Agent.run Agent.INITIAL_AGENT events in
  let r := {| Agent.payload := Agent.SAMPLE_PAYLOAD;
              Agent.run_state := {| Agent.currentRowIndex := 1; Agent.successCount := 1;
                                    Agent.failureCount := 0 |};
              Agent.at_ := Agent.StepRunning 1 0 Agent.SAMPLE_STEP false EmptyString |} in
  let run0 := Controller.createRun "run-1" in
  let ways := [λ _ : Agent.AgentMessage, true; λ _ : Agent.AgentMessage, true] in
  let arrived := (Controller.broadcasts (Agent.log a)
                  ++ Controller.broadcasts (Agent.log a))%list in
  (Agent.runs a !! 0%nat = Some r
   ∧ (∀ j r', Agent.runs a !! j = Some r' → j ≠ 0%nat →
              Agent.runId (Agent.payload r') ≠ Agent.runId (Agent.payload r))
   ∧ [run0] !! 0%nat = Some run0
   ∧ Controller.id run0 = Agent.runId (Agent.payload r)
   ∧ Agent.resumeFrom (Agent.payload r) = (Controller.lastCompletedRow run0 + 1)%Z
   ∧ ways ≠ []
   ∧ Forall (λ valid, ∀ message,
               Controller.isResultFor (Controller.id run0) message = true →
               valid message = true) ways
   ∧ Controller.arrives ways (Controller.broadcasts (Agent.log a)) arrived)
  ∧ ∃ run,
      foldl Controller.handleMessage [run0] arrived !! 0%nat = Some run
      ∧ length (Controller.rowResults run) = 2%nat
      ∧ Controller.lastCompletedRow run = 0%Z.
Proof.
  cbv zeta.
  set (a := Agent.run Agent.INITIAL_AGENT
              [Agent.Deliver (Agent.CONTROL_START_RUN "q1" Agent.SAMPLE_PAYLOAD);
               Agent.Wake 0 Agent.SUCCEEDS; Agent.Wake 0 Agent.Elapsed]).
  set (r := {| Agent.payload := Agent.SAMPLE_PAYLOAD;
               Agent.run_state := {| Agent.currentRowIndex := 1; Agent.successCount := 1;
                                     Agent.failureCount := 0 |};
               Agent.at_ := Agent.StepRunning 1 0 Agent.SAMPLE_STEP false EmptyString |}).
  set (ways := [λ _ : Agent.AgentMessage, true; λ _ : Agent.AgentMessage, true]).
  assert (Agent.runs a = [r]) as Hruns.
  { vm_compute. reflexivity. }
  assert (Agent.runs a !! 0%nat = Some r) as Hr.
  { rewrite Hruns. reflexivity. }
  assert (∀ j r', Agent.runs a !! j = Some r' → j ≠ 0%nat →
                  Agent.runId (Agent.payload r') ≠ Agent.runId (Agent.payload r))
    as Hunique.
  { intros j r'. rewrite Hruns. destruct j as [|j]; [done|]. discriminate. }
  assert (Controller.id (Controller.createRun "run-1")
          = Agent.runId (Agent.payload r)) as Hid.
  { vm_compute. reflexivity. }
  assert (Agent.resumeFrom (Agent.payload r)
          = (Controller.lastCompletedRow (Controller.createRun "run-1") + 1)%Z)
    as Hresume.
  { vm_compute. reflexivity. }
  assert (ways ≠ []) as Hways by discriminate.
  assert (Forall (λ valid : Agent.AgentMessage → bool, ∀ message,
                    Controller.isResultFor
                      (Controller.id (Controller.createRun "run-1")) message = true →
                    valid message = true) ways) as Hvalid.
  { by repeat apply Forall_cons_2; try apply Forall_nil_2. }
  assert (Controller.arrives ways (Controller.broadcasts (Agent.log a))
            (Controller.broadcasts (Agent.log a)
             ++ Controller.broadcasts (Agent.log a))%list) as Harrived.
  { unfold Controller.arrives, ways. cbn [fmap list_fmap].
    rewrite (filter_all_valid (λ _, true)) by done.
    apply merged_one_by_one. }
  assert (length (Agent.rowResults (Agent.effectsOf 0 (Agent.log a))) = 1%nat)
    as Hdone.
  { vm_compute. reflexivity. }
  split; [by repeat split|].
  destruct (controller_follows_agent _ 0%nat r [Controller.createRun "run-1"] 0%nat
              _ ways _ Hr Hunique eq_refl Hid Hresume Hways Hvalid Harrived)
    as (run & Hrun & _ & _ & Hlength & Hlast & _).
  exists run. split; [exact Hrun|]. rewrite Hlength, Hlast. fold a. rewrite Hdone.
  by split.
Defined.

(** ** The workflow editor's step order *)

Section MoreEditor.
Import Editor.
Local Open Scope list_scope.

Context {Step : Type} (id : Step → string).

Lemma findIndex_lookup (steps : list Step) (stepId : string) :
  ∀ index found,
    findIndex id steps stepId = Some (index, found) →
    steps !! index = Some found ∧ id found = stepId.
Proof.
  induction steps as [|step steps IH]; intros index found; [done|].
  cbn [findIndex]. destruct (decide (id step = stepId)) as [Hid|Hid].
  - rewrite bool_decide_eq_true_2 by done. by intros [= <- <-].
  - rewrite bool_decide_eq_false_2 by done.
    destruct (findIndex id steps stepId) as [[index' found']|]; [|done].
    intros [= <- <-]. by apply IH.
Qed.

Lemma spliceIn_lookup (index : nat) (item : Step) :
  ∀ steps, (index ≤ length steps)%nat → spliceIn index item steps !! index = Some item.
Proof.
  induction index as [|index IH]; intros steps Hindex; [done|].
  destruct steps as [|step steps]; [cbn in Hindex; lia|].
  apply (IH steps). cbn in Hindex. lia.
Qed.

Lemma spliceIn_delete (index : nat) (item : Step) :
  ∀ steps, (index ≤ length steps)%nat → delete index (spliceIn index item steps) = steps.
Proof.
  induction index as [|index IH]; intros steps Hindex.
  { unfold spliceIn. by rewrite take_0, drop_0. }
  destruct steps as [|step steps]; [cbn in Hindex; lia|].
  change (step :: delete index (spliceIn index item steps) = step :: steps).
  rewrite IH; [done|]. cbn in Hindex. lia.
Qed.

Lemma delete_spliceIn (index : nat) (item : Step) :
  ∀ steps, steps !! index = Some item → spliceIn index item (delete index steps) = steps.
Proof.
  induction index as [|index IH]; intros [|step steps] Hitem; try done.
  - cbn in Hitem. injection Hitem as ->. unfold spliceIn. by rewrite take_0, drop_0.
  - change (step :: spliceIn index item (delete index steps) = step :: steps).
    by rewrite IH.
Qed.

Lemma spliceIn_Permutation (index : nat) (item : Step) (steps : list Step) :
  spliceIn index item steps ≡ₚ item :: steps.
Proof. unfold spliceIn. by rewrite <- Permutation_middle, take_drop. Qed.

(** X22: what [moveStep] hands on is the same steps in a new order:
    the step with the given [id] (the first one, should two share it)
    taken out and put back [direction] places further on, the other
    steps in their order; nothing is handed on when no step has the
    [id] or the new place is outside the list, and a [direction] of 0
    gives the list as it was. *)
Theorem moveStep_order (steps steps' : list Step) (stepId : string) (direction : Z) :
  moveStep id steps stepId direction = Some steps' →
  ∃ index removed,
    findIndex id steps stepId = Some (index, removed)
    ∧ (0 ≤ Z.of_nat index + direction < Z.of_nat (length steps))%Z
    ∧ steps' ≡ₚ steps
    ∧ steps' !! Z.to_nat (Z.of_nat index + direction) = Some removed
    ∧ delete (Z.to_nat (Z.of_nat index + direction)) steps' = delete index steps
    ∧ (direction = 0%Z → steps' = steps).
Proof.
  unfold moveStep.
  destruct (findIndex id steps stepId) as [[index removed]|] eqn:Hfound; [|done].
  destruct (findIndex_lookup steps stepId index removed Hfound) as [Hremoved Hid].
  cbv zeta. destruct (_ || _) eqn:Hout; [done|]. intros [= <-].
  apply orb_false_iff in Hout as [Hlow Hhigh].
  apply Z.ltb_ge in Hlow. apply Z.leb_gt in Hhigh.
  pose proof (lookup_lt_Some _ _ _ Hremoved) as Hlt.
  assert (Z.to_nat (Z.of_nat index + direction) ≤ length (delete index steps))%nat
    as Hnext.
  { rewrite length_delete by done. lia. }
  exists index, removed. split; [done|]. split; [lia|]. split; [|split; [|split]].
  - rewrite spliceIn_Permutation. symmetry. by apply delete_Permutation.
  - by apply spliceIn_lookup.
  - by apply spliceIn_delete.
  - intros ->. rewrite Z.add_0_r, Nat2Z.id. by apply delete_spliceIn.
Qed.

End MoreEditor.

Lemma moveStep_order_witness :
  Editor.moveStep (λ step : string, step) ["a"; "b"; "c"] "a" 1 = Some ["b"; "a"; "c"]
  ∧ ["b"; "a"; "c"] ≡ₚ ["a"; "b"; "c"].
Proof.
  assert (Editor.moveStep (λ step : string, step) ["a"; "b"; "c"] "a" 1
          = Some ["b"; "a"; "c"]) as Hmoved.
  { vm_compute. reflexivity. }
  split; [exact Hmoved|].
  destruct (moveStep_order _ _ _ _ _ Hmoved) as (index & removed & _ & _ & Hperm & _).
  exact Hperm.
Defined.

(** ** Small helpers *)

Section MoreHelpers.
Import Helpers.
Local Open Scope list_scope.

Lemma captureConsole_window (entries : list string) :
  ∀ consoleBuffer,
    (length consoleBuffer ≤ 50)%nat →
    foldl captureConsole consoleBuffer entries
    = drop (length (consoleBuffer ++ entries) - 50) (consoleBuffer ++ entries).
Proof.
  induction entries as [|entry entries IH]; intros consoleBuffer Hlen.
  { rewrite app_nil_r. cbn [foldl].
    by replace (length consoleBuffer - 50)%nat with 0%nat by lia. }
  cbn [foldl]. unfold captureConsole at 2. cbv zeta.
  rewrite length_app. cbn [length].
  destruct (Nat.ltb_spec 50 (length consoleBuffer + 1)) as [Hfull|Hroom].
  - assert (length consoleBuffer = 50%nat) as Hfifty by lia.
    destruct consoleBuffer as [|oldest rest]; [done|]. cbn [length] in Hfifty.
    cbn [app drop]. rewrite drop_0.
    rewrite IH by (rewrite length_app; cbn; lia).
    rewrite <- app_assoc. cbn [app length]. rewrite !length_app. cbn [length].
    replace (length rest + S (length entries) - 50)%nat
      with (length entries) by lia.
    replace (S (length rest + S (length entries)) - 50)%nat
      with (S (length entries)) by lia.
    done.
  - rewrite IH by (rewrite length_app; cbn; lia).
    by rewrite <- app_assoc.
Qed.

(** X23: [consoleBuffer] holds the last 50 console entries, oldest
    first: after any number of calls of [captureConsole] it is what
    was captured without all but the last 50, so it never holds more
    than 50 entries (and [consoleBuffer.slice(-50)], which the row
    results carry, is all of it). *)
Theorem consoleBuffer_last_50 (entries : list string) :
  foldl captureConsole [] entries = drop (length entries - 50) entries
  ∧ (length (foldl captureConsole [] entries) ≤ 50)%nat.
Proof.
  rewrite (captureConsole_window entries []) by (cbn; lia). cbn [app].
  split; [done|]. rewrite length_drop. lia.
Qed.

Lemma floor_lower (z : Z) (q : Q) : (inject_Z z <= q)%Q → (z ≤ floor q)%Z.
Proof.
  unfold Qle, floor. cbn. intros H.
  apply Z.div_le_lower_bound; lia.
Qed.

Lemma floor_upper (z : Z) (q : Q) : (q <= inject_Z z)%Q → (floor q ≤ z)%Z.
Proof.
  unfold Qle, floor. cbn. intros H.
  apply Z.div_le_upper_bound; lia.
Qed.

(** X24: the delay between two steps lies between [delayMinMs] and
    [delayMaxMs]: for bounds [min <= max] and a draw of [Math.random]
    in [0, 1), [applyDelay] sleeps once, for a whole number of
    milliseconds from [min] to [max], or, only when [min] is not
    positive, not at all. *)
Theorem applyDelay_bounds (min max : Z) (random : Q) :
  (0 <= random)%Q → (random < 1)%Q → (min ≤ max)%Z →
  (applyDelay min max random = [] ∧ (min ≤ 0)%Z)
  ∨ ∃ ms, applyDelay min max random = [Agent.Delay ms]
          ∧ (0 < ms)%Z ∧ (min ≤ ms ≤ max)%Z.
Proof.
  intros Hlow Hhigh Hbounds. unfold applyDelay. cbv zeta.
  set (q := (inject_Z min + random * inject_Z (max - min))%Q).
  assert (0 <= inject_Z (max - min))%Q as Hwidth.
  { change 0%Q with (inject_Z 0). rewrite <- Zle_Qle. lia. }
  assert (inject_Z min <= q)%Q as Hmin.
  { unfold q. rewrite <- (Qplus_0_r (inject_Z min)) at 1.
    apply Qplus_le_r. by apply Qmult_le_0_compat. }
  assert (q <= inject_Z max)%Q as Hmax.
  { unfold q. replace max with (min + (max - min))%Z at 2 by lia.
    rewrite inject_Z_plus. apply Qplus_le_r.
    rewrite <- (Qmult_1_l (inject_Z (max - min))) at 2.
    apply Qmult_le_compat_r; [by apply Qlt_le_weak | done]. }
  apply floor_lower in Hmin. apply floor_upper in Hmax.
  destruct (Z.ltb_spec 0 (floor q)) as [Hpos|Hzero].
  - right. exists (floor q). by repeat split.
  - left. split; [done | lia].
Qed.

Lemma hexDigit_hex (value : nat) : (value < 16)%nat → is_hex (hexDigit value) = true.
Proof.
  intros Hvalue. do 16 (destruct value as [|value]; [done|]). lia.
Qed.

Lemma variant_digit (value : nat) :
  (value < 16)%nat →
  hexDigit (Nat.lor (Nat.land value 3) 8) ∈ ["8"; "9"; "a"; "b"]%char.
Proof.
  intros Hvalue.
  do 16 (destruct value as [|value]; [vm_compute; set_solver|]). lia.
Qed.

Lemma fillTemplate_length (template : string) (rand : nat → nat) :
  ∀ k, String.length (fillTemplate template rand k) = String.length template.
Proof.
  induction template as [|char template IH]; intros k; [done|].
  cbn [fillTemplate]. destruct (bool_decide (char = "x"%char));
    [|destruct (bool_decide (char = "y"%char))]; cbn; by rewrite IH.
Qed.

Lemma fillTemplate_shaped (template : string) (rand : nat → nat) :
  (∀ k, (rand k < 16)%nat) →
  ∀ k, shaped template (fillTemplate template rand k) = true.
Proof.
  intros Hrand. induction template as [|char template IH]; intros k; [done|].
  cbn [fillTemplate].
  destruct (bool_decide (char = "x"%char)) eqn:Hx;
    [|destruct (bool_decide (char = "y"%char)) eqn:Hy];
    cbn [shaped]; rewrite Hx, ?Hy, IH, andb_true_r.
  - by apply hexDigit_hex.
  - apply bool_decide_eq_true_2. by apply variant_digit.
  - by apply bool_decide_eq_true_2.
Qed.

Lemma shaped_nth (template s : string) :
  shaped template s = true →
  ∀ n t, nth_char n template = Some t →
         ∃ c, nth_char n s = Some c
              ∧ if bool_decide (t = "x"%char) then is_hex c = true
                else if bool_decide (t = "y"%char) then is_variant c = true
                else c = t.
Proof.
  revert s. induction template as [|t' template IH]; intros [|c' s]; try done.
  cbn [shaped]. intros [Hhead Htail]%andb_true_iff [|n] t; cbn [nth_char].
  - intros [= <-]. exists c'. split; [done|].
    destruct (bool_decide (t' = "x"%char)); [done|].
    destruct (bool_decide (t' = "y"%char)); [done|].
    by apply bool_decide_eq_true in Hhead.
  - by apply IH.
Qed.

(** X25: the identifier that the fallback of [uuidv4] makes has the
    shape of a version 4 UUID: it is the template
    [xxxxxxxx-xxxx-4xxx-yxxx-xxxxxxxxxxxx] with a lower-case
    hexadecimal digit for every [x] and one of [8], [9], [a], [b] for
    the [y]; so it has 36 characters, the hyphens of the template, the
    version digit [4] at place 14 and the variant digit at place 19. *)
Theorem uuidv4_shape (rand : nat → nat) :
  (∀ k, (rand k < 16)%nat) →
  shaped UUID_TEMPLATE (uuidv4 rand) = true
  ∧ String.length (uuidv4 rand) = 36%nat
  ∧ nth_char 14 (uuidv4 rand) = Some "4"%char
  ∧ ∃ c, nth_char 19 (uuidv4 rand) = Some c ∧ c ∈ ["8"; "9"; "a"; "b"]%char.
Proof.
  intros Hrand. unfold uuidv4.
  pose proof (fillTemplate_shaped UUID_TEMPLATE rand Hrand 0) as Hshaped.
  pose proof (fillTemplate_length UUID_TEMPLATE rand 0) as Hsame.
  assert (nth_char 14 UUID_TEMPLATE = Some "4"%char) as Hversion.
  { vm_compute. reflexivity. }
  assert (nth_char 19 UUID_TEMPLATE = Some "y"%char) as Hvariant.
  { vm_compute. reflexivity. }
  assert (String.length UUID_TEMPLATE = 36%nat) as Hlength.
  { vm_compute. reflexivity. }
  revert Hshaped Hsame. generalize (fillTemplate UUID_TEMPLATE rand 0).
  intros uuid Hshaped Hsame.
  destruct (shaped_nth _ _ Hshaped 14 _ Hversion) as (c & Hc & Hshape).
  destruct (shaped_nth _ _ Hshaped 19 _ Hvariant) as (c' & Hc' & Hshape').
  split; [exact Hshaped|]. split; [by rewrite Hsame|]. split.
  - rewrite Hc. f_equal.
    rewrite bool_decide_eq_false_2 in Hshape by discriminate.
    rewrite bool_decide_eq_false_2 in Hshape by discriminate. exact Hshape.
  - exists c'. split; [exact Hc'|].
    rewrite bool_decide_eq_false_2 in Hshape' by discriminate.
    rewrite bool_decide_eq_true_2 in Hshape' by reflexivity.
    by apply bool_decide_eq_true in Hshape'.
Qed.

End MoreHelpers.

Lemma applyDelay_bounds_witness :
  ((0 <= 1 # 2)%Q ∧ (1 # 2 < 1)%Q ∧ (300 ≤ 900)%Z)
  ∧ Helpers.applyDelay 300 900 (1 # 2) = [Agent.Delay 600].
Proof.
  assert (0 <= 1 # 2)%Q as H1 by done.
  assert (1 # 2 < 1)%Q as H2 by done.
  assert (300 ≤ 900)%Z as H3 by lia.
  split; [by repeat split|].
  destruct (applyDelay_bounds 300 900 (1 # 2) H1 H2 H3)
    as [[_ Hmin] | (ms & Hdelay & _)]; [lia|].
  assert (Helpers.applyDelay 300 900 (1 # 2) = [Agent.Delay 600]) as Hvalue.
  { vm_compute. reflexivity. }
  exact Hvalue.
Defined.

Lemma uuidv4_shape_witness :
  (∀ k : nat, ((λ _, 7) k < 16)%nat)
  ∧ String.length (Helpers.uuidv4 (λ _, 7%nat)) = 36%nat.
Proof.
  assert (∀ k : nat, ((λ _ : nat, 7%nat) k < 16)%nat) as Hrand by (intros k; cbn; lia).
  split; [exact Hrand|].
  exact (proj1 (proj2 (uuidv4_shape (λ _, 7%nat) Hrand))).
Defined.
